(** * The nftables ipset manager of AdGuardHome (package [ipset], Linux build)

  A shallow embedding of [newManager], [parseIpsetConfigLine],
  [parseIpsetConfig], [lookupHost], [addIPs], [addToSets] and [Add], over an
  explicit manager state and an explicit log of the calls issued on the
  nftables connection, followed by the properties of the manager; and of
  [glGetTokenDate] of package [home], over the content of the token file.

  Conventions of the embedding:
  - a Go [string] is a [string] (a sequence of 8-bit characters), sliced and
    indexed by bytes as in Go; [strings.TrimSpace] and [strings.ToLower]
    read it as UTF-8, rune by rune, as the standard library does;
  - a Go slice is the list of its elements, and the [nil] slice is [[]]:
    every slice this package stores is built by [append] from [nil], hence
    is [nil] exactly when it has no element;
  - a [*nftables.Set] is the record it points to (the package never writes
    through such a pointer);
  - a Go function returning [(x, err)] returns the pair, with [None] for a
    [nil] error; a function that can dereference a [nil] pointer has an
    [outcome], which is either its returned values or a panic;
  - the kernel behind [*nftables.Conn] is an oracle that answers every call
    from the history of the calls issued before it. *)

From Stdlib Require Import ZArith Lia Ascii String.
From Stdlib.Strings Require Import Byte.
From stdpp Require Import base option list gmap sets strings.
From Equations Require Import Equations.

Open Scope string_scope.
Open Scope list_scope.

#[global] Set Warnings "-clear-no-such-hyp".

(** ** Package [unicode/utf8] of the Go standard library *)

Module GoUtf8.

(** The bytes of a string, and the string of bytes: [[]byte(s)] and
    [string(p)]. The functions of this package are those on byte slices;
    the ones on strings do the same. *)
Definition bytes (s : string) : list ascii := list_ascii_of_string s.
Definition of_bytes (p : list ascii) : string := string_of_list_ascii p.

Definition RuneError : Z := 0xFFFD.
Definition RuneSelf : Z := 0x80.
Definition MaxRune : Z := 0x10FFFF.

(** [rune(b)], the value of a byte. *)
Definition octet (c : ascii) : Z := Z.of_N (N_of_ascii c).

(** [byte(v)]: the byte of the lowest 8 bits of [v]. *)
Definition byte_of (v : Z) : ascii := ascii_of_N (Z.to_N (Z.land v 0xFF)).

(** What the table [first] has for the first byte of a sequence: a byte of
    ASCII ([as]), an invalid byte ([xx]), or the size of the sequence with
    the range that [acceptRanges] gives for its second byte. *)
Inductive firstInfo :=
| first_as
| first_xx
| first_lead (sz : nat) (lo hi : Z).

Definition first (b : Z) : firstInfo :=
  if (b <? 0x80)%Z then first_as
  else if (b <? 0xC2)%Z then first_xx
  else if (b <? 0xE0)%Z then first_lead 2 0x80 0xBF
  else if (b =? 0xE0)%Z then first_lead 3 0xA0 0xBF
  else if (b <? 0xED)%Z then first_lead 3 0x80 0xBF
  else if (b =? 0xED)%Z then first_lead 3 0x80 0x9F
  else if (b <? 0xF0)%Z then first_lead 3 0x80 0xBF
  else if (b =? 0xF0)%Z then first_lead 4 0x90 0xBF
  else if (b <? 0xF4)%Z then first_lead 4 0x80 0xBF
  else if (b =? 0xF4)%Z then first_lead 4 0x80 0x8F
  else first_xx.

Definition locb : Z := 0x80.
Definition hicb : Z := 0xBF.
Definition maskx : Z := 0x3F.
Definition mask2 : Z := 0x1F.
Definition mask3 : Z := 0x0F.
Definition mask4 : Z := 0x07.

(** [utf8.DecodeRune(p)]: the first rune of [p] and its width in bytes;
    [(RuneError, 1)] for a byte that begins no valid encoding. *)
Definition DecodeRune (p : list ascii) : Z * nat :=
  match p with
  | [] => (RuneError, 0%nat)
  | c0 :: p1 =>
      let p0 := octet c0 in
      match first p0 with
      | first_as => (p0, 1%nat)
      | first_xx => (RuneError, 1%nat)
      | first_lead sz lo hi =>
          if (length p <? sz)%nat then (RuneError, 1%nat)
          else
            match p1 with
            | [] => (RuneError, 1%nat)
            | c1 :: p2 =>
                let b1 := octet c1 in
                if ((b1 <? lo) || (hi <? b1))%Z then (RuneError, 1%nat)
                else if (sz <=? 2)%nat
                then (Z.lor (Z.shiftl (Z.land p0 mask2) 6) (Z.land b1 maskx),
                      2%nat)
                else
                  match p2 with
                  | [] => (RuneError, 1%nat)
                  | c2 :: p3 =>
                      let b2 := octet c2 in
                      if ((b2 <? locb) || (hicb <? b2))%Z
                      then (RuneError, 1%nat)
                      else if (sz <=? 3)%nat
                      then (Z.lor (Z.lor (Z.shiftl (Z.land p0 mask3) 12)
                                         (Z.shiftl (Z.land b1 maskx) 6))
                                  (Z.land b2 maskx), 3%nat)
                      else
                        match p3 with
                        | [] => (RuneError, 1%nat)
                        | c3 :: _ =>
                            let b3 := octet c3 in
                            if ((b3 <? locb) || (hicb <? b3))%Z
                            then (RuneError, 1%nat)
                            else (Z.lor (Z.lor (Z.lor
                                    (Z.shiftl (Z.land p0 mask4) 18)
                                    (Z.shiftl (Z.land b1 maskx) 12))
                                    (Z.shiftl (Z.land b2 maskx) 6))
                                    (Z.land b3 maskx), 4%nat)
                        end
                  end
            end
      end
  end.

(** [utf8.RuneStart(b)]: [b] is not a continuation byte. *)
Definition RuneStart (b : Z) : bool := negb (Z.land b 0xC0 =? 0x80)%Z.

(** The loop [for start--; start >= lim; start--] of [DecodeLastRune], on
    the bytes before the last one, from right to left: how many of them
    [p[start:end]] takes in, [n] being the number of steps left to [lim]. *)
Fixpoint lookBack (n : nat) (before : list ascii) {struct before} : nat :=
  match before with
  | [] => 0
  | c :: before' =>
      match n with
      | O => 1
      | S n' => if RuneStart (octet c) then 1 else S (lookBack n' before')
      end
  end.

(** [utf8.DecodeLastRune(p)]: the last rune of [p] and its width. *)
Definition DecodeLastRune (p : list ascii) : Z * nat :=
  match rev p with
  | [] => (RuneError, 0%nat)
  | c :: before =>
      if (octet c <? RuneSelf)%Z then (octet c, 1%nat)
      else
        let n := S (lookBack 3 before) in
        let '(r, size) := DecodeRune (drop (length p - n) p) in
        if negb (size =? n)%nat then (RuneError, 1%nat) else (r, size)
  end.

(** [utf8.AppendRune(nil, r)]: the bytes of rune [r], those of [RuneError]
    for a rune out of range or a surrogate. *)
Definition EncodeRune (r : Z) : list ascii :=
  if ((0 <=? r) && (r <=? 0x7F))%Z then [byte_of r]
  else if ((0 <=? r) && (r <=? 0x7FF))%Z
  then [byte_of (Z.lor 0xC0 (Z.shiftr r 6));
        byte_of (Z.lor 0x80 (Z.land r maskx))]
  else
    let r := if ((r <? 0) || (MaxRune <? r)
                 || ((0xD800 <=? r) && (r <=? 0xDFFF)))%Z
             then RuneError else r in
    if (r <=? 0xFFFF)%Z
    then [byte_of (Z.lor 0xE0 (Z.shiftr r 12));
          byte_of (Z.lor 0x80 (Z.land (Z.shiftr r 6) maskx));
          byte_of (Z.lor 0x80 (Z.land r maskx))]
    else [byte_of (Z.lor 0xF0 (Z.shiftr r 18));
          byte_of (Z.lor 0x80 (Z.land (Z.shiftr r 12) maskx));
          byte_of (Z.lor 0x80 (Z.land (Z.shiftr r 6) maskx));
          byte_of (Z.lor 0x80 (Z.land r maskx))].

End GoUtf8.

(** ** Package [unicode]: white space and lower case *)

Module GoUnicode.

Definition MaxASCII : Z := 0x7F.
Definition MaxLatin1 : Z := 0xFF.

(** [unicode.IsSpace(r)]: the white space of Latin-1 and, beyond it, that
    of the table [White_Space]. *)
Definition IsSpace (r : Z) : bool :=
  if ((0 <=? r) && (r <=? MaxLatin1))%Z
  then ((r =? 0x09) || (r =? 0x0A) || (r =? 0x0B) || (r =? 0x0C)
        || (r =? 0x0D) || (r =? 0x20) || (r =? 0x85) || (r =? 0xA0))%Z
  else ((r =? 0x1680) || ((0x2000 <=? r) && (r <=? 0x200A))
        || (r =? 0x2028) || (r =? 0x2029) || (r =? 0x202F)
        || (r =? 0x205F) || (r =? 0x3000))%Z.

(** What [unicode.CaseRanges] has for [LowerCase] beyond ASCII, from the
    Unicode Character Database, version 15.0.0: the runes [lo],
    [lo + stride], ... up to [hi] of an entry [(lo, hi, stride, delta)] have
    the lower case [r + delta]; a stride of 2 is a range in which upper and
    lower case alternate. Every other rune is its own lower case. *)
Definition lowerRanges : list (Z * Z * Z * Z) :=
  [
    (0xC0, 0xD6, 1, 32); (0xD8, 0xDE, 1, 32); (0x100, 0x12E, 2, 1);
    (0x130, 0x130, 1, (-199)); (0x132, 0x136, 2, 1); (0x139, 0x147, 2, 1);
    (0x14A, 0x176, 2, 1); (0x178, 0x178, 1, (-121)); (0x179, 0x17D, 2, 1);
    (0x181, 0x181, 1, 210); (0x182, 0x184, 2, 1); (0x186, 0x186, 1, 206);
    (0x187, 0x187, 1, 1); (0x189, 0x18A, 1, 205); (0x18B, 0x18B, 1, 1);
    (0x18E, 0x18E, 1, 79); (0x18F, 0x18F, 1, 202); (0x190, 0x190, 1, 203);
    (0x191, 0x191, 1, 1); (0x193, 0x193, 1, 205); (0x194, 0x194, 1, 207);
    (0x196, 0x196, 1, 211); (0x197, 0x197, 1, 209); (0x198, 0x198, 1, 1);
    (0x19C, 0x19C, 1, 211); (0x19D, 0x19D, 1, 213); (0x19F, 0x19F, 1, 214);
    (0x1A0, 0x1A4, 2, 1); (0x1A6, 0x1A6, 1, 218); (0x1A7, 0x1A7, 1, 1);
    (0x1A9, 0x1A9, 1, 218); (0x1AC, 0x1AC, 1, 1); (0x1AE, 0x1AE, 1, 218);
    (0x1AF, 0x1AF, 1, 1); (0x1B1, 0x1B2, 1, 217); (0x1B3, 0x1B5, 2, 1);
    (0x1B7, 0x1B7, 1, 219); (0x1B8, 0x1B8, 1, 1); (0x1BC, 0x1BC, 1, 1);
    (0x1C4, 0x1C4, 1, 2); (0x1C5, 0x1C5, 1, 1); (0x1C7, 0x1C7, 1, 2);
    (0x1C8, 0x1C8, 1, 1); (0x1CA, 0x1CA, 1, 2); (0x1CB, 0x1DB, 2, 1);
    (0x1DE, 0x1EE, 2, 1); (0x1F1, 0x1F1, 1, 2); (0x1F2, 0x1F4, 2, 1);
    (0x1F6, 0x1F6, 1, (-97)); (0x1F7, 0x1F7, 1, (-56)); (0x1F8, 0x21E, 2, 1);
    (0x220, 0x220, 1, (-130)); (0x222, 0x232, 2, 1); (0x23A, 0x23A, 1, 10795);
    (0x23B, 0x23B, 1, 1); (0x23D, 0x23D, 1, (-163)); (0x23E, 0x23E, 1, 10792);
    (0x241, 0x241, 1, 1); (0x243, 0x243, 1, (-195)); (0x244, 0x244, 1, 69);
    (0x245, 0x245, 1, 71); (0x246, 0x24E, 2, 1); (0x370, 0x372, 2, 1);
    (0x376, 0x376, 1, 1); (0x37F, 0x37F, 1, 116); (0x386, 0x386, 1, 38);
    (0x388, 0x38A, 1, 37); (0x38C, 0x38C, 1, 64); (0x38E, 0x38F, 1, 63);
    (0x391, 0x3A1, 1, 32); (0x3A3, 0x3AB, 1, 32); (0x3CF, 0x3CF, 1, 8);
    (0x3D8, 0x3EE, 2, 1); (0x3F4, 0x3F4, 1, (-60)); (0x3F7, 0x3F7, 1, 1);
    (0x3F9, 0x3F9, 1, (-7)); (0x3FA, 0x3FA, 1, 1); (0x3FD, 0x3FF, 1, (-130));
    (0x400, 0x40F, 1, 80); (0x410, 0x42F, 1, 32); (0x460, 0x480, 2, 1);
    (0x48A, 0x4BE, 2, 1); (0x4C0, 0x4C0, 1, 15); (0x4C1, 0x4CD, 2, 1);
    (0x4D0, 0x52E, 2, 1); (0x531, 0x556, 1, 48); (0x10A0, 0x10C5, 1, 7264);
    (0x10C7, 0x10C7, 1, 7264); (0x10CD, 0x10CD, 1, 7264);
    (0x13A0, 0x13EF, 1, 38864); (0x13F0, 0x13F5, 1, 8);
    (0x1C90, 0x1CBA, 1, (-3008)); (0x1CBD, 0x1CBF, 1, (-3008));
    (0x1E00, 0x1E94, 2, 1); (0x1E9E, 0x1E9E, 1, (-7615));
    (0x1EA0, 0x1EFE, 2, 1); (0x1F08, 0x1F0F, 1, (-8));
    (0x1F18, 0x1F1D, 1, (-8)); (0x1F28, 0x1F2F, 1, (-8));
    (0x1F38, 0x1F3F, 1, (-8)); (0x1F48, 0x1F4D, 1, (-8));
    (0x1F59, 0x1F5F, 2, (-8)); (0x1F68, 0x1F6F, 1, (-8));
    (0x1F88, 0x1F8F, 1, (-8)); (0x1F98, 0x1F9F, 1, (-8));
    (0x1FA8, 0x1FAF, 1, (-8)); (0x1FB8, 0x1FB9, 1, (-8));
    (0x1FBA, 0x1FBB, 1, (-74)); (0x1FBC, 0x1FBC, 1, (-9));
    (0x1FC8, 0x1FCB, 1, (-86)); (0x1FCC, 0x1FCC, 1, (-9));
    (0x1FD8, 0x1FD9, 1, (-8)); (0x1FDA, 0x1FDB, 1, (-100));
    (0x1FE8, 0x1FE9, 1, (-8)); (0x1FEA, 0x1FEB, 1, (-112));
    (0x1FEC, 0x1FEC, 1, (-7)); (0x1FF8, 0x1FF9, 1, (-128));
    (0x1FFA, 0x1FFB, 1, (-126)); (0x1FFC, 0x1FFC, 1, (-9));
    (0x2126, 0x2126, 1, (-7517)); (0x212A, 0x212A, 1, (-8383));
    (0x212B, 0x212B, 1, (-8262)); (0x2132, 0x2132, 1, 28);
    (0x2160, 0x216F, 1, 16); (0x2183, 0x2183, 1, 1); (0x24B6, 0x24CF, 1, 26);
    (0x2C00, 0x2C2F, 1, 48); (0x2C60, 0x2C60, 1, 1);
    (0x2C62, 0x2C62, 1, (-10743)); (0x2C63, 0x2C63, 1, (-3814));
    (0x2C64, 0x2C64, 1, (-10727)); (0x2C67, 0x2C6B, 2, 1);
    (0x2C6D, 0x2C6D, 1, (-10780)); (0x2C6E, 0x2C6E, 1, (-10749));
    (0x2C6F, 0x2C6F, 1, (-10783)); (0x2C70, 0x2C70, 1, (-10782));
    (0x2C72, 0x2C72, 1, 1); (0x2C75, 0x2C75, 1, 1);
    (0x2C7E, 0x2C7F, 1, (-10815)); (0x2C80, 0x2CE2, 2, 1);
    (0x2CEB, 0x2CED, 2, 1); (0x2CF2, 0x2CF2, 1, 1); (0xA640, 0xA66C, 2, 1);
    (0xA680, 0xA69A, 2, 1); (0xA722, 0xA72E, 2, 1); (0xA732, 0xA76E, 2, 1);
    (0xA779, 0xA77B, 2, 1); (0xA77D, 0xA77D, 1, (-35332));
    (0xA77E, 0xA786, 2, 1); (0xA78B, 0xA78B, 1, 1);
    (0xA78D, 0xA78D, 1, (-42280)); (0xA790, 0xA792, 2, 1);
    (0xA796, 0xA7A8, 2, 1); (0xA7AA, 0xA7AA, 1, (-42308));
    (0xA7AB, 0xA7AB, 1, (-42319)); (0xA7AC, 0xA7AC, 1, (-42315));
    (0xA7AD, 0xA7AD, 1, (-42305)); (0xA7AE, 0xA7AE, 1, (-42308));
    (0xA7B0, 0xA7B0, 1, (-42258)); (0xA7B1, 0xA7B1, 1, (-42282));
    (0xA7B2, 0xA7B2, 1, (-42261)); (0xA7B3, 0xA7B3, 1, 928);
    (0xA7B4, 0xA7C2, 2, 1); (0xA7C4, 0xA7C4, 1, (-48));
    (0xA7C5, 0xA7C5, 1, (-42307)); (0xA7C6, 0xA7C6, 1, (-35384));
    (0xA7C7, 0xA7C9, 2, 1); (0xA7D0, 0xA7D0, 1, 1); (0xA7D6, 0xA7D8, 2, 1);
    (0xA7F5, 0xA7F5, 1, 1); (0xFF21, 0xFF3A, 1, 32);
    (0x10400, 0x10427, 1, 40); (0x104B0, 0x104D3, 1, 40);
    (0x10570, 0x1057A, 1, 39); (0x1057C, 0x1058A, 1, 39);
    (0x1058C, 0x10592, 1, 39); (0x10594, 0x10595, 1, 39);
    (0x10C80, 0x10CB2, 1, 64); (0x118A0, 0x118BF, 1, 32);
    (0x16E40, 0x16E5F, 1, 32); (0x1E900, 0x1E921, 1, 34)
  ]%Z.

(** [unicode.To(LowerCase, r)] *)
Fixpoint to_lower (ranges : list (Z * Z * Z * Z)) (r : Z) : Z :=
  match ranges with
  | [] => r
  | (lo, hi, stride, delta) :: rest =>
      if ((lo <=? r) && (r <=? hi) && ((r - lo) mod stride =? 0))%Z
      then (r + delta)%Z
      else to_lower rest r
  end.

(** [unicode.ToLower(r)] *)
Definition ToLower (r : Z) : Z :=
  if (r <=? MaxASCII)%Z
  then (if ((0x41 <=? r) && (r <=? 0x5A))%Z then r + 0x20 else r)%Z
  else to_lower lowerRanges r.

End GoUnicode.

(** ** Package [strings], on bytes and on runes *)

Module GoStrings.

Import GoUtf8.

(** [s[i:]] for [0 <= i <= len(s)]. *)
Fixpoint drop_bytes (n : nat) (s : string) : string :=
  match n, s with
  | O, _ => s
  | S n', String _ s' => drop_bytes n' s'
  | S _, EmptyString => EmptyString
  end.

Definition slice_from (i : Z) (s : string) : string :=
  drop_bytes (Z.to_nat i) s.

(** [strings.Index(s, sep)] for a separator [sep] of one byte: the index of
    its first occurrence, [-1] if there is none. *)
Fixpoint Index (s : string) (sep : ascii) : Z :=
  match s with
  | EmptyString => (-1)%Z
  | String c s' =>
      if Ascii.eqb c sep then 0%Z
      else let i := Index s' sep in
           if (i =? -1)%Z then (-1)%Z else (i + 1)%Z
  end.

(** [strings.Split(s, sep)] for a separator of one byte; the result always
    has at least one element. *)
Fixpoint Split (s : string) (sep : ascii) : list string :=
  match s with
  | EmptyString => [EmptyString]
  | String c s' =>
      if Ascii.eqb c sep then EmptyString :: Split s' sep
      else match Split s' sep with
           | x :: xs => String c x :: xs
           | [] => [String c EmptyString]
           end
  end.

(** [strings.TrimLeftFunc(s, unicode.IsSpace)] on the bytes of [s]: the
    runes of white space at the beginning are dropped. *)
Fixpoint trimLeftSpace_loop (fuel : nat) (p : list ascii) : list ascii :=
  match fuel with
  | O => p
  | S fuel' =>
      let '(r, size) := DecodeRune p in
      if GoUnicode.IsSpace r then trimLeftSpace_loop fuel' (drop size p)
      else p
  end.

Definition trimLeftSpace (p : list ascii) : list ascii :=
  trimLeftSpace_loop (length p) p.

(** [strings.TrimRightFunc(s, unicode.IsSpace)] on the bytes of [s]: the
    runes of white space at the end, decoded from the end, are dropped. *)
Fixpoint trimRightSpace_loop (fuel : nat) (p : list ascii) : list ascii :=
  match fuel with
  | O => p
  | S fuel' =>
      let '(r, size) := DecodeLastRune p in
      if GoUnicode.IsSpace r
      then trimRightSpace_loop fuel' (take (length p - size) p)
      else p
  end.

Definition trimRightSpace (p : list ascii) : list ascii :=
  trimRightSpace_loop (length p) p.

(** [strings.TrimSpace(s)]: [s] without the white space, as Unicode
    defines it, at its beginning and at its end. *)
Definition TrimSpace (s : string) : string :=
  of_bytes (trimRightSpace (trimLeftSpace (bytes s))).

(** [c += 'a' - 'A'] for a byte between ['A'] and ['Z']. *)
Definition lowerByte (c : ascii) : ascii :=
  let n := nat_of_ascii c in
  if ((65 <=? n) && (n <=? 90))%nat then ascii_of_nat (n + 32) else c.

Fixpoint mapBytes (f : ascii -> ascii) (s : string) : string :=
  match s with
  | EmptyString => EmptyString
  | String c s' => String (f c) (mapBytes f s')
  end.

(** [strings.Map(mapping, s)] on the bytes of [s]: every rune of [s], an
    invalid byte being [RuneError], is replaced by the bytes of the rune
    that [mapping] gives for it, and dropped if that is negative. *)
Fixpoint Map_loop (fuel : nat) (mapping : Z -> Z) (p : list ascii)
  : list ascii :=
  match fuel with
  | O => []
  | S fuel' =>
      match p with
      | [] => []
      | _ :: _ =>
          let '(c, size) := DecodeRune p in
          let r := mapping c in
          (if (0 <=? r)%Z then EncodeRune r else [])
          ++ Map_loop fuel' mapping (drop size p)
      end
  end.

Definition Map (mapping : Z -> Z) (p : list ascii) : list ascii :=
  Map_loop (length p) mapping p.

(** All bytes of [s] are below [utf8.RuneSelf]. *)
Definition isASCII (s : string) : bool :=
  forallb (fun c => (octet c <? RuneSelf)%Z) (bytes s).

(** [strings.ToLower(s)]: byte by byte when [s] is ASCII, and else by
    [Map] with [unicode.ToLower]. *)
Definition ToLower (s : string) : string :=
  if isASCII s then mapBytes lowerByte s
  else of_bytes (Map GoUnicode.ToLower (bytes s)).

(** [strings.Join(elems, sep)] *)
Fixpoint Join (elems : list string) (sep : string) : string :=
  match elems with
  | [] => EmptyString
  | x :: rest =>
      match rest with
      | [] => x
      | _ :: _ => x ++ sep ++ Join rest sep
      end
  end.

(** The number of bytes [c] in [s], as [strings.Count] for one byte. *)
Fixpoint Count (s : string) (c : ascii) : nat :=
  match s with
  | EmptyString => 0
  | String x s' => (if Ascii.eqb x c then 1 else 0) + Count s' c
  end.

End GoStrings.

(** ** Package [net]: IP addresses as byte slices *)

Module GoNet.

(** [net.IP] is a byte slice; [None] below stands for the [nil] IP. *)
Definition IP := list byte.

Definition IPv4len : nat := 4.
Definition IPv6len : nat := 16.

Definition v4InV6Prefix : list byte :=
  [x00; x00; x00; x00; x00; x00; x00; x00; x00; x00; xff; xff].

Definition isZeros (p : list byte) : bool :=
  forallb (fun b => Byte.eqb b x00) p.

(** [ip.To4()] *)
Definition To4 (ip : IP) : option IP :=
  if (length ip =? IPv4len)%nat then Some ip
  else if ((length ip =? IPv6len)%nat
           && isZeros (take 10 ip)
           && Byte.eqb (nth 10 ip x00) xff
           && Byte.eqb (nth 11 ip x00) xff)%bool
       then Some (take 4 (drop 12 ip))
       else None.

(** [ip.To16()] *)
Definition To16 (ip : IP) : option IP :=
  if (length ip =? IPv4len)%nat then Some (v4InV6Prefix ++ ip)
  else if (length ip =? IPv6len)%nat then Some ip
  else None.

End GoNet.

(** ** Package [nftables]: what the manager uses of it *)

Module Nftables.

Inductive TableFamily :=
| TableFamilyUnspecified | TableFamilyINet | TableFamilyIPv4
| TableFamilyIPv6 | TableFamilyARP | TableFamilyNetdev | TableFamilyBridge.

(** [nftables.Table]; [TableName] is its field [Name]. *)
Record Table := { TableName : string; Family : TableFamily }.

(** [nftables.SetDatatype]: the two key types the manager tells apart, and
    any other one under its name. *)
Inductive SetDatatype :=
| TypeIPAddr
| TypeIP6Addr
| TypeOther (name : string).

(** [nftables.Set], with the fields that the manager reads; [SetTable] is
    its field [Table], which is never [nil] in a set that [GetSetByName]
    returns. *)
Record Set_ := {
  SetTable : Table;
  Name : string;
  KeyType : SetDatatype;
  HasTimeout : bool
}.

(** [nftables.SetElement], of which only [Key] is filled in. *)
Record SetElement := { Key : list byte }.

(** The calls the manager issues on its connection. *)
Inductive call :=
| GetSetByName (t : Table) (name : string)
| SetAddElements (s : Set_) (vals : list SetElement)
| Flush.

(** An error reported by the connection. *)
Definition kerror := string.

(** The kernel side of a connection: [nftables.New] succeeds or not, and
    each later call is answered from the calls issued before it. *)
Record Kernel := {
  k_New : option kerror;
  k_GetSetByName : list call -> Table -> string -> kerror + Set_;
  k_SetAddElements : list call -> Set_ -> list SetElement -> option kerror;
  k_Flush : list call -> option kerror
}.

End Nftables.

Import GoUtf8 GoStrings GoNet Nftables.

#[global] Instance TableFamily_eq_dec : EqDecision TableFamily.
Proof. solve_decision. Defined.
#[global] Instance Table_eq_dec : EqDecision Table.
Proof. solve_decision. Defined.
#[global] Instance SetDatatype_eq_dec : EqDecision SetDatatype.
Proof. solve_decision. Defined.
#[global] Instance Set_eq_dec : EqDecision Set_.
Proof. solve_decision. Defined.
#[global] Instance byte_eq_dec : EqDecision byte := Byte.byte_eq_dec.
#[global] Instance byte_countable : Countable byte :=
inj_countable Byte.to_N Byte.of_N Byte.of_to_N.
#[global] Instance SetElement_eq_dec : EqDecision SetElement.
Proof. solve_decision. Defined.
#[global] Instance call_eq_dec : EqDecision call.
Proof. solve_decision. Defined.

(** ** Package [ipset]: the manager *)

(** [ipInIpsetEntry]: an IP address in a particular ipset; [ipArr] holds the
    [net.IPv6len] bytes of the array. *)
Record ipInIpsetEntry := {
  ipsetName : string;
  ipArr : list byte
}.

#[global] Instance ipInIpsetEntry_eq_dec : EqDecision ipInIpsetEntry.
Proof. solve_decision. Defined.
#[global] Instance ipInIpsetEntry_countable : Countable ipInIpsetEntry :=
inj_countable' (fun e => (ipsetName e, ipArr e))
               (fun p => {| ipsetName := p.1; ipArr := p.2 |})
               (fun e => match e with Build_ipInIpsetEntry _ _ => eq_refl end).

(** The errors of the package, each with the arguments of its format
    string; an [error] argument is the error wrapped by [%w]. *)
Inductive error :=
| ErrConn (e : kerror)
    (* an error of the connection, as it is *)
| ErrIpset (e : error)
    (* "ipset: %w" *)
| ErrCreatingConn (e : error)
    (* "creating nftables connection: %w" *)
| ErrParsingConfig (e : error)
    (* "parsing ipset config: %w" *)
| ErrExpectedOneSlash (confStr : string)
    (* "invalid value %q: expected one slash" *)
| ErrEmptyIpsetName (confStr : string)
    (* "invalid value %q: empty ipset name" *)
| ErrConfigLine (idx : nat) (confStr : string) (e : error)
    (* "config line at idx %d(%s): %w" *)
| ErrWrongFormat (idx : nat) (confStr n : string)
    (* "parsing ipsets from config line at idx %d(l=%s,n=%s): wrong format,
       expected 4#inet#table#set" *)
| ErrOnlyIPv4 (idx : nat) (confStr n : string)
    (* "... idx %d(l=%s,n=%s): only IPv4 sets supported (4#...)" *)
| ErrOnlyInet (idx : nat) (confStr n : string)
    (* "... idx %d(l=%s,n=%s): only inet family supported" *)
| ErrGettingIpset (idx : nat) (confStr n : string) (e : error)
    (* "getting ipset from config line at idx %d(l=%s,n=%s): %w" *)
| ErrWrongType (idx : nat) (confStr n : string)
    (* "got ipset from config line at idx %d(l=%s,n=%s): wrong type,
       expected ipv4_addr" *)
| ErrAdding (host : string) (ips : list IP) (setName : string) (e : error)
    (* "adding %q%v to set %q: %w" *)
| ErrFlushing (host : string) (ips : list IP) (setName : string) (e : error)
    (* "flushing changes for %q%v to set %q: %w" *)
| ErrUnexpectedType (setName : string) (keyType : SetDatatype).
    (* "set %q has unexpected type %q" *)

(** What a function that may panic does: it returns, or it panics. *)
Inductive outcome (A : Type) :=
| Returns (a : A)
| Panics.
Arguments Returns {A} a.
Arguments Panics {A}.

(** [manager]. [conn] is the connection, seen as the calls issued on it so
    far, oldest first; the logger and the mutex have no counterpart (every
    function below runs alone, as under [mu]). *)
Record manager := {
  nameToIpset : gmap string Set_;
  domainToIpsets : gmap string (list Set_);
  conn : list call;
  addedIPs : gset ipInIpsetEntry
}.

Definition set_nameToIpset (v : gmap string Set_) (m : manager) : manager :=
  {| nameToIpset := v; domainToIpsets := domainToIpsets m;
     conn := conn m; addedIPs := addedIPs m |}.

Definition set_domainToIpsets (v : gmap string (list Set_)) (m : manager)
  : manager :=
  {| nameToIpset := nameToIpset m; domainToIpsets := v;
     conn := conn m; addedIPs := addedIPs m |}.

Definition set_addedIPs (v : gset ipInIpsetEntry) (m : manager) : manager :=
  {| nameToIpset := nameToIpset m; domainToIpsets := domainToIpsets m;
     conn := conn m; addedIPs := v |}.

(** Issuing call [c] on the connection. *)
Definition issue (c : call) (m : manager) : manager :=
  {| nameToIpset := nameToIpset m; domainToIpsets := domainToIpsets m;
     conn := conn m ++ [c]; addedIPs := addedIPs m |}.

(** [m[k]] on a map of slices: the [nil] slice when [k] is absent. *)
Definition index_slices (t : gmap string (list Set_)) (k : string)
  : list Set_ :=
  default [] (t !! k).

(** [copy(dst, src)] *)
Definition copy (dst src : list byte) : list byte :=
  take (length dst) src ++ drop (length src) dst.

(** The trimming loop over [ipsetNames] of [parseIpsetConfigLine]: [None]
    when a name is empty once trimmed. *)
Fixpoint trimIpsetNames (ipsetNames : list string) : option (list string) :=
  match ipsetNames with
  | [] => Some []
  | n :: rest =>
      let n' := TrimSpace n in
      if (String.length n' =? 0)%nat then None
      else match trimIpsetNames rest with
           | Some rest' => Some (n' :: rest')
           | None => None
           end
  end.

(** [parseIpsetConfigLine] *)
Definition parseIpsetConfigLine (confStr : string)
  : list string * list string * option error :=
  let confStr := TrimSpace confStr in
  let hostsAndNames := Split confStr "/" in
  if negb (length hostsAndNames =? 2)%nat
  then ([], [], Some (ErrExpectedOneSlash confStr))
  else
    let hosts := Split (nth 0 hostsAndNames "") "," in
    let ipsetNames := Split (nth 1 hostsAndNames "") "," in
    if (length ipsetNames =? 0)%nat then ([], [], None)
    else
      match trimIpsetNames ipsetNames with
      | None => ([], [], Some (ErrEmptyIpsetName confStr))
      | Some ipsetNames =>
          let hosts := map (fun h => ToLower (TrimSpace h)) hosts in
          (hosts, ipsetNames, None)
      end.

(** The value of an expression together with the equation that says so,
    kept for the termination proof below. *)
Definition inspect {A : Type} (a : A) : {b : A | a = b} := exist _ a eq_refl.

(** [lookupHost], as a function of the table; [i] and [host] are the
    variables of its loop, entered at [host = host[i:]]. *)
Equations? lookupHost_loop (t : gmap string (list Set_)) (i : Z)
  (host : string) : list Set_
  by wf (String.length (slice_from i host)) lt :=
lookupHost_loop t i host with index_slices t (slice_from i host) := {
  | s :: sets => s :: sets
  | [] with inspect (Index (slice_from i host) ".") := {
    | exist _ j Hj with inspect (j =? -1)%Z := {
      | exist _ true _ => index_slices t ""
      | exist _ false Hne =>
          lookupHost_loop t (j + 1) (slice_from i host) } } }.
Proof.
  clear lookupHost_loop. revert Hne.
  generalize (slice_from i host) as h. clear.
  assert (Hpos : forall h, (Index h "." =? -1)%Z = false -> (0 <= Index h ".")%Z).
  { induction h as [|c h IH]; simpl; [discriminate|].
    destruct (Ascii.eqb c "."); [lia|].
    destruct (Index h "." =? -1)%Z; [discriminate|].
    intros _. specialize (IH eq_refl). lia. }
  induction h as [|c h IH]; simpl; [discriminate|].
  unfold slice_from in *.
  destruct (Ascii.eqb c ".");
    [intros _; change (Z.to_nat (0 + 1)) with 1%nat; simpl; lia|].
  destruct (Index h "." =? -1)%Z eqn:E; [discriminate|]. intros _.
  specialize (IH eq_refl). specialize (Hpos h E).
  replace (Z.to_nat (Index h "." + 1 + 1)) with (S (Z.to_nat (Index h "." + 1)))
    by lia.
  simpl. lia.
Qed.

(** [lookupHost] *)
Definition lookupHost (m : manager) (host : string) : list Set_ :=
  lookupHost_loop (domainToIpsets m) 0 host.

(** The key of a set in [addedIPs]:
    [fmt.Sprintf("4#inet#%s#%s", set.Table.Name, set.Name)]. *)
Definition ipsetNameOf (set : Set_) : string :=
  "4#inet#" ++ TableName (SetTable set) ++ "#" ++ Name set.

(** The entry [e] that [addIPs] builds for [ip]: the name of the set and,
    copied into the zeroed array, [ip.To16()]. *)
Definition entryOf (set : Set_) (ip : IP) : ipInIpsetEntry :=
  {| ipsetName := ipsetNameOf set;
     ipArr := copy (replicate IPv6len x00) (default [] (To16 ip)) |}.

(** The manager that [newManager] builds before it parses the
    configuration: empty maps, a new connection, an empty cache. *)
Definition fresh : manager :=
  {| nameToIpset := ∅; domainToIpsets := ∅; conn := []; addedIPs := ∅ |}.

Section WithKernel.

Variable K : Kernel.

(** The body of [for _, n := range ipsetNames] in [parseIpsetConfig];
    [ipsets] is the slice built so far. *)
Definition parseIpsetConfig_name (i : nat) (confStr n : string)
  (ipsets : list Set_) (m : manager) : option error * list Set_ * manager :=
  let parts := Split n "#" in
  if negb (length parts =? 4)%nat
  then (Some (ErrWrongFormat i confStr n), ipsets, m)
  else if negb (String.eqb (nth 0 parts "") "4")
  then (Some (ErrOnlyIPv4 i confStr n), ipsets, m)
  else if negb (String.eqb (nth 1 parts "") "inet")
  then (Some (ErrOnlyInet i confStr n), ipsets, m)
  else
    let tableName := nth 2 parts "" in
    let setName := nth 3 parts "" in
    match nameToIpset m !! n with
    | Some set => (None, ipsets ++ [set], m)
    | None =>
        let tbl := {| TableName := tableName; Family := TableFamilyINet |} in
        let m1 := issue (GetSetByName tbl setName) m in
        match k_GetSetByName K (conn m) tbl setName with
        | inl err =>
            (Some (ErrGettingIpset i confStr n (ErrConn err)), ipsets, m1)
        | inr set =>
            if negb (bool_decide (KeyType set = TypeIPAddr))
            then (Some (ErrWrongType i confStr n), ipsets, m1)
            else (None, ipsets ++ [set],
                  set_nameToIpset (<[n := set]> (nameToIpset m1)) m1)
        end
    end.

(** [for _, n := range ipsetNames] *)
Fixpoint parseIpsetConfig_names (i : nat) (confStr : string)
  (ipsetNames : list string) (ipsets : list Set_) (m : manager)
  : option error * list Set_ * manager :=
  match ipsetNames with
  | [] => (None, ipsets, m)
  | n :: rest =>
      match parseIpsetConfig_name i confStr n ipsets m with
      | (Some err, ipsets', m') => (Some err, ipsets', m')
      | (None, ipsets', m') => parseIpsetConfig_names i confStr rest ipsets' m'
      end
  end.

(** [for _, host := range hosts]: the sets of the line are appended to the
    entry of every host. *)
Fixpoint parseIpsetConfig_hosts (hosts : list string) (ipsets : list Set_)
  (m : manager) : manager :=
  match hosts with
  | [] => m
  | host :: rest =>
      parseIpsetConfig_hosts rest ipsets
        (set_domainToIpsets
           (<[host := index_slices (domainToIpsets m) host ++ ipsets]>
              (domainToIpsets m)) m)
  end.

(** The body of [for i, confStr := range ipsetConf]. *)
Definition parseIpsetConfig_line (i : nat) (confStr : string) (m : manager)
  : option error * manager :=
  match parseIpsetConfigLine confStr with
  | (_, _, Some err) => (Some (ErrConfigLine i confStr err), m)
  | (hosts, ipsetNames, None) =>
      match parseIpsetConfig_names i confStr ipsetNames [] m with
      | (Some err, _, m') => (Some err, m')
      | (None, ipsets, m') => (None, parseIpsetConfig_hosts hosts ipsets m')
      end
  end.

(** [for i, confStr := range ipsetConf], from index [i] on. *)
Fixpoint parseIpsetConfig_from (i : nat) (ipsetConf : list string)
  (m : manager) : option error * manager :=
  match ipsetConf with
  | [] => (None, m)
  | confStr :: rest =>
      match parseIpsetConfig_line i confStr m with
      | (Some err, m') => (Some err, m')
      | (None, m') => parseIpsetConfig_from (S i) rest m'
      end
  end.

(** [parseIpsetConfig] *)
Definition parseIpsetConfig (ipsetConf : list string) (m : manager)
  : option error * manager :=
  parseIpsetConfig_from 0 ipsetConf m.

(** [newManager]: the manager and the error it returns and, as the calls are
    issued whether it fails or not, the calls made on the connection. *)
Definition newManager (lines : list string)
  : option manager * option error * list call :=
  match k_New K with
  | Some err => (None, Some (ErrIpset (ErrCreatingConn (ErrConn err))), [])
  | None =>
      match parseIpsetConfig lines fresh with
      | (Some err, m') =>
          (None, Some (ErrIpset (ErrParsingConfig err)), conn m')
      | (None, m') => (Some m', None, conn m')
      end
  end.

(** The first loop of [addIPs]: the elements to add and their entries. *)
Fixpoint addIPs_collect (set : Set_) (ips : list IP) (m : manager)
  : list SetElement * list ipInIpsetEntry :=
  match ips with
  | [] => ([], [])
  | ip :: rest =>
      let e := entryOf set ip in
      let '(elements, newAddedEntries) := addIPs_collect set rest m in
      if bool_decide (e ∈ addedIPs m) then (elements, newAddedEntries)
      else match To4 ip with
           | None => (elements, newAddedEntries)
           | Some ipv4 =>
               ({| Key := ipv4 |} :: elements, e :: newAddedEntries)
           end
  end.

(** The last loop of [addIPs]: the entries of sets without timeout are
    recorded; reading [HasTimeout] through the [nil] pointer that
    [nameToIpset] gives for an unknown name panics. *)
Fixpoint addIPs_record (newAddedEntries : list ipInIpsetEntry) (m : manager)
  : outcome unit * manager :=
  match newAddedEntries with
  | [] => (Returns tt, m)
  | e :: rest =>
      match nameToIpset m !! ipsetName e with
      | None => (Panics, m)
      | Some set =>
          if negb (HasTimeout set)
          then addIPs_record rest (set_addedIPs ({[e]} ∪ addedIPs m) m)
          else addIPs_record rest m
      end
  end.

(** [addIPs] *)
Definition addIPs (host : string) (set : Set_) (ips : list IP) (m : manager)
  : outcome (nat * option error) * manager :=
  if (length ips =? 0)%nat then (Returns (0%nat, None), m)
  else
    let '(elements, newAddedEntries) := addIPs_collect set ips m in
    let n := length elements in
    if (n =? 0)%nat then (Returns (0%nat, None), m)
    else
      let m1 := issue (SetAddElements set elements) m in
      match k_SetAddElements K (conn m) set elements with
      | Some err =>
          (Returns (0%nat, Some (ErrAdding host ips (Name set) (ErrConn err))),
           m1)
      | None =>
          let m2 := issue Flush m1 in
          match k_Flush K (conn m1) with
          | Some err =>
              (Returns (0%nat,
                        Some (ErrFlushing host ips (Name set) (ErrConn err))),
               m2)
          | None =>
              match addIPs_record newAddedEntries m2 with
              | (Panics, m3) => (Panics, m3)
              | (Returns _, m3) => (Returns (n, None), m3)
              end
          end
      end.

(** The loop of [addToSets]; [n] is the count so far. *)
Fixpoint addToSets_loop (host : string) (ip4s ip6s : list IP)
  (sets : list Set_) (n : nat) (m : manager)
  : outcome (nat * option error) * manager :=
  match sets with
  | [] => (Returns (n, None), m)
  | set :: rest =>
      match KeyType set with
      | TypeIPAddr =>
          match addIPs host set ip4s m with
          | (Panics, m') => (Panics, m')
          | (Returns (_, Some err), m') => (Returns (n, Some err), m')
          | (Returns (nn, None), m') =>
              addToSets_loop host ip4s ip6s rest (n + nn)%nat m'
          end
      | TypeIP6Addr => addToSets_loop host ip4s ip6s rest n m
      | TypeOther _ =>
          (Returns (n, Some (ErrUnexpectedType (Name set) (KeyType set))), m)
      end
  end.

(** [addToSets] *)
Definition addToSets (host : string) (ip4s ip6s : list IP) (sets : list Set_)
  (m : manager) : outcome (nat * option error) * manager :=
  addToSets_loop host ip4s ip6s sets 0%nat m.

(** [Add] *)
Definition Add (host : string) (ip4s ip6s : list IP) (m : manager)
  : outcome (nat * option error) * manager :=
  let sets := lookupHost m host in
  if (length sets =? 0)%nat then (Returns (0%nat, None), m)
  else addToSets host ip4s ip6s sets m.

End WithKernel.

(** ** The states of a running manager *)

(** [running K m]: [m] is the state of a manager that [newManager] returned,
    after any number of calls of [Add]. *)
Inductive running (K : Kernel) : manager -> Prop :=
| running_new lines m calls :
    newManager K lines = (Some m, None, calls) -> running K m
| running_Add m host ip4s ip6s :
    running K m -> running K (Add K host ip4s ip6s m).2.

(** ** The lookup as the design describes it *)

(** What follows each ['.'] of [host], from left to right. *)
Fixpoint labelSuffixes (host : string) : list string :=
  match host with
  | EmptyString => []
  | String c host' =>
      if Ascii.eqb c "." then host' :: labelSuffixes host'
      else labelSuffixes host'
  end.

(** The keys tried for [host]: the full name, then the name without its
    leftmost label, and so on while a ['.'] remains. *)
Definition candidates (host : string) : list string :=
  host :: labelSuffixes host.

(** The entry of the first of [keys] that is present in [t]. *)
Fixpoint first_registered (t : gmap string (list Set_)) (keys : list string)
  : option (list Set_) :=
  match keys with
  | [] => None
  | k :: rest =>
      match t !! k with
      | Some sets => Some sets
      | None => first_registered t rest
      end
  end.

(** The first match, or else the sets of the catch-all key. *)
Definition lookup_spec (t : gmap string (list Set_)) (host : string)
  : list Set_ :=
  default (index_slices t "") (first_registered t (candidates host)).

(** ** What a call of [Add] may change *)

(** [evolves m m']: [m'] has the registry and the table of [m], its
    connection has seen the calls of [m] and possibly more, and its cache has
    the entries of [m] and possibly more, each new one under the name of a
    registered set without timeout. *)
Definition evolves (m m' : manager) : Prop :=
  nameToIpset m' = nameToIpset m
  /\ domainToIpsets m' = domainToIpsets m
  /\ conn m `prefix_of` conn m'
  /\ addedIPs m ⊆ addedIPs m'
  /\ (forall e, e ∈ addedIPs m' -> e ∈ addedIPs m \/
        exists set, nameToIpset m !! ipsetName e = Some set
                    /\ HasTimeout set = false).

(** No entry of the cache is under the name of a registered set with a
    timeout. *)
Definition cache_persistent (m : manager) : Prop :=
  forall e set, e ∈ addedIPs m ->
    nameToIpset m !! ipsetName e = Some set -> HasTimeout set = false.

(** The kernel accepts the elements and the flush that follows, after
    the calls [calls]. *)
Definition accepts (K : Kernel) (calls : list call) (set : Set_)
  (elements : list SetElement) : Prop :=
  k_SetAddElements K calls set elements = None
  /\ k_Flush K (calls ++ [SetAddElements set elements]) = None.

(** ** The configuration as the design describes it *)

(** The two sides of a line around its ['/']. *)
Definition leftSide (line : string) : string := nth 0 (Split line "/") "".
Definition rightSide (line : string) : string := nth 1 (Split line "/") "".

(** A host made of white space only. *)
Definition blank (h : string) : bool :=
  (String.length (TrimSpace h) =? 0)%nat.

(** An identifier of the right side is malformed when it trims to the empty
    string, when it does not have four fields between ['#'], or when its
    first field is not ["4"] or its second not ["inet"]. *)
Definition identifier_malformed (id : string) : bool :=
  let n := TrimSpace id in
  let fields := Split n "#" in
  (String.length n =? 0)%nat
  || negb (length fields =? 4)%nat
  || negb (String.eqb (nth 0 fields "") "4")
  || negb (String.eqb (nth 1 fields "") "inet").

(** A line is malformed when it does not have exactly one ['/'] or when one
    of the identifiers of its right side is malformed. *)
Definition line_malformed (line : string) : bool :=
  negb (Count line "/" =? 1)%nat
  || existsb identifier_malformed (Split (rightSide line) ",").

(** The index and the line that an error of [parseIpsetConfig] names. *)
Definition named (e : error) : option (nat * string) :=
  match e with
  | ErrConfigLine i l _ | ErrWrongFormat i l _ | ErrOnlyIPv4 i l _
  | ErrOnlyInet i l _ | ErrGettingIpset i l _ _ | ErrWrongType i l _ =>
      Some (i, l)
  | _ => None
  end.

(** [newManager] fails with an error that names a line of the
    configuration by its index and its text. *)
Definition fails_naming_line (K : Kernel) (lines : list string) : Prop :=
  exists i line e,
    (newManager K lines).1.2 = Some (ErrIpset (ErrParsingConfig e))
    /\ named e = Some (i, line)
    /\ lines !! i = Some line.

(** ** What the parsing of the configuration registers *)

(** An identifier has the four fields ["4"], ["inet"], table and set. *)
Definition well_formed (n : string) : bool :=
  let parts := Split n "#" in
  (length parts =? 4)%nat
  && String.eqb (nth 0 parts "") "4"
  && String.eqb (nth 1 parts "") "inet".

(** The hosts and the identifiers that [parseIpsetConfigLine] gives for a
    line, and the sets that the registry of [m] has for these identifiers. *)
Definition line_hosts (line : string) : list string :=
  (parseIpsetConfigLine line).1.1.
Definition line_names (line : string) : list string :=
  (parseIpsetConfigLine line).1.2.
Definition line_sets (m : manager) (line : string) : list Set_ :=
  omap (fun n => nameToIpset m !! n) (line_names line).

(** What a line adds to the entry of domain [d]: its sets, once for each
    time [d] is among its hosts. *)
Definition contribution (m : manager) (d : string) (line : string)
  : list Set_ :=
  flat_map (fun h => if decide (h = d) then line_sets m line else [])
           (line_hosts line).

(** [registers m m']: parsing took [m] to [m']: the registry has kept
    what it had, the connection has seen the calls of [m] and possibly
    more, and the cache is the same. *)
Definition registers (m m' : manager) : Prop :=
  nameToIpset m ⊆ nameToIpset m'
  /\ conn m `prefix_of` conn m'
  /\ addedIPs m' = addedIPs m.

(** The kernel answers a query with a set that has the table and the name
    that were asked for. *)
Definition faithful (K : Kernel) : Prop :=
  forall calls t name set,
    k_GetSetByName K calls t name = inr set ->
    SetTable set = t /\ Name set = name.

(** Every set of the registry holds IPv4 addresses and is registered under
    the name that [addIPs] computes for it, and every set of the table is in
    the registry. *)
Definition registered_by_name (m : manager) : Prop :=
  (forall n set, nameToIpset m !! n = Some set ->
                 ipsetNameOf set = n /\ KeyType set = TypeIPAddr)
  /\ (forall d sets set, domainToIpsets m !! d = Some sets -> set ∈ sets ->
                         nameToIpset m !! ipsetNameOf set = Some set).

(** ** The queries of the initialisation *)

(** The query that resolves identifier [n]. *)
Definition queryOf (n : string) : call :=
  let parts := Split n "#" in
  GetSetByName {| TableName := nth 2 parts ""; Family := TableFamilyINet |}
               (nth 3 parts "").

(** The answer of the kernel to query [c], issued after [calls], is a set
    of IPv4 addresses: the set exists and has the key type required. *)
Definition answered_well (K : Kernel) (calls : list call) (c : call) : bool :=
  match c with
  | GetSetByName t name =>
      match k_GetSetByName K calls t name with
      | inr set => bool_decide (KeyType set = TypeIPAddr)
      | inl _ => false
      end
  | _ => false
  end.

(** The errors of a resolution that fails. *)
Definition resolution_error (e : error) : bool :=
  match e with
  | ErrGettingIpset _ _ _ _ | ErrWrongType _ _ _ => true
  | _ => false
  end.

(** Every call of [calls] was answered with a set of IPv4 addresses. *)
Definition well_answered (K : Kernel) (calls : list call) : Prop :=
  forall pre c post, calls = pre ++ c :: post -> answered_well K pre c = true.

(** The answer of the kernel to the query of identifier [n], issued after
    [calls]. *)
Definition answer (K : Kernel) (calls : list call) (n : string)
  : kerror + Set_ :=
  k_GetSetByName K calls
    {| TableName := nth 2 (Split n "#") ""; Family := TableFamilyINet |}
    (nth 3 (Split n "#") "").

(** The identifiers of [names] that are not in [seen], each once, in the
    order in which they come first. *)
Fixpoint distinct_from (seen : gset string) (names : list string)
  : list string :=
  match names with
  | [] => []
  | n :: rest =>
      if bool_decide (n ∈ seen) then distinct_from seen rest
      else n :: distinct_from ({[n]} ∪ seen) rest
  end.

Definition distinct (names : list string) : list string :=
  distinct_from ∅ names.

(** The identifiers of a configuration, line after line. *)
Definition identifiers (lines : list string) : list string :=
  flat_map line_names lines.

(** Every set of the registry is what the kernel answered to the query of
    its identifier. *)
Definition from_kernel (K : Kernel) (m : manager) : Prop :=
  forall n set, nameToIpset m !! n = Some set ->
    exists pre post, conn m = pre ++ queryOf n :: post
                     /\ answer K pre n = inr set.

(** The kernel gives a connection, and every set that the configuration
    refers to resolves: the query of an identifier of [lines] that has the
    four fields is answered with a set of IPv4 addresses, whenever it is
    issued. *)
Definition resolves (K : Kernel) (lines : list string) : Prop :=
  k_New K = None
  /\ forall line n calls,
       line ∈ lines -> n ∈ line_names line -> well_formed n = true ->
       answered_well K calls (queryOf n) = true.

(** The calls issued so far are the queries of registered identifiers, one
    for each, and all were answered well. *)
Definition queries_registered (K : Kernel) (m : manager) : Prop :=
  NoDup (conn m)
  /\ (forall c, c ∈ conn m ->
        exists n, c = queryOf n /\ well_formed n = true
                  /\ is_Some (nameToIpset m !! n))
  /\ well_answered K (conn m).

(** The state [m'] in which parsing ends with error [err]: after a failed
    resolution, the last call is a new query that was not answered well;
    otherwise the calls are as [queries_registered] says. *)
Definition parsed (K : Kernel) (err : option error) (m' : manager) : Prop :=
  match err with
  | Some e =>
      if resolution_error e
      then exists m0 c,
             queries_registered K m0
             /\ conn m' = conn m0 ++ [c]
             /\ (c ∉ conn m0)
             /\ (exists n, c = queryOf n)
             /\ answered_well K (conn m0) c = false
      else queries_registered K m'
  | None => queries_registered K m'
  end.

(** ** White space at the two ends of a string *)

(** [e] is the encoding of one rune of white space. *)
Definition isEnc (e : list ascii) : Prop :=
  e <> []
  /\ exists r, DecodeRune e = (r, length e) /\ GoUnicode.IsSpace r = true.

(** A continuation byte. *)
Definition cont (c : ascii) : Prop := (0x80 <= octet c <= 0xBF)%Z.

(** The width of the rune of white space that [p] begins with, and of the
    one it ends with; 0 if there is none. *)
Definition leadSpace (p : list ascii) : nat :=
  let '(r, k) := DecodeRune p in if GoUnicode.IsSpace r then k else 0%nat.

Definition trailSpace (p : list ascii) : nat :=
  let '(r, k) := DecodeLastRune p in if GoUnicode.IsSpace r then k else 0%nat.

(** Runes of white space, one after the other. *)
Inductive spaces : list ascii -> Prop :=
| spaces_nil : spaces []
| spaces_cons e w : isEnc e -> spaces w -> spaces (e ++ w).

(** [TrimSpace] at one end only. *)
Definition trimLeft (s : string) : string :=
  of_bytes (trimLeftSpace (bytes s)).
Definition trimRight (s : string) : string :=
  of_bytes (trimRightSpace (bytes s)).

(** A byte of ASCII that is not white space, as the separators [','] and
    ['/'] are. *)
Definition sepByte (c : ascii) : bool :=
  (octet c <? RuneSelf)%Z && negb (GoUnicode.IsSpace (octet c)).


(** ** Two list functions *)

(** [f] on the first element of a list, and on the last. *)
Definition map_head {A : Type} (f : A -> A) (l : list A) : list A :=
  match l with
  | [] => []
  | x :: rest => f x :: rest
  end.

Fixpoint map_last {A : Type} (f : A -> A) (l : list A) : list A :=
  match l with
  | [] => []
  | x :: rest =>
      match rest with
      | [] => [f x]
      | _ :: _ => x :: map_last f rest
      end
  end.

(** ** A configuration to run *)

(** A kernel in which every set exists and holds IPv4 addresses; the set
    ["tmpSet"] has a timeout. Every call succeeds. *)
Definition example_kernel : Kernel :=
  {| k_New := None;
     k_GetSetByName := fun _ t name =>
       inr {| SetTable := t; Name := name; KeyType := TypeIPAddr;
              HasTimeout := bool_decide (name = "tmpSet") |};
     k_SetAddElements := fun _ _ _ => None;
     k_Flush := fun _ => None |}.

(** The same kernel, except that it refuses every flush after the first. *)
Definition flaky_kernel : Kernel :=
  {| k_New := None;
     k_GetSetByName := k_GetSetByName example_kernel;
     k_SetAddElements := fun _ _ _ => None;
     k_Flush := fun calls =>
       if bool_decide (Flush ∈ calls) then Some "flush refused" else None |}.

(** A kernel with no set at all. *)
Definition kernel_without_sets : Kernel :=
  {| k_New := None;
     k_GetSetByName := fun _ _ _ => inl "no such set";
     k_SetAddElements := fun _ _ _ => None;
     k_Flush := fun _ => None |}.

(** A kernel that has the set ["s"] of table ["t"] and no other. *)
Definition kernel_with_one_set : Kernel :=
  {| k_New := None;
     k_GetSetByName := fun _ t name =>
       if bool_decide (t = {| TableName := "t"; Family := TableFamilyINet |}
                       /\ name = "s")
       then inr {| SetTable := t; Name := name; KeyType := TypeIPAddr;
                   HasTimeout := false |}
       else inl "no such set";
     k_SetAddElements := fun _ _ _ => None;
     k_Flush := fun _ => None |}.

(** A configuration of which that kernel has the first set only. *)
Definition failing_lines : list string :=
  ["a.example/4#inet#t#s"; "b.example/4#inet#t#s,4#inet#t#u";
   "c.example/4#inet#t#v"].

Definition failing_calls : list call :=
  [GetSetByName {| TableName := "t"; Family := TableFamilyINet |} "s";
   GetSetByName {| TableName := "t"; Family := TableFamilyINet |} "u"].

Definition myTable : Table :=
  {| TableName := "myTable"; Family := TableFamilyINet |}.

Definition mySet : Set_ :=
  {| SetTable := myTable; Name := "mySet";
     KeyType := TypeIPAddr; HasTimeout := false |}.

Definition otherSet : Set_ :=
  {| SetTable := myTable; Name := "otherSet";
     KeyType := TypeIPAddr; HasTimeout := false |}.

Definition tmpSet : Set_ :=
  {| SetTable := myTable; Name := "tmpSet";
     KeyType := TypeIPAddr; HasTimeout := true |}.

Definition v6Set : Set_ :=
  {| SetTable := myTable; Name := "v6Set";
     KeyType := TypeIP6Addr; HasTimeout := false |}.

Definition example_lines : list string :=
  ["example.com,example.net/4#inet#myTable#mySet";
   "a.example.com/4#inet#myTable#tmpSet";
   "example.biz/4#inet#myTable#mySet,4#inet#myTable#otherSet"].

(** A configuration that names two domains on two lines each. *)
Definition additive_lines : list string :=
  ["example.com/4#inet#myTable#mySet";
   "example.org/4#inet#myTable#tmpSet";
   "example.com,example.org/4#inet#myTable#otherSet"].

(** The encodings of U+00A0, a white space that is not of ASCII, and of
    the letter U+00C9 and its lower case U+00E9. *)
Definition nbsp : string :=
  String (ascii_of_nat 194) (String (ascii_of_nat 160) EmptyString).
Definition E_acute : string :=
  String (ascii_of_nat 195) (String (ascii_of_nat 137) EmptyString).
Definition e_acute : string :=
  String (ascii_of_nat 195) (String (ascii_of_nat 169) EmptyString).

Definition catch_all_lines : list string :=
  [",example.com/4#inet#t#s"].

(** The manager that [newManager] gives for [lines], if it gives one. *)
Definition managerOf (K : Kernel) (lines : list string) : manager :=
  match newManager K lines with
  | (Some m, _, _) => m
  | _ => fresh
  end.

Definition example_manager : manager := managerOf example_kernel example_lines.

Definition flaky_manager : manager := managerOf flaky_kernel example_lines.

(** A manager put together by hand, as a test would, with a set of IPv6
    addresses that [newManager] would refuse. *)
Definition v6_manager : manager :=
  {| nameToIpset := {[ "4#inet#myTable#v6Set" := v6Set ]};
     domainToIpsets := {[ "example.org" := [v6Set] ]};
     conn := [];
     addedIPs := ∅ |}.

(** The table of the benchmark of [lookupHost]: a catch-all entry and an
    entry for ["example.net"]. *)
Definition benchmark_manager : manager :=
  {| nameToIpset := ∅;
     domainToIpsets := {[ "" := [mySet]; "example.net" := [otherSet] ]};
     conn := [];
     addedIPs := ∅ |}.

Definition ip_1_2_3_4 : IP := [x01; x02; x03; x04].

Definition ip_v6 : IP :=
  [x12; x34; x00; x00; x00; x00; x00; x00;
   x00; x00; x00; x00; x00; x00; x56; x78].

(** ** What [Add] sends to the kernel *)

(** The calls of a batch that went through: the elements of a set, then
    the flush. *)
Definition batch_calls (b : Set_ * list SetElement) : list call :=
  [SetAddElements b.1 b.2; Flush].

(** Entry [e] was sent: the connection has seen a batch for a set of the
    name of [e] with the 4 bytes of the address of [e] among its keys,
    followed by a flush, and the kernel accepted both. *)
Definition sent (K : Kernel) (m : manager) (e : ipInIpsetEntry) : Prop :=
  exists pre set elements post key,
    conn m = pre ++ SetAddElements set elements :: Flush :: post
    /\ accepts K pre set elements
    /\ ipsetNameOf set = ipsetName e
    /\ {| Key := key |} ∈ elements
    /\ ipArr e = v4InV6Prefix ++ key.

(** ** Names *)

(** The last byte of a name, if it has one. *)
Fixpoint lastByte (s : string) : option ascii :=
  match s with
  | EmptyString => None
  | String c s' =>
      match s' with
      | EmptyString => Some c
      | String _ _ => lastByte s'
      end
  end.

(** ** Package [home]: the token file of the GL-Inet mode *)

(** [encoding/binary]: the two byte orders; [native.Endian] is the one of
    the machine the program is built for. *)
Inductive ByteOrder := LittleEndian | BigEndian.

(** [uint32(b)] for a byte [b]. *)
Definition byteVal (b : byte) : Z := Z.of_N (Byte.to_N b).

(** [order.Uint32(b)] on the four bytes of [b]. *)
Definition Uint32 (order : ByteOrder) (b0 b1 b2 b3 : byte) : Z :=
  match order with
  | LittleEndian =>
      Z.lor (Z.lor (Z.lor (byteVal b0) (Z.shiftl (byteVal b1) 8))
                   (Z.shiftl (byteVal b2) 16))
            (Z.shiftl (byteVal b3) 24)
  | BigEndian =>
      Z.lor (Z.lor (Z.lor (byteVal b3) (Z.shiftl (byteVal b2) 8))
                   (Z.shiftl (byteVal b1) 16))
            (Z.shiftl (byteVal b0) 24)
  end.

(** What [os.Open] and the reads of [io.ReadAll] give for a path: an error
    of [os.Open], an error of a read, or the content of the file. *)
Inductive file :=
| OpenFails
| ReadFails
| Holds (content : list byte).

(** [MaxFileSize] *)
Definition MaxFileSize : Z := 1024 * 1024.

(** [glGetTokenDate], its messages to the log left out. The reader of
    [ioutil.LimitReader] fails once [MaxFileSize] bytes were read from it,
    so a file is read to its end when it is shorter than that;
    [binary.Read] fails on fewer than 4 bytes and leaves what follows the
    first 4 unread. *)
Definition glGetTokenDate (order : ByteOrder) (fs : string -> file)
  (path : string) : Z :=
  match fs path with
  | OpenFails => 0
  | ReadFails => 0
  | Holds bs =>
      if (MaxFileSize <=? Z.of_nat (length bs))%Z then 0%Z
      else match bs with
           | b0 :: b1 :: b2 :: b3 :: _ => Uint32 order b0 b1 b2 b3
           | _ => 0%Z
           end
  end.

(** [byte(v)] for an unsigned [v]: its lowest 8 bits. *)
Definition byteOf (v : Z) : byte :=
  default Byte.x00 (Byte.of_N (Z.to_N (Z.land v 255))).

(** [order.PutUint32(b, v)], as the 4 bytes written: what a writer of the
    token file on the same machine puts into it. *)
Definition PutUint32 (order : ByteOrder) (v : Z) : list byte :=
  match order with
  | LittleEndian =>
      [byteOf v; byteOf (Z.shiftr v 8); byteOf (Z.shiftr v 16);
       byteOf (Z.shiftr v 24)]
  | BigEndian =>
      [byteOf (Z.shiftr v 24); byteOf (Z.shiftr v 16); byteOf (Z.shiftr v 8);
       byteOf v]
  end.

(** * Properties *)

(** ** Strings *)

Section Strings.

Implicit Types (s : string) (c : ascii).

Lemma Split_not_nil s c : Split s c <> [].
Proof.
  destruct s as [|x s]; simpl; [done|].
  destruct (Ascii.eqb x c); [done|]. by destruct (Split s c).
Qed.

Lemma Split_cons_inv s c : exists x xs, Split s c = x :: xs.
Proof.
  pose proof (Split_not_nil s c). destruct (Split s c); [done|eauto].
Qed.

Lemma Split_empty_inv s c : Split s c = [""] -> s = "".
Proof.
  destruct s as [|x s]; simpl; [done|].
  destruct (Ascii.eqb x c); [|by destruct (Split s c)].
  intros H. injection H as H. by destruct (Split_not_nil s c).
Qed.

Lemma Join_Split s c : Join (Split s c) (String c "") = s.
Proof.
  induction s as [|x s IH]; simpl; [done|].
  destruct (Ascii.eqb_spec x c) as [->|Hne].
  - destruct (Split_cons_inv s c) as (y & ys & E). rewrite E in *.
    simpl in *. by rewrite IH.
  - destruct (Split_cons_inv s c) as (y & ys & E). rewrite E in *.
    destruct ys; simpl in *; by rewrite <- IH.
Qed.

Lemma Split_inj s1 s2 c : Split s1 c = Split s2 c -> s1 = s2.
Proof.
  intros H. by rewrite <- (Join_Split s1 c), <- (Join_Split s2 c), H.
Qed.

Lemma Split_length s c : length (Split s c) = S (Count s c).
Proof.
  induction s as [|x s IH]; simpl; [done|].
  destruct (Ascii.eqb x c); simpl; [by rewrite IH|].
  destruct (Split_cons_inv s c) as (y & ys & E). rewrite E in *. done.
Qed.

Lemma map_last_not_nil {A} (f : A -> A) (l : list A) :
  l <> [] -> map_last f l <> [].
Proof. destruct l as [|x [|y l]]; done. Qed.

Lemma map_last_length {A} (f : A -> A) (l : list A) :
  length (map_last f l) = length l.
Proof.
  induction l as [|x [|y l] IH]; simpl in *; [done..|]. by rewrite IH.
Qed.

Lemma map_map_head {A B} (f : A -> B) (g : A -> A) (l : list A) :
  (forall x, f (g x) = f x) -> map f (map_head g l) = map f l.
Proof. intros H. destruct l; simpl; [done|]. by rewrite H. Qed.

Lemma map_map_last {A B} (f : A -> B) (g : A -> A) (l : list A) :
  (forall x, f (g x) = f x) -> map f (map_last g l) = map f l.
Proof.
  intros H. induction l as [|x [|y l] IH]; simpl in *; [done| |].
  - by rewrite H.
  - by rewrite IH.
Qed.

End Strings.

(** ** Runes of white space *)

Section Utf8.

Import GoUnicode.
Implicit Types (p e w t u : list ascii) (c : ascii).

Lemma octet_range c : (0 <= octet c < 256)%Z.
Proof. unfold octet. pose proof (N_ascii_bounded c). lia. Qed.

Lemma RuneStart_cont c :
  RuneStart (octet c) = negb ((0x80 <=? octet c) && (octet c <=? 0xBF))%Z.
Proof. destruct c as [[] [] [] [] [] [] [] []]; reflexivity. Qed.

Lemma cont_not_start c : cont c -> RuneStart (octet c) = false.
Proof.
  intros [H1 H2]. rewrite RuneStart_cont.
  apply Z.leb_le in H1, H2. by rewrite H1, H2.
Qed.

Lemma not_cont_start c :
  (octet c < 0x80 \/ 0xC0 <= octet c)%Z -> RuneStart (octet c) = true.
Proof.
  intros H. rewrite RuneStart_cont.
  destruct (Z.leb_spec 0x80 (octet c)), (Z.leb_spec (octet c) 0xBF); simpl; lia.
Qed.

Ltac split_ifs H :=
  repeat match type of H with
         | context [if ?b then _ else _] => destruct b eqn:?
         end.

Ltac use_conds :=
  repeat match goal with
         | E : ?b = _ |- context [?b] => rewrite E
         end.

Lemma DecodeRune_shape p r k :
  DecodeRune p = (r, k) -> r <> RuneError ->
  exists c0 cs rest,
    p = c0 :: cs ++ rest /\ k = S (length cs) /\ (length cs <= 3)%nat
    /\ Forall cont cs
    /\ (cs = [] -> (octet c0 < 0x80)%Z /\ r = octet c0)
    /\ (cs <> [] -> (0xC2 <= octet c0)%Z)
    /\ forall rest', DecodeRune (c0 :: cs ++ rest') = (r, k).
Proof.
  intros H Hr.
  destruct p as [|c0 p1]; [by injection H as <- _|].
  cbn [DecodeRune] in H. unfold first in H. cbv zeta in H.
  pose proof (octet_range c0) as R0.
  destruct (octet c0 <? 0x80)%Z eqn:E0.
  { injection H as <- <-. exists c0, [], p1.
    split; [done|]. split; [done|]. split; [simpl; lia|]. split; [constructor|].
    split; [intros _; split; [lia|done]|]. split; [done|].
    intros rest'. cbn [DecodeRune app]. unfold first. cbv zeta. by rewrite E0. }
  destruct p1 as [|c1 p2].
  { split_ifs H; by injection H as <- _. }
  destruct p2 as [|c2 p3].
  { split_ifs H; try (by injection H as <- _).
    all: injection H as <- <-; exists c0, [c1], [].
    all: split; [done|]; split; [done|]; split; [simpl; lia|].
    all: split; [constructor; [unfold cont; unfold locb, hicb in *; lia|constructor]|].
    all: split; [done|]; split; [intros _; lia|].
    all: intros rest'; cbn [DecodeRune app length]; unfold first; cbv zeta;
      use_conds; reflexivity. }
  destruct p3 as [|c3 p4].
  { split_ifs H; try (by injection H as <- _).
    all: injection H as <- <-.
    all: first
      [ exists c0, [c1], [c2];
        split; [done|]; split; [done|]; split; [simpl; lia|];
        split; [constructor; [unfold cont; unfold locb, hicb in *; lia|constructor]|];
        split; [done|]; split; [intros _; lia|];
        intros rest'; cbn [DecodeRune app length]; unfold first; cbv zeta;
        use_conds; reflexivity
      | exists c0, [c1; c2], [];
        split; [done|]; split; [done|]; split; [simpl; lia|];
        split; [repeat constructor; unfold cont; unfold locb, hicb in *; lia|];
        split; [done|]; split; [intros _; lia|];
        intros rest'; cbn [DecodeRune app length]; unfold first; cbv zeta;
        use_conds; reflexivity ]. }
  split_ifs H; try (by injection H as <- _).
  all: injection H as <- <-.
  all: first
    [ exists c0, [c1], (c2 :: c3 :: p4);
      split; [done|]; split; [done|]; split; [simpl; lia|];
      split; [constructor; [unfold cont; unfold locb, hicb in *; lia|constructor]|];
      split; [done|]; split; [intros _; lia|];
      intros rest'; cbn [DecodeRune app length]; unfold first; cbv zeta;
      use_conds; reflexivity
    | exists c0, [c1; c2], (c3 :: p4);
      split; [done|]; split; [done|]; split; [simpl; lia|];
      split; [repeat constructor; unfold cont; unfold locb, hicb in *; lia|];
      split; [done|]; split; [intros _; lia|];
      intros rest'; cbn [DecodeRune app length]; unfold first; cbv zeta;
      use_conds; reflexivity
    | exists c0, [c1; c2; c3], p4;
      split; [done|]; split; [done|]; split; [simpl; lia|];
      split; [repeat constructor; unfold cont; unfold locb, hicb in *; lia|];
      split; [done|]; split; [intros _; lia|];
      intros rest'; cbn [DecodeRune app length]; unfold first; cbv zeta;
      use_conds; reflexivity ].
Qed.

Lemma IsSpace_not_error r : IsSpace r = true -> r <> RuneError.
Proof. by intros H ->. Qed.

Lemma isEnc_shape e :
  isEnc e ->
  exists c0 cs,
    e = c0 :: cs /\ (length cs <= 3)%nat /\ Forall cont cs
    /\ (cs = [] -> (octet c0 < 0x80)%Z /\ IsSpace (octet c0) = true)
    /\ (cs <> [] -> (0xC2 <= octet c0)%Z)
    /\ forall rest, exists r,
         DecodeRune (e ++ rest) = (r, length e) /\ IsSpace r = true.
Proof.
  intros (Hne & r & Hd & Hs).
  destruct (DecodeRune_shape _ _ _ Hd (IsSpace_not_error _ Hs))
    as (c0 & cs & rest & -> & Hk & Hl & Hc & H1 & H2 & H3).
  assert (rest = []) as ->.
  { simpl in Hk. rewrite length_app in Hk. destruct rest; [done|simpl in Hk; lia]. }
  rewrite app_nil_r in *. exists c0, cs.
  split; [done|]. split; [done|]. split; [done|]. split; [|split; [done|]].
  - intros ->. destruct (H1 eq_refl) as [Ha Hr]. split; [done|]. by rewrite <- Hr.
  - intros rest. exists r. rewrite Hk in H3. by rewrite <- app_comm_cons, H3.
Qed.

Lemma isEnc_length e : isEnc e -> (1 <= length e <= 4)%nat.
Proof.
  intros (c0 & cs & -> & Hl & _)%isEnc_shape. simpl. lia.
Qed.

Lemma DecodeRune_space p r k :
  DecodeRune p = (r, k) -> IsSpace r = true ->
  exists e rest, p = e ++ rest /\ isEnc e /\ length e = k.
Proof.
  intros Hd Hs.
  destruct (DecodeRune_shape _ _ _ Hd (IsSpace_not_error _ Hs))
    as (c0 & cs & rest & -> & Hk & Hl & Hc & H1 & H2 & H3).
  exists (c0 :: cs), rest. split; [done|]. split; [|by rewrite Hk].
  split; [done|]. exists r. specialize (H3 []). rewrite app_nil_r in H3.
  by rewrite H3, Hk.
Qed.

Lemma leadSpace_enc e rest : isEnc e -> leadSpace (e ++ rest) = length e.
Proof.
  intros (c0 & cs & -> & _ & _ & _ & _ & H)%isEnc_shape.
  destruct (H rest) as (r & Hd & Hs). unfold leadSpace. by rewrite Hd, Hs.
Qed.

Lemma leadSpace_pos p k :
  leadSpace p = S k ->
  exists e rest, p = e ++ rest /\ isEnc e /\ length e = S k.
Proof.
  unfold leadSpace. destruct (DecodeRune p) as [r k'] eqn:Hd.
  destruct (IsSpace r) eqn:Hs; [|done]. intros ->.
  by eapply DecodeRune_space.
Qed.

Lemma leadSpace_nil : leadSpace [] = 0%nat.
Proof. reflexivity. Qed.

Lemma leadSpace_le p : (leadSpace p <= length p)%nat.
Proof.
  destruct (leadSpace p) as [|k] eqn:E; [lia|].
  apply leadSpace_pos in E as (e & rest & -> & _ & <-).
  rewrite length_app. lia.
Qed.

Lemma lookBack_le n before : (lookBack n before <= length before)%nat.
Proof.
  revert n. induction before as [|c b IH]; intros n; simpl; [lia|].
  destruct n; [lia|]. destruct (RuneStart (octet c)); [lia|].
  specialize (IH n). lia.
Qed.

Lemma lookBack_conts n l c0 q :
  Forall cont l -> (length l <= n)%nat -> RuneStart (octet c0) = true ->
  lookBack n (l ++ c0 :: q) = S (length l).
Proof.
  intros Hl. revert n. induction Hl as [|x l Hx _ IH]; intros n Hn Hs; simpl.
  - destruct n; [done|]. by rewrite Hs.
  - destruct n; [simpl in Hn; lia|]. rewrite (cont_not_start _ Hx).
    rewrite IH; [done|simpl in Hn; lia|done].
Qed.

Lemma DecodeRune_ascii c rest :
  (octet c < 0x80)%Z -> DecodeRune (c :: rest) = (octet c, 1%nat).
Proof.
  intros H. cbn [DecodeRune]. unfold first. cbv zeta.
  destruct (Z.ltb_spec (octet c) 0x80); [done|lia].
Qed.

Lemma trailSpace_enc p e : isEnc e -> trailSpace (p ++ e) = length e.
Proof.
  intros He. pose proof He as (c0 & cs & -> & Hl & Hc & H1 & H2 & H3)%isEnc_shape.
  unfold trailSpace, DecodeLastRune.
  destruct cs as [|x cs _] using rev_ind.
  - destruct (H1 eq_refl) as [Ha Hs].
    rewrite rev_app_distr. simpl.
    unfold RuneSelf. destruct (Z.ltb_spec (octet c0) 0x80); [|lia].
    by rewrite Hs.
  - rewrite rev_app_distr. simpl. rewrite rev_app_distr. simpl.
    apply Forall_app in Hc as [Hc Hx]. apply Forall_inv in Hx.
    unfold RuneSelf. destruct (Z.ltb_spec (octet x) 0x80) as [Hlt|_];
      [unfold cont in Hx; lia|].
    rewrite length_app in Hl. simpl in Hl.
    rewrite <- app_assoc. simpl.
    rewrite lookBack_conts.
    + rewrite length_rev.
      replace (length (p ++ c0 :: cs ++ [x]) - S (S (length cs)))%nat
        with (length p)
        by (rewrite length_app; simpl; rewrite length_app; simpl; lia).
      rewrite drop_app_length.
      destruct (H3 []) as (r & Hd & Hs). rewrite app_nil_r in Hd.
      rewrite Hd. simpl. rewrite length_app. simpl.
      replace (length cs + 1)%nat with (S (length cs)) by lia.
      rewrite Nat.eqb_refl. simpl. by rewrite Hs.
    + by apply Forall_rev.
    + rewrite length_rev. lia.
    + apply not_cont_start. right.
      assert (cs ++ [x] <> []) as Hne by (by destruct cs).
      specialize (H2 Hne). lia.
Qed.

Lemma trailSpace_pos p k :
  trailSpace p = S k ->
  exists p0 e, p = p0 ++ e /\ isEnc e /\ length e = S k.
Proof.
  unfold trailSpace, DecodeLastRune.
  destruct (rev p) as [|c before] eqn:E; [done|].
  assert (Hp : p = rev before ++ [c]).
  { rewrite <- (rev_involutive p), E. done. }
  destruct (Z.ltb_spec (octet c) RuneSelf) as [Hlt|Hge].
  - destruct (IsSpace (octet c)) eqn:Hs; [|done]. intros [= <-].
    exists (rev before), [c]. split; [done|]. split; [|done].
    split; [done|]. exists (octet c). by rewrite DecodeRune_ascii.
  - set (n := S (lookBack 3 before)).
    assert (Hn : (n <= length p)%nat).
    { subst n. rewrite Hp, length_app, length_rev. simpl.
      pose proof (lookBack_le 3 before). lia. }
    destruct (DecodeRune (drop (length p - n) p)) as [r size] eqn:Hd.
    destruct (size =? n)%nat eqn:Hsz; simpl; [|done].
    apply Nat.eqb_eq in Hsz. subst size.
    destruct (IsSpace r) eqn:Hs; [|done]. intros Hk.
    exists (take (length p - n) p), (drop (length p - n) p).
    split; [by rewrite take_drop|].
    assert (Hlen : length (drop (length p - n) p) = n).
    { rewrite length_drop. lia. }
    split; [|congruence]. split.
    + intros H0. rewrite H0 in Hlen. simpl in Hlen. subst n. lia.
    + exists r. by rewrite Hlen.
Qed.

Lemma trailSpace_nil : trailSpace [] = 0%nat.
Proof. reflexivity. Qed.

(** Concatenations of space runes *)

Lemma spaces_app w1 w2 : spaces w1 -> spaces w2 -> spaces (w1 ++ w2).
Proof.
  induction 1 as [|e w He _ IH]; intros H2; [done|].
  rewrite <- app_assoc. constructor; [done|by apply IH].
Qed.

Lemma spaces_one e : isEnc e -> spaces e.
Proof. intros He. rewrite <- (app_nil_r e). by constructor; [|constructor]. Qed.

Lemma spaces_snoc_inv w :
  spaces w -> w <> [] -> exists w' e, w = w' ++ e /\ spaces w' /\ isEnc e.
Proof.
  induction 1 as [|e w He Hw IH]; [done|]. intros _.
  destruct w as [|x w0].
  - exists [], e. rewrite app_nil_r. split; [done|]. split; [constructor|done].
  - destruct IH as (w' & e' & Heq & Hw' & He'); [done|].
    exists (e ++ w'), e'. rewrite Heq, app_assoc. split; [done|].
    split; [|done]. by constructor.
Qed.

Lemma spaces_lead w : spaces w -> w <> [] -> leadSpace w <> 0%nat.
Proof.
  destruct 1 as [|e w He Hw]; [done|]. intros _.
  rewrite leadSpace_enc by done. pose proof (isEnc_length e He). lia.
Qed.

Lemma DecodeLastRune_size_0 p r : DecodeLastRune p = (r, 0%nat) -> r = RuneError.
Proof.
  unfold DecodeLastRune. destruct (rev p) as [|c b]; [by intros [= <-]|].
  destruct (octet c <? RuneSelf)%Z; [done|].
  destruct (DecodeRune _) as [r' sz].
  destruct (sz =? S (lookBack 3 b))%nat eqn:E; simpl; [|done].
  apply Nat.eqb_eq in E. intros [= _ ->]. done.
Qed.

(** What the trimming loops compute *)

Lemma trimLeftSpace_loop_dec fuel p :
  (length p <= fuel)%nat ->
  exists w, p = w ++ trimLeftSpace_loop fuel p /\ spaces w
            /\ leadSpace (trimLeftSpace_loop fuel p) = 0%nat.
Proof.
  revert p. induction fuel as [|fuel IH]; intros p Hp; simpl.
  - destruct p; [|simpl in Hp; lia]. exists []. split; [done|]. split; [constructor|done].
  - destruct (DecodeRune p) as [r k] eqn:Hd.
    destruct (IsSpace r) eqn:Hs.
    + destruct (DecodeRune_space _ _ _ Hd Hs) as (e & rest & -> & He & <-).
      rewrite drop_app_length.
      pose proof (isEnc_length e He).
      destruct (IH rest) as (w & Hw & Hsp & Hl).
      { rewrite length_app in Hp. lia. }
      exists (e ++ w). rewrite <- app_assoc, <- Hw.
      split; [done|]. split; [by constructor|done].
    + exists []. split; [done|]. split; [constructor|].
      unfold leadSpace. by rewrite Hd, Hs.
Qed.

Lemma trimLeftSpace_loop_uniq w t fuel :
  spaces w -> leadSpace t = 0%nat -> (length (w ++ t) <= fuel)%nat ->
  trimLeftSpace_loop fuel (w ++ t) = t.
Proof.
  intros Hw Ht. revert fuel. induction Hw as [|e w He _ IH]; intros fuel Hf.
  - simpl. destruct fuel; [done|]. simpl.
    unfold leadSpace in Ht. destruct (DecodeRune t) as [r k] eqn:Hd.
    destruct (IsSpace r) eqn:Hs; [|done].
    destruct (DecodeRune_space _ _ _ Hd Hs) as (e & rest & _ & He & Hl).
    pose proof (isEnc_length e He). lia.
  - pose proof (isEnc_length e He) as Hlen.
    rewrite <- app_assoc in *. rewrite length_app in Hf.
    destruct fuel as [|fuel]; [lia|]. simpl.
    pose proof He as (c0 & cs & _ & _ & _ & _ & _ & H)%isEnc_shape.
    destruct (H (w ++ t)) as (r & -> & ->). rewrite drop_app_length.
    apply IH. lia.
Qed.

Lemma trimLeftSpace_dec p :
  exists w, p = w ++ trimLeftSpace p /\ spaces w
            /\ leadSpace (trimLeftSpace p) = 0%nat.
Proof. by apply trimLeftSpace_loop_dec. Qed.

Lemma trimLeftSpace_uniq w t :
  spaces w -> leadSpace t = 0%nat -> trimLeftSpace (w ++ t) = t.
Proof. intros. by apply trimLeftSpace_loop_uniq. Qed.

Lemma trimRightSpace_loop_dec fuel p :
  (length p <= fuel)%nat ->
  exists w, p = trimRightSpace_loop fuel p ++ w /\ spaces w
            /\ trailSpace (trimRightSpace_loop fuel p) = 0%nat.
Proof.
  revert p. induction fuel as [|fuel IH]; intros p Hp; simpl.
  - destruct p; [|simpl in Hp; lia]. exists []. split; [done|]. split; [constructor|done].
  - destruct (DecodeLastRune p) as [r k] eqn:Hd.
    destruct (IsSpace r) eqn:Hs.
    + assert (Ht : trailSpace p = k) by (unfold trailSpace; by rewrite Hd, Hs).
      destruct k as [|k].
      { rewrite (DecodeLastRune_size_0 _ _ Hd) in Hs. done. }
      destruct (trailSpace_pos _ _ Ht) as (p0 & e & -> & He & Hl).
      rewrite length_app, Hl.
      replace (length p0 + S k - S k)%nat with (length p0) by lia.
      rewrite take_app_length.
      destruct (IH p0) as (w & Hw & Hsp & Hz).
      { rewrite length_app in Hp. lia. }
      exists (w ++ e). rewrite app_assoc, <- Hw.
      split; [done|]. split; [|done]. apply spaces_app; [done|by apply spaces_one].
    + exists []. rewrite app_nil_r. split; [done|]. split; [constructor|].
      unfold trailSpace. by rewrite Hd, Hs.
Qed.

Lemma spaces_snoc w e : spaces w -> isEnc e -> spaces (w ++ e).
Proof. intros. apply spaces_app; [done|by apply spaces_one]. Qed.

Lemma spaces_rev_ind (P : list ascii -> Prop) :
  P [] -> (forall w e, spaces w -> isEnc e -> P w -> P (w ++ e)) ->
  forall w, spaces w -> P w.
Proof.
  intros H0 Hs w Hw.
  remember (length w) as n eqn:Hn. revert w Hw Hn.
  induction n as [n IH] using lt_wf_ind. intros w Hw Hn.
  destruct w as [|x w0]; [done|].
  destruct (spaces_snoc_inv _ Hw) as (w' & e & Heq & Hw' & He); [done|].
  rewrite Heq. apply Hs; [done..|].
  apply (IH (length w')); [|done..].
  rewrite Hn, Heq, length_app. pose proof (isEnc_length e He). lia.
Qed.

Lemma trimRightSpace_loop_uniq w t fuel :
  spaces w -> trailSpace t = 0%nat -> (length (t ++ w) <= fuel)%nat ->
  trimRightSpace_loop fuel (t ++ w) = t.
Proof.
  intros Hw Ht. revert fuel.
  induction Hw as [|w e Hw He IH] using spaces_rev_ind; intros fuel Hf.
  - rewrite app_nil_r. destruct fuel; [done|]. simpl.
    unfold trailSpace in Ht. destruct (DecodeLastRune t) as [r k] eqn:Hd.
    destruct (IsSpace r) eqn:Hs; [|done]. subst k.
    rewrite (DecodeLastRune_size_0 _ _ Hd) in Hs. done.
  - pose proof (isEnc_length e He) as Hlen.
    rewrite app_assoc in *. rewrite length_app in Hf.
    destruct fuel as [|fuel]; [lia|]. simpl.
    pose proof (trailSpace_enc (t ++ w) e He) as Hts.
    unfold trailSpace in Hts.
    destruct (DecodeLastRune ((t ++ w) ++ e)) as [r k].
    destruct (IsSpace r); [|lia]. subst k.
    rewrite length_app.
    replace (length (t ++ w) + length e - length e)%nat with (length (t ++ w))
      by lia.
    rewrite take_app_length. apply IH. lia.
Qed.

Lemma trimRightSpace_dec p :
  exists w, p = trimRightSpace p ++ w /\ spaces w
            /\ trailSpace (trimRightSpace p) = 0%nat.
Proof. by apply trimRightSpace_loop_dec. Qed.

Lemma trimRightSpace_uniq w t :
  spaces w -> trailSpace t = 0%nat -> trimRightSpace (t ++ w) = t.
Proof. intros. by apply trimRightSpace_loop_uniq. Qed.

(** Trimming twice, and from both ends *)

Lemma trimLeftSpace_idemp p : trimLeftSpace (trimLeftSpace p) = trimLeftSpace p.
Proof.
  destruct (trimLeftSpace_dec p) as (w & _ & _ & H).
  by apply (trimLeftSpace_uniq []); [constructor|].
Qed.

Lemma trimRightSpace_idemp p :
  trimRightSpace (trimRightSpace p) = trimRightSpace p.
Proof.
  destruct (trimRightSpace_dec p) as (w & _ & _ & H).
  rewrite <- (app_nil_r (trimRightSpace p)) at 1.
  by apply trimRightSpace_uniq; [constructor|].
Qed.

(** The last byte that starts a rune is where the last rune starts. *)
Lemma last_start_unique (x y l1 l2 : list ascii) (a b : ascii) :
  x ++ a :: l1 = y ++ b :: l2 ->
  Forall cont l1 -> Forall cont l2 ->
  RuneStart (octet a) = true -> RuneStart (octet b) = true ->
  x = y /\ a = b /\ l1 = l2.
Proof.
  intros Heq H1 H2 Ha Hb.
  assert (Hrev : rev l1 ++ a :: rev x = rev l2 ++ b :: rev y).
  { apply (f_equal (@rev ascii)) in Heq.
    rewrite !rev_app_distr in Heq. simpl in Heq.
    by rewrite <- !app_assoc in Heq. }
  apply Forall_rev in H1, H2.
  assert (H : rev l1 = rev l2 /\ a = b /\ rev x = rev y).
  { clear Heq. revert Hrev H1 H2. generalize (rev l1) (rev l2) (rev x) (rev y).
    intros k1. induction k1 as [|c k1 IH]; intros k2 x' y' Hrev H1 H2.
    - destruct k2 as [|d k2]; simpl in Hrev.
      + by injection Hrev as -> ->.
      + injection Hrev as -> _. apply Forall_inv in H2.
        rewrite (cont_not_start _ H2) in Ha. done.
    - destruct k2 as [|d k2]; simpl in Hrev.
      + injection Hrev as -> _. apply Forall_inv in H1.
        rewrite (cont_not_start _ H1) in Hb. done.
      + injection Hrev as -> Hrev. apply Forall_inv_tail in H1, H2.
        destruct (IH _ _ _ Hrev H1 H2) as (-> & -> & ->). done. }
  destruct H as (Hl & -> & Hx).
  apply (f_equal (@rev ascii)) in Hl, Hx. rewrite !rev_involutive in Hl, Hx.
  by subst.
Qed.

Lemma isEnc_start e :
  isEnc e -> exists c0 cs, e = c0 :: cs /\ Forall cont cs
                           /\ RuneStart (octet c0) = true.
Proof.
  intros (c0 & cs & -> & _ & Hc & H1 & H2 & _)%isEnc_shape.
  exists c0, cs. split; [done|]. split; [done|]. apply not_cont_start.
  destruct cs; [left; by apply H1|right]. assert (0xC2 <= octet c0)%Z by (by apply H2). lia.
Qed.

(** After space runes, a string that does not end with one does not either. *)
Lemma trailSpace_after_spaces w u :
  spaces w -> u <> [] -> trailSpace u = 0%nat -> trailSpace (w ++ u) = 0%nat.
Proof.
  intros Hw Hu Ht. destruct (trailSpace (w ++ u)) as [|k] eqn:E; [done|].
  exfalso. apply trailSpace_pos in E as (p0 & e & Heq & He & Hl).
  pose proof (isEnc_length e He) as Hlen.
  apply app_eq_app in Heq as [x [[Hw' He']|[-> ->]]].
  - (* [e] begins in [w] *)
    destruct x as [|x0 x'].
    { simpl in He'. subst u. pose proof (trailSpace_enc [] e He) as H.
      simpl in H. lia. }
    subst w.
    destruct (spaces_snoc_inv (p0 ++ x0 :: x') Hw) as (w' & f & Hwf & _ & Hf);
      [by destruct p0|].
    destruct (isEnc_start e He) as (c0 & cs & Ee & Hcs & Hc0).
    destruct (isEnc_start f Hf) as (d0 & ds & Ef & Hds & Hd0).
    (* [x0 :: x'] is a beginning of [e], hence starts with [c0] *)
    rewrite Ee in He'. simpl in He'. injection He' as <- Hcs'.
    subst f. subst cs. apply Forall_app in Hcs as [Hx' Hu0].
    destruct (last_start_unique _ _ _ _ _ _ Hwf Hx' Hds Hc0 Hd0)
      as (_ & <- & <-).
    (* the run [c0 :: x'] is a rune, and so is [c0 :: x' ++ u] *)
    pose proof (leadSpace_enc (c0 :: x') u Hf) as H1.
    rewrite Ee in He.
    pose proof (leadSpace_enc (c0 :: x' ++ u) [] He) as H2.
    rewrite app_nil_r in H2. simpl in H1, H2. rewrite H1 in H2.
    rewrite length_app in H2. destruct u; [done|simpl in H2; lia].
  - (* [e] lies in [u] *)
    rewrite (trailSpace_enc x e He) in Ht. lia.
Qed.

Lemma leadSpace_prefix u w :
  u <> [] -> leadSpace (u ++ w) = 0%nat -> leadSpace u = 0%nat.
Proof.
  intros Hu H. destruct (leadSpace u) as [|k] eqn:E; [done|].
  apply leadSpace_pos in E as (e & rest & -> & He & Hl).
  rewrite <- app_assoc, leadSpace_enc in H by done. lia.
Qed.

Lemma trailSpace_suffix p u :
  trailSpace (p ++ u) = 0%nat -> trailSpace u = 0%nat.
Proof.
  intros H. destruct (trailSpace u) as [|k] eqn:E; [done|].
  apply trailSpace_pos in E as (p0 & e & -> & He & Hl).
  rewrite app_assoc, trailSpace_enc in H by done. lia.
Qed.

Lemma trimLeft_trimRight p :
  trimLeftSpace (trimRightSpace p) = trimRightSpace (trimLeftSpace p).
Proof.
  destruct (trimLeftSpace_dec p) as (w & Hp & Hw & Hl).
  destruct (trimRightSpace_dec (trimLeftSpace p)) as (w' & Ht & Hw' & Hr).
  remember (trimLeftSpace p) as t eqn:Et.
  remember (trimRightSpace t) as u eqn:Eu.
  destruct (decide (u = [])) as [->|Hu].
  - (* [t] is made of space runes and does not begin with one *)
    simpl in Ht. assert (t = []) as ->.
    { destruct t as [|t0 t']; [done|]. rewrite Ht in Hl.
      destruct (spaces_lead w' Hw'); [by rewrite <- Ht|done]. }
    rewrite app_nil_r in Hp. subst p.
    pose proof (trimRightSpace_uniq w [] Hw trailSpace_nil) as H.
    simpl in H. by rewrite H.
  - rewrite Hp, Ht, app_assoc.
    rewrite (trimRightSpace_uniq w' (w ++ u) Hw'
               (trailSpace_after_spaces w u Hw Hu Hr)).
    apply trimLeftSpace_uniq; [done|].
    apply (leadSpace_prefix u w'); [done|]. by rewrite <- Ht.
Qed.

End Utf8.

(** ** Trimming *)

Section Trimming.

Import GoUnicode.
Implicit Types (s a b x : string) (c : ascii) (w t : list ascii).

#[local] Abbreviation s2l := bytes.
#[local] Abbreviation l2s := of_bytes.

Lemma s2l_app a b : s2l (a +:+ b) = s2l a ++ s2l b.
Proof. induction a as [|x a IH]; simpl; [done|]. by rewrite IH. Qed.

Lemma l2s_app w t : l2s (w ++ t) = l2s w +:+ l2s t.
Proof. induction w as [|x w IH]; simpl; [done|]. by rewrite IH. Qed.

Lemma s2l_l2s w : s2l (l2s w) = w.
Proof. apply list_ascii_of_string_of_list_ascii. Qed.

Lemma l2s_s2l s : l2s (s2l s) = s.
Proof. apply string_of_list_ascii_of_string. Qed.

Lemma TrimSpace_sides s : TrimSpace s = trimRight (trimLeft s).
Proof. unfold TrimSpace, trimRight, trimLeft. by rewrite s2l_l2s. Qed.

Lemma trimLeft_idemp s : trimLeft (trimLeft s) = trimLeft s.
Proof. unfold trimLeft. by rewrite s2l_l2s, trimLeftSpace_idemp. Qed.

Lemma trimRight_idemp s : trimRight (trimRight s) = trimRight s.
Proof. unfold trimRight. by rewrite s2l_l2s, trimRightSpace_idemp. Qed.

Lemma trimLeft_trimRight_comm s : trimLeft (trimRight s) = trimRight (trimLeft s).
Proof. unfold trimLeft, trimRight. by rewrite !s2l_l2s, trimLeft_trimRight. Qed.

Lemma TrimSpace_trimLeft s : TrimSpace (trimLeft s) = TrimSpace s.
Proof. by rewrite !TrimSpace_sides, trimLeft_idemp. Qed.

Lemma TrimSpace_trimRight s : TrimSpace (trimRight s) = TrimSpace s.
Proof.
  by rewrite !TrimSpace_sides, trimLeft_trimRight_comm, trimRight_idemp.
Qed.

Lemma TrimSpace_idemp s : TrimSpace (TrimSpace s) = TrimSpace s.
Proof.
  rewrite (TrimSpace_sides s) at 1. by rewrite TrimSpace_trimRight, TrimSpace_trimLeft.
Qed.

(** Space runes have no byte of a separator. *)
Lemma isEnc_no_sep e c : isEnc e -> sepByte c = true -> Count (l2s e) c = 0%nat.
Proof.
  intros (c0 & cs & -> & _ & Hc & H1 & H2 & _)%isEnc_shape Hsep.
  apply andb_prop in Hsep as [Ha Hs]. apply Z.ltb_lt in Ha. unfold RuneSelf in Ha.
  apply negb_true_iff in Hs.
  assert (Hcs : Count (l2s cs) c = 0%nat).
  { clear -Hc Ha. induction Hc as [|x cs Hx _ IH]; [done|]. simpl.
    destruct (Ascii.eqb_spec x c) as [->|_]; [unfold cont in Hx; lia|done]. }
  simpl. rewrite Hcs. destruct (Ascii.eqb_spec c0 c) as [->|_]; [|done].
  destruct cs as [|x cs].
  - destruct (H1 eq_refl) as [_ Hsp]. congruence.
  - assert (0xC2 <= octet c)%Z by (by apply H2). lia.
Qed.

Lemma Count_app a b c : Count (a +:+ b) c = (Count a c + Count b c)%nat.
Proof. induction a as [|x a IH]; simpl; [done|]. rewrite IH. lia. Qed.

Lemma spaces_no_sep w c : spaces w -> sepByte c = true -> Count (l2s w) c = 0%nat.
Proof.
  intros Hw Hc. induction Hw as [|e w He _ IH]; [done|].
  by rewrite l2s_app, Count_app, IH, (isEnc_no_sep e c).
Qed.

Lemma Split_no_sep a c : Count a c = 0%nat -> Split a c = [a].
Proof.
  induction a as [|x a IH]; simpl; [done|].
  destruct (Ascii.eqb x c); [done|]. simpl. intros H. by rewrite (IH H).
Qed.

Lemma Split_app_nosep_l a b c :
  Count a c = 0%nat -> Split (a +:+ b) c = map_head (append a) (Split b c).
Proof.
  destruct (Split_cons_inv b c) as (y & ys & E).
  induction a as [|x a IH].
  - intros _. change ("" +:+ b) with b. by rewrite E.
  - change (String x a +:+ b) with (String x (a +:+ b)). simpl.
    destruct (Ascii.eqb x c); [done|]. simpl. intros H. rewrite (IH H), E.
    done.
Qed.

Lemma Split_app_nosep_r a b c :
  Count b c = 0%nat ->
  Split (a +:+ b) c = map_last (fun x => x +:+ b) (Split a c).
Proof.
  intros Hb. induction a as [|x a IH].
  - change ("" +:+ b) with b. by rewrite Split_no_sep.
  - change (String x a +:+ b) with (String x (a +:+ b)). simpl.
    rewrite IH. destruct (Split_cons_inv a c) as (y & ys & E). rewrite E.
    destruct (Ascii.eqb x c); [done|]. by destruct ys.
Qed.

Lemma Split_head_prefix s c x xs :
  Split s c = x :: xs -> exists rest, s = x +:+ rest.
Proof.
  revert x xs. induction s as [|y s IH]; intros x xs; simpl.
  - intros [= <- _]. by exists "".
  - destruct (Ascii.eqb y c).
    + intros [= <- _]. by exists (String y s).
    + destruct (Split_cons_inv s c) as (z & zs & E). rewrite E.
      intros [= <- _]. destruct (IH _ _ E) as (rest & ->). by exists rest.
Qed.

Lemma append_assoc' a b x : (a +:+ b) +:+ x = a +:+ (b +:+ x).
Proof.
  induction a as [|y a IH]; [done|].
  change (String y (a +:+ b) +:+ x = String y (a +:+ (b +:+ x))).
  change (String y ((a +:+ b) +:+ x) = String y (a +:+ (b +:+ x))).
  by rewrite IH.
Qed.

Lemma Join_cons x (l : list string) sep :
  l <> [] -> Join (x :: l) sep = x +:+ sep +:+ Join l sep.
Proof. by destruct l. Qed.

Lemma Join_snoc_suffix (init : list string) y sep :
  exists p, Join (init ++ [y]) sep = p +:+ y.
Proof.
  induction init as [|x init [p IH]]; [by exists ""|].
  exists (x +:+ sep +:+ p).
  rewrite <- app_comm_cons, Join_cons by (by destruct init).
  by rewrite IH, !append_assoc'.
Qed.

Lemma Split_last_suffix s c init y :
  Split s c = init ++ [y] -> exists p, s = p +:+ y.
Proof.
  intros H. destruct (Join_snoc_suffix init y (String c "")) as [p Hp].
  exists p. by rewrite <- Hp, <- H, Join_Split.
Qed.

Lemma map_last_snoc {A} (f : A -> A) (init : list A) (y : A) :
  map_last f (init ++ [y]) = init ++ [f y].
Proof.
  induction init as [|x init IH]; [done|].
  rewrite <- !app_comm_cons. cbn [map_last]. rewrite IH.
  by destruct init.
Qed.

Lemma Split_trimLeft s c :
  sepByte c = true -> Split (trimLeft s) c = map_head trimLeft (Split s c).
Proof.
  intros Hc. unfold trimLeft at 1.
  destruct (trimLeftSpace_dec (s2l s)) as (w & Hs & Hw & Hl).
  set (t := trimLeftSpace (s2l s)) in *.
  assert (Es : s = l2s w +:+ l2s t) by (by rewrite <- l2s_app, <- Hs, l2s_s2l).
  rewrite Es at 1.
  rewrite (Split_app_nosep_l _ _ _ (spaces_no_sep w c Hw Hc)).
  destruct (Split_cons_inv (l2s t) c) as (x & xs & E). rewrite E. simpl.
  f_equal. unfold trimLeft. rewrite s2l_app, s2l_l2s.
  destruct (Split_head_prefix _ _ _ _ E) as (rest & Hx).
  rewrite trimLeftSpace_uniq; [by rewrite l2s_s2l|done|].
  apply (f_equal s2l) in Hx. rewrite s2l_l2s, s2l_app in Hx.
  destruct (s2l x) as [|x0 x'] eqn:Ex; [done|].
  apply (leadSpace_prefix _ (s2l rest)); [done|]. by rewrite <- Hx.
Qed.

Lemma Split_trimRight s c :
  sepByte c = true -> Split (trimRight s) c = map_last trimRight (Split s c).
Proof.
  intros Hc. unfold trimRight at 1.
  destruct (trimRightSpace_dec (s2l s)) as (w & Hs & Hw & Hr).
  set (t := trimRightSpace (s2l s)) in *.
  assert (Es : s = l2s t +:+ l2s w) by (by rewrite <- l2s_app, <- Hs, l2s_s2l).
  rewrite Es at 1.
  rewrite (Split_app_nosep_r _ _ _ (spaces_no_sep w c Hw Hc)).
  destruct (Split (l2s t) c) as [|z zs] eqn:E using rev_ind;
    [by destruct (Split_not_nil (l2s t) c)|]. clear IHzs.
  rewrite !map_last_snoc. f_equal. f_equal.
  unfold trimRight. rewrite s2l_app, s2l_l2s.
  destruct (Split_last_suffix _ _ _ _ E) as (p & Hp).
  rewrite trimRightSpace_uniq; [by rewrite l2s_s2l|done|].
  apply (f_equal s2l) in Hp. rewrite s2l_l2s, s2l_app in Hp.
  apply (trailSpace_suffix (s2l p)). by rewrite <- Hp.
Qed.

End Trimming.

(** ** The lookup *)

Section Lookup.

Implicit Types (t : gmap string (list Set_)) (host h : string).

Lemma lookupHost_loop_body t i host :
  lookupHost_loop t i host =
  let h := slice_from i host in
  match index_slices t h with
  | s :: sets => s :: sets
  | [] =>
      let j := Index h "." in
      if (j =? -1)%Z then index_slices t ""
      else lookupHost_loop t (j + 1) h
  end.
Proof.
  apply (lookupHost_loop_elim
           (fun t i host r =>
              r = let h := slice_from i host in
                  match index_slices t h with
                  | s :: sets => s :: sets
                  | [] =>
                      let j := Index h "." in
                      if (j =? -1)%Z then index_slices t ""
                      else lookupHost_loop t (j + 1) h
                  end)); clear; cbn zeta.
  - intros t i host s sets E. rewrite E. reflexivity.
  - intros t i host j He Hj _ _ E. rewrite E. rewrite Hj. rewrite He. reflexivity.
  - intros t i host j Hne Hj _ _ _ E. rewrite E, Hj, Hne. reflexivity.
Qed.

Lemma Index_nonneg h c : (Index h c =? -1)%Z = false -> (0 <= Index h c)%Z.
Proof.
  induction h as [|x h IH]; simpl; [discriminate|].
  destruct (Ascii.eqb x c); [lia|].
  destruct (Index h c =? -1)%Z; [discriminate|]. intros _.
  specialize (IH eq_refl). lia.
Qed.

Lemma labelSuffixes_no_dot h :
  (Index h "." =? -1)%Z = true -> labelSuffixes h = [].
Proof.
  induction h as [|x h IH]; simpl; [reflexivity|].
  destruct (Ascii.eqb x "."); [discriminate|].
  destruct (Index h "." =? -1)%Z eqn:E; [auto|].
  pose proof (Index_nonneg _ _ E). lia.
Qed.

Lemma labelSuffixes_dot h :
  (Index h "." =? -1)%Z = false ->
  labelSuffixes h = candidates (slice_from (Index h "." + 1) h).
Proof.
  unfold candidates, slice_from.
  induction h as [|x h IH]; simpl; [discriminate|].
  destruct (Ascii.eqb x "."); [reflexivity|].
  destruct (Index h "." =? -1)%Z eqn:E; [discriminate|]. intros _.
  pose proof (Index_nonneg _ _ E).
  replace (Z.to_nat (Index h "." + 1 + 1)) with (S (Z.to_nat (Index h "." + 1)))
    by lia.
  simpl. auto.
Qed.

Lemma index_slices_cons t k s sets :
  index_slices t k = s :: sets -> t !! k = Some (s :: sets).
Proof. unfold index_slices. destruct (t !! k); simpl; congruence. Qed.

Lemma index_slices_nil t k :
  map_Forall (fun _ sets => sets <> []) t ->
  index_slices t k = [] -> t !! k = None.
Proof.
  unfold index_slices. intros Hne. destruct (t !! k) as [sets|] eqn:E; [|done].
  simpl. intros ->. by destruct (Hne _ _ E).
Qed.

Lemma lookupHost_loop_spec t i host :
  map_Forall (fun _ sets => sets <> []) t ->
  lookupHost_loop t i host = lookup_spec t (slice_from i host).
Proof.
  intros Hne. revert t i host Hne.
  apply (lookupHost_loop_elim
           (fun t i host r =>
              map_Forall (fun _ sets => sets <> []) t ->
              r = lookup_spec t (slice_from i host))); clear.
  - intros t i host s sets E _. apply index_slices_cons in E.
    unfold lookup_spec, candidates. simpl. by rewrite E.
  - intros t i host j Hj Hi _ _ E Hne. apply index_slices_nil in E; [|done].
    unfold lookup_spec, candidates. simpl. rewrite E.
    subst j. by rewrite labelSuffixes_no_dot.
  - intros t i host j Hj Hi IH _ _ E Hne. apply index_slices_nil in E; [|done].
    rewrite (IH Hne). subst j.
    unfold lookup_spec at 2. unfold candidates at 1.
    cbn [first_registered]. rewrite E. by rewrite labelSuffixes_dot.
Qed.

(** Without a registered candidate and without a catch-all entry, the
    lookup gives no set. *)
Lemma lookupHost_loop_unregistered t i host :
  first_registered t (candidates (slice_from i host)) = None ->
  t !! "" = None ->
  lookupHost_loop t i host = [].
Proof.
  revert t i host.
  apply (lookupHost_loop_elim
           (fun t i host r =>
              first_registered t (candidates (slice_from i host)) = None ->
              t !! "" = None -> r = [])); clear.
  - intros t i host s sets E Hnone _. apply index_slices_cons in E.
    unfold candidates in Hnone. simpl in Hnone. by rewrite E in Hnone.
  - intros t i host j Hj Hi _ _ E _ Hempty. unfold index_slices.
    by rewrite Hempty.
  - intros t i host j Hj Hi IH _ _ E Hnone Hempty. apply IH; [|done].
    subst j. unfold candidates in Hnone. cbn [first_registered] in Hnone.
    destruct (t !! slice_from i host); [done|].
    by rewrite labelSuffixes_dot in Hnone.
Qed.

(** What the lookup gives is an entry of the table, or nothing. *)
Lemma lookupHost_loop_entry t i host :
  lookupHost_loop t i host = []
  \/ exists k, t !! k = Some (lookupHost_loop t i host).
Proof.
  revert t i host.
  apply (lookupHost_loop_elim
           (fun t i host r => r = [] \/ exists k, t !! k = Some r)); clear.
  - intros t i host s sets E. apply index_slices_cons in E. eauto.
  - intros t i host j Hj Hi _ _ E. unfold index_slices.
    destruct (t !! "") as [sets|] eqn:Ee; simpl; eauto.
  - intros t i host j Hj Hi IH _ _ E. exact IH.
Qed.

End Lookup.

(** C2. [lookupHost] tries the full name and then, from left to right, what
    follows each ['.'] of it, and returns the entry of the first of these
    keys that is registered or else the entry of the catch-all key [""]
    (the [nil] slice when there is none); entries are never merged. With
    ["a.example.com"] and ["example.com"] registered with different lists,
    the lookup of ["x.a.example.com"] gives the list of ["a.example.com"]
    and not that of ["example.com"]. *)
Theorem lookupHost_first_match (m : manager) :
  map_Forall (fun _ sets => sets <> []) (domainToIpsets m) ->
  (forall host, lookupHost m host = lookup_spec (domainToIpsets m) host)
  /\ (forall l1 l2,
        domainToIpsets m !! "x.a.example.com" = None ->
        domainToIpsets m !! "a.example.com" = Some l1 ->
        domainToIpsets m !! "example.com" = Some l2 ->
        l1 <> l2 ->
        lookupHost m "x.a.example.com" = l1
        /\ lookupHost m "x.a.example.com" <> l2).
Proof.
  intros Hne.
  assert (H : forall host, lookupHost m host = lookup_spec (domainToIpsets m) host).
  { intros host. unfold lookupHost. by rewrite lookupHost_loop_spec. }
  split; [exact H|].
  intros l1 l2 Hx Ha He Hd. rewrite H.
  unfold lookup_spec, candidates. cbn [labelSuffixes Ascii.eqb Bool.eqb first_registered].
  rewrite Hx, Ha. simpl. done.
Qed.

(** C7. When the lookup of the host gives no set, [Add] returns [(0, nil)]
    and leaves the manager as it is: no call is issued on the connection
    and the cache of added addresses is unchanged. *)
Theorem Add_unregistered (K : Kernel) (m : manager) (host : string)
  (ip4s ip6s : list IP) :
  lookupHost m host = [] ->
  Add K host ip4s ip6s m = (Returns (0%nat, None), m).
Proof. intros H. unfold Add. by rewrite H. Qed.

(** ** Adding addresses *)

Section Adding.

Variable K : Kernel.

Lemma evolves_refl m : evolves m m.
Proof. unfold evolves. set_solver. Qed.

Lemma evolves_trans m1 m2 m3 : evolves m1 m2 -> evolves m2 m3 -> evolves m1 m3.
Proof.
  intros (Hn & Hd & Hc & Ha & Hnew) (Hn' & Hd' & Hc' & Ha' & Hnew').
  repeat split; try congruence.
  - by etrans.
  - set_solver.
  - intros e He. destruct (Hnew' e He) as [H|H]; [by apply Hnew|].
    right. by rewrite <- Hn.
Qed.

Lemma evolves_issue m c : evolves m (issue c m).
Proof.
  unfold evolves; simpl. repeat split; try set_solver.
  by apply prefix_app_r.
Qed.

Lemma evolves_cache_persistent m m' :
  evolves m m' -> cache_persistent m -> cache_persistent m'.
Proof.
  intros (Hn & _ & _ & _ & Hnew) Hm e set He Hset.
  rewrite Hn in Hset. destruct (Hnew e He) as [H|(set' & H1 & H2)].
  - by apply (Hm e).
  - congruence.
Qed.

(** The recording loop, when the entries are all under a registered name. *)
Lemma addIPs_record_registered entries m nm set :
  Forall (fun e => ipsetName e = nm) entries ->
  nameToIpset m !! nm = Some set ->
  addIPs_record entries m =
  (Returns (),
   if HasTimeout set then m
   else set_addedIPs (list_to_set entries ∪ addedIPs m) m).
Proof.
  intros Hall. revert m. induction Hall as [|e entries He Hall IH]; intros m Hset.
  - simpl. destruct (HasTimeout set); [done|].
    destruct m; unfold set_addedIPs; simpl. f_equal. f_equal. set_solver.
  - simpl. rewrite He, Hset. destruct (HasTimeout set) eqn:Ht; simpl.
    + by rewrite (IH m Hset).
    + rewrite (IH (set_addedIPs ({[e]} ∪ addedIPs m) m) Hset).
      unfold set_addedIPs; simpl.
      f_equal. f_equal. set_solver.
Qed.

(** An unknown name makes it panic at the first entry. *)
Lemma addIPs_record_unknown e entries m :
  nameToIpset m !! ipsetName e = None ->
  addIPs_record (e :: entries) m = (Panics, m).
Proof. intros H. simpl. by rewrite H. Qed.

Lemma addIPs_record_evolves entries m :
  evolves m (addIPs_record entries m).2.
Proof.
  revert m. induction entries as [|e entries IH]; intros m; simpl.
  - apply evolves_refl.
  - destruct (nameToIpset m !! ipsetName e) as [set|] eqn:E;
      [|apply evolves_refl].
    destruct (HasTimeout set) eqn:Ht; simpl; [apply IH|].
    eapply evolves_trans; [|apply IH].
    unfold evolves; simpl. repeat split; set_solver.
Qed.

Lemma addIPs_collect_name set ips m :
  Forall (fun e => ipsetName e = ipsetNameOf set) (addIPs_collect set ips m).2.
Proof.
  induction ips as [|ip ips IH]; simpl; [constructor|].
  destruct (addIPs_collect set ips m) as [elements entries]. simpl in *.
  case_bool_decide; [done|]. destruct (To4 ip); [|done].
  simpl. by constructor.
Qed.

Lemma addIPs_collect_fresh set ips m :
  Forall (fun e => e ∉ addedIPs m) (addIPs_collect set ips m).2.
Proof.
  induction ips as [|ip ips IH]; simpl; [constructor|].
  destruct (addIPs_collect set ips m) as [elements entries]. simpl in *.
  case_bool_decide; [done|]. destruct (To4 ip); [|done].
  simpl. by constructor.
Qed.

Lemma addIPs_collect_length set ips m :
  length (addIPs_collect set ips m).1 = length (addIPs_collect set ips m).2.
Proof.
  induction ips as [|ip ips IH]; simpl; [done|].
  destruct (addIPs_collect set ips m) as [elements entries]. simpl in *.
  case_bool_decide; [done|]. destruct (To4 ip); [|done].
  simpl. by f_equal.
Qed.

Lemma addIPs_evolves host set ips m :
  evolves m (addIPs K host set ips m).2.
Proof.
  unfold addIPs. destruct (length ips =? 0)%nat; [apply evolves_refl|].
  destruct (addIPs_collect set ips m) as [elements entries].
  destruct (length elements =? 0)%nat; [apply evolves_refl|].
  destruct (k_SetAddElements K (conn m) set elements); simpl;
    [apply evolves_issue|].
  destruct (k_Flush K _); simpl.
  { eapply evolves_trans; apply evolves_issue. }
  pose proof (addIPs_record_evolves entries
                (issue Flush (issue (SetAddElements set elements) m))) as H.
  destruct (addIPs_record entries _) as [[|] m3]; simpl in *;
    (eapply evolves_trans; [|exact H]);
    (eapply evolves_trans; apply evolves_issue).
Qed.

Lemma addToSets_loop_evolves host ip4s ip6s sets n m :
  evolves m (addToSets_loop K host ip4s ip6s sets n m).2.
Proof.
  revert n m. induction sets as [|set sets IH]; intros n m; simpl.
  - apply evolves_refl.
  - destruct (KeyType set); [|apply IH|apply evolves_refl].
    pose proof (addIPs_evolves host set ip4s m) as H.
    destruct (addIPs K host set ip4s m) as [[[nn [err|]]|] m']; simpl in *;
      try done.
    eapply evolves_trans; [exact H|apply IH].
Qed.

Lemma Add_evolves host ip4s ip6s m :
  evolves m (Add K host ip4s ip6s m).2.
Proof.
  unfold Add. destruct (length (lookupHost m host) =? 0)%nat;
    [apply evolves_refl|apply addToSets_loop_evolves].
Qed.

(** The loop of [addToSets] over a list in two parts. *)
Lemma addToSets_loop_app host ip4s ip6s pre post n m :
  addToSets_loop K host ip4s ip6s (pre ++ post) n m =
  match addToSets_loop K host ip4s ip6s pre n m with
  | (Returns (n', None), m') => addToSets_loop K host ip4s ip6s post n' m'
  | stopped => stopped
  end.
Proof.
  revert n m. induction pre as [|set pre IH]; intros n m; simpl; [done|].
  destruct (KeyType set); [|apply IH|done].
  destruct (addIPs K host set ip4s m) as [[[nn [err|]]|] m']; auto.
Qed.

End Adding.

Lemma lookupHost_evolves m m' host :
  evolves m m' -> lookupHost m' host = lookupHost m host.
Proof. intros (_ & Hd & _). unfold lookupHost. by rewrite Hd. Qed.

(** [addIPs] for one address that is new to a registered set. *)
Lemma addIPs_one_new K host set set' ip ipv4 m :
  nameToIpset m !! ipsetNameOf set = Some set' ->
  To4 ip = Some ipv4 ->
  entryOf set ip ∉ addedIPs m ->
  accepts K (conn m) set [{| Key := ipv4 |}] ->
  addIPs K host set [ip] m =
  (Returns (1%nat, None),
   let m2 := issue Flush (issue (SetAddElements set [{| Key := ipv4 |}]) m) in
   if HasTimeout set' then m2
   else set_addedIPs ({[entryOf set ip]} ∪ addedIPs m) m2).
Proof.
  intros Hreg H4 Hnew [Hadd Hflush]. unfold addIPs.
  cbn [length Nat.eqb addIPs_collect].
  rewrite bool_decide_eq_false_2 by done. rewrite H4.
  cbn [length Nat.eqb]. rewrite Hadd. cbn [issue conn]. rewrite Hflush.
  rewrite (addIPs_record_registered _ _ (ipsetNameOf set) set');
    [|by repeat constructor|done].
  destruct (HasTimeout set'); [done|].
  cbn zeta. do 2 f_equal. set_solver.
Qed.

(** [addIPs] for one address that the cache has. *)
Lemma addIPs_one_cached K host set ip m :
  entryOf set ip ∈ addedIPs m ->
  addIPs K host set [ip] m = (Returns (0%nat, None), m).
Proof.
  intros Hin. unfold addIPs. simpl. by rewrite bool_decide_eq_true_2.
Qed.


(** C3. When the sets before [set] in the list of the host have been
    completed with count [n], leaving the manager in [m1], and the kernel
    refuses the elements of [set] or the flush that follows them, [Add]
    returns [n] together with that error, wrapped, and stops: the sets after
    [set] are not looked at. The manager is then [m1] with the refused calls
    on its connection: what the sets before did to the kernel and to the
    cache stays ([evolves m m1]), and the cache has none of the entries of
    the refused batch, also when only the flush was refused. *)
Theorem Add_first_error (K : Kernel) (m m1 : manager) (host : string)
  (ip4s ip6s : list IP) (pre post : list Set_) (set : Set_) (n : nat)
  (elements : list SetElement) (entries : list ipInIpsetEntry) :
  lookupHost m host = pre ++ set :: post ->
  addToSets K host ip4s ip6s pre m = (Returns (n, None), m1) ->
  KeyType set = TypeIPAddr ->
  addIPs_collect set ip4s m1 = (elements, entries) ->
  elements <> [] ->
  evolves m m1
  /\ Forall (fun e => e ∉ addedIPs m1) entries
  /\ (forall err,
        k_SetAddElements K (conn m1) set elements = Some err ->
        Add K host ip4s ip6s m =
        (Returns (n, Some (ErrAdding host ip4s (Name set) (ErrConn err))),
         issue (SetAddElements set elements) m1))
  /\ (forall err,
        k_SetAddElements K (conn m1) set elements = None ->
        k_Flush K (conn m1 ++ [SetAddElements set elements]) = Some err ->
        Add K host ip4s ip6s m =
        (Returns (n, Some (ErrFlushing host ip4s (Name set) (ErrConn err))),
         issue Flush (issue (SetAddElements set elements) m1))).
Proof.
  intros Hl Hpre Hk Hcol Hne.
  assert (Hips : (length ip4s =? 0)%nat = false).
  { destruct ip4s; [|done]. simpl in Hcol. congruence. }
  assert (Hlen : (length elements =? 0)%nat = false) by by destruct elements.
  assert (Hsets : (length (pre ++ set :: post) =? 0)%nat = false).
  { rewrite length_app. simpl. apply Nat.eqb_neq. lia. }
  split; [|split; [|split]].
  - pose proof (addToSets_loop_evolves K host ip4s ip6s pre 0 m) as H.
    unfold addToSets in Hpre. by rewrite Hpre in H.
  - pose proof (addIPs_collect_fresh set ip4s m1) as H. by rewrite Hcol in H.
  - intros err Herr. unfold Add. rewrite Hl, Hsets. unfold addToSets in *.
    rewrite addToSets_loop_app, Hpre. simpl. rewrite Hk.
    unfold addIPs. by rewrite Hips, Hcol, Hlen, Herr.
  - intros err Hadd Herr. unfold Add. rewrite Hl, Hsets. unfold addToSets in *.
    rewrite addToSets_loop_app, Hpre. simpl. rewrite Hk.
    unfold addIPs. rewrite Hips, Hcol, Hlen, Hadd. simpl. by rewrite Herr.
Qed.

Lemma addToSets_loop_skips_IPv6 K host ip4s ip6s sets n m :
  addToSets_loop K host ip4s ip6s sets n m =
  addToSets_loop K host ip4s []
    (filter (fun s => KeyType s <> TypeIP6Addr) sets) n m.
Proof.
  revert n m. induction sets as [|set sets IH]; intros n m; [done|].
  rewrite filter_cons. simpl. destruct (KeyType set) eqn:E.
  - rewrite decide_True by done. simpl. rewrite E.
    destruct (addIPs K host set ip4s m) as [[[nn [err|]]|] m']; auto.
  - rewrite decide_False by (intros H; by apply H). apply IH.
  - rewrite decide_True by done. simpl. by rewrite E.
Qed.

Lemma addIPs_collect_count set ips m :
  length (addIPs_collect set ips m).1
  <= length (filter (fun ip => is_Some (To4 ip)) ips).
Proof.
  induction ips as [|ip ips IH]; simpl; [done|].
  destruct (addIPs_collect set ips m) as [elements entries]. simpl in *.
  rewrite filter_cons. destruct (To4 ip) as [ipv4|] eqn:E4.
  - rewrite decide_True by eauto. case_bool_decide; simpl; lia.
  - rewrite decide_False by (by intros [? ?]). by case_bool_decide.
Qed.

Lemma addIPs_count K host set ips m n err m' :
  addIPs K host set ips m = (Returns (n, err), m') ->
  n <= length (filter (fun ip => is_Some (To4 ip)) ips).
Proof.
  unfold addIPs. pose proof (addIPs_collect_count set ips m) as Hc.
  destruct (length ips =? 0)%nat; [intros [= <- _ _]; lia|].
  destruct (addIPs_collect set ips m) as [elements entries]. simpl in Hc.
  destruct (length elements =? 0)%nat; [intros [= <- _ _]; lia|].
  destruct (k_SetAddElements K _ _ _); [intros [= <- _ _]; lia|].
  destruct (k_Flush K _); [intros [= <- _ _]; lia|].
  destruct (addIPs_record _ _) as [[|] m3]; [|done].
  by intros [= <- _ _].
Qed.

Lemma addToSets_loop_count K host ip4s ip6s sets n0 m n err m' :
  addToSets_loop K host ip4s ip6s sets n0 m = (Returns (n, err), m') ->
  n <= n0 + length sets * length (filter (fun ip => is_Some (To4 ip)) ip4s).
Proof.
  revert n0 m. induction sets as [|set sets IH]; intros n0 m; simpl.
  - intros [= <- _ _]. lia.
  - destruct (KeyType set).
    + destruct (addIPs K host set ip4s m) as [[[nn [e|]]|] m1] eqn:E;
        [intros [= <- _ _]; lia| |done].
      apply addIPs_count in E. intros H%IH. lia.
    + intros H%IH. lia.
    + intros [= <- _ _]. lia.
Qed.

(** C8. [Add] does what [addToSets] would do with the sets of the host
    whose key type is not IPv6 and with no IPv6 address at all: a set of
    IPv6 addresses is passed over, without an error and without a call on
    the connection, and the list [ip6s] has no influence on the count or on
    anything else. If the host has only IPv6 sets, [Add] returns [(0, nil)]
    and changes nothing. The count is at most the number of the other sets
    of the host times the number of addresses of [ip4s] that are IPv4
    addresses. *)
Theorem Add_skips_IPv6_sets (K : Kernel) (m : manager) (host : string)
  (ip4s ip6s : list IP) :
  Add K host ip4s ip6s m =
  addToSets K host ip4s []
    (filter (fun s => KeyType s <> TypeIP6Addr) (lookupHost m host)) m
  /\ (Forall (fun s => KeyType s = TypeIP6Addr) (lookupHost m host) ->
      Add K host ip4s ip6s m = (Returns (0%nat, None), m))
  /\ (forall n err m',
        Add K host ip4s ip6s m = (Returns (n, err), m') ->
        n <= length (filter (fun s => KeyType s <> TypeIP6Addr)
                       (lookupHost m host))
             * length (filter (fun ip => is_Some (To4 ip)) ip4s)).
Proof.
  assert (H : Add K host ip4s ip6s m =
              addToSets K host ip4s []
                (filter (fun s => KeyType s <> TypeIP6Addr) (lookupHost m host))
                m).
  { unfold Add, addToSets. destruct (lookupHost m host) as [|s sets]; [done|].
    cbn [length Nat.eqb]. apply addToSets_loop_skips_IPv6. }
  split; [exact H|]. split.
  - intros Hall. rewrite H. clear H.
    replace (filter _ (lookupHost m host)) with (@nil Set_); [done|].
    symmetry. induction Hall as [|s sets Hs Hall IH]; [done|].
    rewrite filter_cons, decide_False by (intros Hn; by apply Hn). exact IH.
  - intros n err m'. rewrite H. unfold addToSets.
    intros Hn%addToSets_loop_count. done.
Qed.

(** ** One line of the configuration *)

Section Line.

Lemma map_head_length {A} (f : A -> A) (l : list A) :
  length (map_head f l) = length l.
Proof. by destruct l. Qed.

Lemma Split_TrimSpace s c :
  sepByte c = true ->
  Split (TrimSpace s) c = map_last trimRight (map_head trimLeft (Split s c)).
Proof.
  intros Hc. by rewrite TrimSpace_sides, Split_trimRight, Split_trimLeft.
Qed.

Lemma trimIpsetNames_spec names :
  trimIpsetNames names =
  if existsb blank names then None else Some (map TrimSpace names).
Proof.
  induction names as [|n names IH]; [done|].
  cbn [trimIpsetNames existsb map]. unfold blank at 1.
  destruct (String.length (TrimSpace n) =? 0)%nat; [done|].
  rewrite IH. simpl. by destruct (existsb blank names).
Qed.

Lemma existsb_blank_map_last names :
  existsb blank (map_last trimRight names) = existsb blank names.
Proof.
  induction names as [|n [|n' names] IH]; [done| |].
  - simpl. unfold blank. by rewrite TrimSpace_trimRight.
  - cbn [map_last existsb] in *. by rewrite IH.
Qed.

(** [parseIpsetConfigLine] in terms of the line as it is written. *)
Lemma parseIpsetConfigLine_spec line :
  parseIpsetConfigLine line =
  if negb (Count line "/" =? 1)%nat
  then ([], [], Some (ErrExpectedOneSlash (TrimSpace line)))
  else if existsb blank (Split (rightSide line) ",")
  then ([], [], Some (ErrEmptyIpsetName (TrimSpace line)))
  else (map (fun h => ToLower (TrimSpace h)) (Split (leftSide line) ","),
        map TrimSpace (Split (rightSide line) ","),
        None).
Proof.
  unfold parseIpsetConfigLine, leftSide, rightSide.
  rewrite (Split_TrimSpace line "/") by done.
  rewrite map_last_length, map_head_length, Split_length.
  change (S (Count line "/") =? 2)%nat with (Count line "/" =? 1)%nat.
  destruct (Count line "/" =? 1)%nat eqn:E; [|done]. cbn [negb].
  apply Nat.eqb_eq in E. pose proof (Split_length line "/") as Hlen.
  rewrite E in Hlen.
  destruct (Split line "/") as [|L [|R [|? ?]]]; try done.
  cbn [map_head map_last nth].
  rewrite (Split_trimRight R ",") by done.
  rewrite (Split_trimLeft L ",") by done.
  destruct (length (map_last trimRight (Split R ",")) =? 0)%nat eqn:El.
  { apply Nat.eqb_eq in El. rewrite map_last_length, Split_length in El.
    done. }
  rewrite trimIpsetNames_spec, existsb_blank_map_last.
  destruct (existsb blank (Split R ",")); [done|].
  rewrite (map_map_last TrimSpace) by apply TrimSpace_trimRight.
  rewrite (map_map_head (fun h => ToLower (TrimSpace h)))
    by (intros; by rewrite TrimSpace_trimLeft).
  done.
Qed.

Lemma line_names_not_nil line :
  (parseIpsetConfigLine line).2 = None ->
  line_names line <> [] /\ Forall (fun n => String.length n <> 0%nat) (line_names line).
Proof.
  unfold line_names. rewrite parseIpsetConfigLine_spec.
  destruct (negb (Count line "/" =? 1)%nat); [done|].
  destruct (existsb blank (Split (rightSide line) ",")) eqn:E; [done|].
  intros _. simpl. split.
  - destruct (Split_cons_inv (rightSide line) ",") as (x & xs & ->). done.
  - apply Forall_forall. intros n Hn. apply list_elem_of_In, in_map_iff in Hn.
    destruct Hn as (id & <- & Hid).
    assert (H : blank id = false).
    { destruct (blank id) eqn:Hb; [|done].
      assert (existsb blank (Split (rightSide line) ",") = true); [|congruence].
      apply existsb_exists. eauto. }
    unfold blank in H. by apply Nat.eqb_neq in H.
Qed.

End Line.

(** ** The configuration *)

Section Config.

Variable K : Kernel.

Lemma registers_refl m : registers m m.
Proof. by repeat split. Qed.

Lemma registers_trans m1 m2 m3 :
  registers m1 m2 -> registers m2 m3 -> registers m1 m3.
Proof.
  intros (Hn & Hc & Ha) (Hn' & Hc' & Ha'). repeat split.
  - by etrans.
  - by etrans.
  - congruence.
Qed.

(** The parsing of one identifier. *)
Lemma parseIpsetConfig_name_registers i l n ipsets m :
  registers m (parseIpsetConfig_name K i l n ipsets m).2
  /\ domainToIpsets (parseIpsetConfig_name K i l n ipsets m).2
     = domainToIpsets m.
Proof.
  unfold parseIpsetConfig_name.
  repeat (match goal with |- context [if negb ?b then _ else _] =>
                            destruct b; cbn [negb] end;
          try (split; [apply registers_refl|done])).
  destruct (nameToIpset m !! n) as [set|] eqn:E;
    [split; [apply registers_refl|done]|].
  assert (Hi : registers m (issue (GetSetByName
              {| TableName := nth 2 (Split n "#") ""; Family := TableFamilyINet |}
              (nth 3 (Split n "#") "")) m)).
  { repeat split; simpl; [done|by apply prefix_app_r]. }
  destruct (k_GetSetByName K _ _ _) as [err|set]; [done|].
  destruct (bool_decide (KeyType set = TypeIPAddr)); cbn [negb]; [|done].
  split; [|done]. repeat split; simpl.
  - by apply insert_subseteq.
  - by apply prefix_app_r.
Qed.

Lemma parseIpsetConfig_name_ok i l n ipsets m ipsets' m' :
  parseIpsetConfig_name K i l n ipsets m = (None, ipsets', m') ->
  well_formed n = true
  /\ exists set, ipsets' = ipsets ++ [set] /\ nameToIpset m' !! n = Some set.
Proof.
  unfold parseIpsetConfig_name, well_formed.
  repeat (match goal with |- context [if negb ?b then _ else _] =>
                            destruct b; cbn [negb] end; try done).
  intros H. split; [done|].
  destruct (nameToIpset m !! n) as [set|] eqn:E.
  { injection H as <- <-. eauto. }
  destruct (k_GetSetByName K _ _ _) as [err|set]; [done|].
  destruct (bool_decide (KeyType set = TypeIPAddr)); cbn [negb] in H; [|done].
  injection H as <- <-. exists set. split; [done|]. simpl.
  by rewrite lookup_insert_eq.
Qed.

Lemma parseIpsetConfig_name_named i l n ipsets m e ipsets' m' :
  parseIpsetConfig_name K i l n ipsets m = (Some e, ipsets', m') ->
  named e = Some (i, l).
Proof.
  unfold parseIpsetConfig_name.
  repeat (match goal with |- context [if negb ?b then _ else _] =>
                            destruct b; cbn [negb] end;
          try (intros [= <- _ _]; done)).
  destruct (nameToIpset m !! n) as [set|] eqn:E; [done|].
  destruct (k_GetSetByName K _ _ _) as [err|set]; [intros [= <- _ _]; done|].
  destruct (bool_decide (KeyType set = TypeIPAddr)); cbn [negb]; [done|].
  intros [= <- _ _]; done.
Qed.

(** The parsing of the identifiers of a line. *)
Lemma parseIpsetConfig_names_registers i l names ipsets m :
  registers m (parseIpsetConfig_names K i l names ipsets m).2
  /\ domainToIpsets (parseIpsetConfig_names K i l names ipsets m).2
     = domainToIpsets m.
Proof.
  revert ipsets m. induction names as [|n names IH]; intros ipsets m; simpl.
  - split; [apply registers_refl|done].
  - pose proof (parseIpsetConfig_name_registers i l n ipsets m) as [H1 H2].
    destruct (parseIpsetConfig_name K i l n ipsets m) as [[[e|] ipsets'] m'];
      simpl in *; [done|].
    destruct (IH ipsets' m') as [H3 H4]. split.
    + by eapply registers_trans.
    + congruence.
Qed.

Lemma parseIpsetConfig_names_ok i l names ipsets m ipsets' m' :
  parseIpsetConfig_names K i l names ipsets m = (None, ipsets', m') ->
  Forall (fun n => well_formed n = true) names
  /\ exists sets, ipsets' = ipsets ++ sets
       /\ Forall2 (fun n set => nameToIpset m' !! n = Some set) names sets.
Proof.
  revert ipsets m. induction names as [|n names IH]; intros ipsets m; simpl.
  - intros [= <- <-]. split; [done|]. exists []. by rewrite app_nil_r.
  - destruct (parseIpsetConfig_name K i l n ipsets m) as [[[e|] ipsets1] m1]
      eqn:E1; [done|].
    intros E2. apply parseIpsetConfig_name_ok in E1 as (Hwf & set & -> & Hset).
    pose proof (parseIpsetConfig_names_registers i l names (ipsets ++ [set]) m1)
      as [(Hsub & _) _].
    rewrite E2 in Hsub. simpl in Hsub.
    apply IH in E2 as (Hall & sets & -> & H2). split; [by constructor|].
    exists (set :: sets). split; [by rewrite <- app_assoc|].
    constructor; [|done]. by eapply lookup_weaken.
Qed.

Lemma parseIpsetConfig_names_named i l names ipsets m e ipsets' m' :
  parseIpsetConfig_names K i l names ipsets m = (Some e, ipsets', m') ->
  named e = Some (i, l).
Proof.
  revert ipsets m. induction names as [|n names IH]; intros ipsets m; simpl;
    [done|].
  destruct (parseIpsetConfig_name K i l n ipsets m) as [[[e1|] ipsets1] m1]
    eqn:E1.
  - intros [= <- _ _]. by apply parseIpsetConfig_name_named in E1.
  - apply IH.
Qed.

(** The loop over the hosts of a line. *)
Lemma parseIpsetConfig_hosts_registry hosts ipsets m :
  nameToIpset (parseIpsetConfig_hosts hosts ipsets m) = nameToIpset m
  /\ conn (parseIpsetConfig_hosts hosts ipsets m) = conn m
  /\ addedIPs (parseIpsetConfig_hosts hosts ipsets m) = addedIPs m.
Proof.
  revert m. induction hosts as [|h hosts IH]; intros m; simpl; [done|].
  destruct (IH (set_domainToIpsets
                  (<[h:=index_slices (domainToIpsets m) h ++ ipsets]>
                     (domainToIpsets m)) m)) as (-> & -> & ->).
  done.
Qed.

Lemma parseIpsetConfig_hosts_table hosts ipsets m d :
  index_slices (domainToIpsets (parseIpsetConfig_hosts hosts ipsets m)) d =
  index_slices (domainToIpsets m) d
  ++ flat_map (fun h => if decide (h = d) then ipsets else []) hosts.
Proof.
  revert m. induction hosts as [|h hosts IH]; intros m; simpl.
  - by rewrite app_nil_r.
  - rewrite IH. simpl. unfold index_slices at 1.
    destruct (decide (h = d)) as [->|Hne].
    + rewrite lookup_insert_eq. simpl. by rewrite <- app_assoc.
    + rewrite lookup_insert_ne by done. done.
Qed.

Lemma parseIpsetConfig_hosts_nonempty hosts ipsets m :
  ipsets <> [] ->
  map_Forall (fun _ sets => sets <> []) (domainToIpsets m) ->
  map_Forall (fun _ sets => sets <> [])
    (domainToIpsets (parseIpsetConfig_hosts hosts ipsets m)).
Proof.
  intros Hne. revert m. induction hosts as [|h hosts IH]; intros m Hm; simpl;
    [done|].
  apply IH. simpl. apply map_Forall_insert_2; [|done].
  destruct ipsets; [done|]. by destruct (index_slices _ _).
Qed.

Lemma omap_registered (r : gmap string Set_) names sets :
  Forall2 (fun n set => r !! n = Some set) names sets ->
  omap (fun n => r !! n) names = sets.
Proof.
  induction 1 as [|n set names sets H _ IH]; csimpl; [done|].
  by rewrite H, IH.
Qed.

Lemma omap_registered_weaken (r r' : gmap string Set_) names :
  r ⊆ r' -> Forall (fun n => is_Some (r !! n)) names ->
  omap (fun n => r' !! n) names = omap (fun n => r !! n) names.
Proof.
  intros Hsub. induction 1 as [|n names [set Hn] _ IH]; csimpl; [done|].
  by rewrite Hn, (lookup_weaken _ _ _ _ Hn Hsub), IH.
Qed.

(** The parsing of one line. *)
Lemma parseIpsetConfig_line_registers i line m :
  registers m (parseIpsetConfig_line K i line m).2.
Proof.
  unfold parseIpsetConfig_line.
  destruct (parseIpsetConfigLine line) as [[hosts names] [e|]];
    [apply registers_refl|].
  pose proof (parseIpsetConfig_names_registers i line names [] m) as [H _].
  destruct (parseIpsetConfig_names K i line names [] m) as [[[e|] ipsets] m'];
    simpl in *; [done|].
  destruct (parseIpsetConfig_hosts_registry hosts ipsets m') as (Hn & Hc & Ha).
  unfold registers. by rewrite Hn, Hc, Ha.
Qed.

Lemma parseIpsetConfig_line_ok i line m m' :
  parseIpsetConfig_line K i line m = (None, m') ->
  (parseIpsetConfigLine line).2 = None
  /\ Forall (fun n => well_formed n = true) (line_names line)
  /\ Forall (fun n => is_Some (nameToIpset m' !! n)) (line_names line)
  /\ forall d, index_slices (domainToIpsets m') d =
               index_slices (domainToIpsets m) d ++ contribution m' d line.
Proof.
  unfold parseIpsetConfig_line, contribution, line_sets, line_hosts, line_names.
  destruct (parseIpsetConfigLine line) as [[hosts names] [e|]]; [done|].
  destruct (parseIpsetConfig_names K i line names [] m) as [[[e|] ipsets] m1]
    eqn:E; [done|].
  intros [= <-]. simpl.
  pose proof (parseIpsetConfig_names_registers i line names [] m) as [_ Hd].
  rewrite E in Hd. simpl in Hd.
  apply parseIpsetConfig_names_ok in E as (Hwf & sets & -> & Hsets).
  destruct (parseIpsetConfig_hosts_registry hosts ([] ++ sets) m1) as (-> & _).
  split; [done|]. split; [done|]. split.
  - clear -Hsets. induction Hsets; constructor; eauto.
  - intros d. rewrite parseIpsetConfig_hosts_table, Hd.
    by rewrite (omap_registered _ _ _ Hsets).
Qed.

Lemma parseIpsetConfig_line_named i line m e m' :
  parseIpsetConfig_line K i line m = (Some e, m') ->
  named e = Some (i, line).
Proof.
  unfold parseIpsetConfig_line.
  destruct (parseIpsetConfigLine line) as [[hosts names] [e1|]];
    [by intros [= <- _]|].
  destruct (parseIpsetConfig_names K i line names [] m) as [[[e1|] ipsets] m1]
    eqn:E; [|done].
  intros [= <- _]. by apply parseIpsetConfig_names_named in E.
Qed.

Lemma parseIpsetConfig_line_nonempty i line m :
  map_Forall (fun _ sets => sets <> []) (domainToIpsets m) ->
  map_Forall (fun _ sets => sets <> [])
    (domainToIpsets (parseIpsetConfig_line K i line m).2).
Proof.
  intros Hm. unfold parseIpsetConfig_line.
  pose proof (line_names_not_nil line) as Hnames. unfold line_names in Hnames.
  destruct (parseIpsetConfigLine line) as [[hosts names] [e|]]; [done|].
  destruct (Hnames eq_refl) as [Hne _]. simpl in Hne.
  pose proof (parseIpsetConfig_names_registers i line names [] m) as [_ Hd].
  destruct (parseIpsetConfig_names K i line names [] m) as [[[e|] ipsets] m1]
    eqn:E; simpl in *; [by rewrite Hd|].
  apply parseIpsetConfig_names_ok in E as (_ & sets & -> & Hsets).
  apply parseIpsetConfig_hosts_nonempty; [|by rewrite Hd].
  destruct Hsets; done.
Qed.

Lemma contribution_weaken m m' d line :
  nameToIpset m ⊆ nameToIpset m' ->
  Forall (fun n => is_Some (nameToIpset m !! n)) (line_names line) ->
  contribution m' d line = contribution m d line.
Proof.
  intros Hsub Hall. unfold contribution, line_sets.
  by rewrite (omap_registered_weaken _ _ _ Hsub Hall).
Qed.

(** The parsing of the lines, from index [i] on. *)
Lemma parseIpsetConfig_from_registers i lines m :
  registers m (parseIpsetConfig_from K i lines m).2.
Proof.
  revert i m. induction lines as [|line lines IH]; intros i m; simpl.
  - apply registers_refl.
  - pose proof (parseIpsetConfig_line_registers i line m) as H.
    destruct (parseIpsetConfig_line K i line m) as [[e|] m1]; [done|].
    eapply registers_trans; [exact H|apply IH].
Qed.

Lemma parseIpsetConfig_from_ok i lines m m' :
  parseIpsetConfig_from K i lines m = (None, m') ->
  Forall (fun line =>
            (parseIpsetConfigLine line).2 = None
            /\ Forall (fun n => well_formed n = true) (line_names line)
            /\ Forall (fun n => is_Some (nameToIpset m' !! n))
                      (line_names line)) lines
  /\ forall d, index_slices (domainToIpsets m') d =
               index_slices (domainToIpsets m) d
               ++ flat_map (contribution m' d) lines.
Proof.
  revert i m. induction lines as [|line lines IH]; intros i m; simpl.
  - intros [= <-]. split; [done|]. intros d. by rewrite app_nil_r.
  - destruct (parseIpsetConfig_line K i line m) as [[e|] m1] eqn:E1; [done|].
    intros E2.
    pose proof (parseIpsetConfig_from_registers (S i) lines m1) as (Hsub & _).
    rewrite E2 in Hsub. simpl in Hsub.
    apply parseIpsetConfig_line_ok in E1 as (Hp & Hwf & Hreg & Ht).
    apply IH in E2 as (Hall & Ht'). split.
    + constructor; [|done]. repeat split; [done..|].
      eapply Forall_impl; [exact Hreg|]. intros n [set Hn].
      exists set. by eapply lookup_weaken.
    + intros d. rewrite Ht', Ht, <- app_assoc.
      by rewrite (contribution_weaken m1 m').
Qed.

Lemma parseIpsetConfig_from_named i lines m e m' :
  parseIpsetConfig_from K i lines m = (Some e, m') ->
  exists j line, named e = Some (i + j, line) /\ lines !! j = Some line.
Proof.
  revert i m. induction lines as [|line lines IH]; intros i m; simpl; [done|].
  destruct (parseIpsetConfig_line K i line m) as [[e1|] m1] eqn:E1.
  - intros [= <- _]. apply parseIpsetConfig_line_named in E1.
    exists 0, line. by rewrite Nat.add_0_r.
  - intros E2. apply IH in E2 as (j & l & Hn & Hl).
    exists (S j), l. split; [|done]. by rewrite Nat.add_succ_r.
Qed.

Lemma parseIpsetConfig_from_nonempty i lines m :
  map_Forall (fun _ sets => sets <> []) (domainToIpsets m) ->
  map_Forall (fun _ sets => sets <> [])
    (domainToIpsets (parseIpsetConfig_from K i lines m).2).
Proof.
  revert i m. induction lines as [|line lines IH]; intros i m Hm; simpl;
    [done|].
  pose proof (parseIpsetConfig_line_nonempty i line m Hm) as H.
  destruct (parseIpsetConfig_line K i line m) as [[e|] m1]; [done|].
  by apply IH.
Qed.

(** [newManager], when it gives a manager. *)
Lemma newManager_ok lines m calls :
  newManager K lines = (Some m, None, calls) ->
  k_New K = None
  /\ parseIpsetConfig K lines fresh = (None, m)
  /\ calls = conn m.
Proof.
  unfold newManager. destruct (k_New K); [done|].
  destruct (parseIpsetConfig K lines fresh) as [[e|] m']; [done|].
  by intros [= <- <-].
Qed.

(** What holds of every state of a running manager. *)
Lemma running_nonempty m :
  running K m -> map_Forall (fun _ sets => sets <> []) (domainToIpsets m).
Proof.
  induction 1 as [lines m calls H|m host ip4s ip6s _ IH].
  - apply newManager_ok in H as (_ & H & _).
    pose proof (parseIpsetConfig_from_nonempty 0 lines fresh) as Hne.
    unfold parseIpsetConfig in H. rewrite H in Hne. apply Hne.
    apply map_Forall_empty.
  - destruct (Add_evolves K host ip4s ip6s m) as (_ & -> & _). done.
Qed.

Lemma running_cache_persistent m : running K m -> cache_persistent m.
Proof.
  induction 1 as [lines m calls H|m host ip4s ip6s _ IH].
  - apply newManager_ok in H as (_ & H & _).
    pose proof (parseIpsetConfig_from_registers 0 lines fresh) as (_ & _ & Ha).
    unfold parseIpsetConfig in H. rewrite H in Ha. simpl in Ha.
    intros e set He. rewrite Ha in He. set_solver.
  - eapply evolves_cache_persistent; [apply Add_evolves|done].
Qed.

End Config.

(** C6. No state of a running manager has, in its cache, an entry under
    the name of a registered set that has a timeout. Hence, for such a set
    that is the only set of a host, an IPv4 address and a kernel that
    accepts the calls, [Add] returns 1 the first time and 1 again the second
    time; each of the two calls issues its own add-elements call and flush,
    and the cache stays as it was. *)
Theorem timeout_sets_are_not_cached (K : Kernel) (m : manager) :
  running K m ->
  cache_persistent m
  /\ forall host set ip ipv4 ip6s ip6s',
       lookupHost m host = [set] ->
       KeyType set = TypeIPAddr ->
       nameToIpset m !! ipsetNameOf set = Some set ->
       HasTimeout set = true ->
       To4 ip = Some ipv4 ->
       accepts K (conn m) set [{| Key := ipv4 |}] ->
       accepts K (conn m ++ [SetAddElements set [{| Key := ipv4 |}]; Flush])
         set [{| Key := ipv4 |}] ->
       exists m1 m2,
         Add K host [ip] ip6s m = (Returns (1%nat, None), m1)
         /\ Add K host [ip] ip6s' m1 = (Returns (1%nat, None), m2)
         /\ conn m2 = conn m ++ [SetAddElements set [{| Key := ipv4 |}]; Flush;
                                 SetAddElements set [{| Key := ipv4 |}]; Flush]
         /\ addedIPs m1 = addedIPs m
         /\ addedIPs m2 = addedIPs m.
Proof.
  intros Hrun. pose proof (running_cache_persistent K m Hrun) as Hcache.
  split; [exact Hcache|].
  intros host set ip ipv4 ip6s ip6s' Hl Hk Hreg Ht H4 Hacc1 Hacc2.
  assert (Hnew : entryOf set ip ∉ addedIPs m).
  { intros Hin. specialize (Hcache _ _ Hin Hreg). congruence. }
  set (m1 := issue Flush (issue (SetAddElements set [{| Key := ipv4 |}]) m)).
  set (m2 := issue Flush (issue (SetAddElements set [{| Key := ipv4 |}]) m1)).
  assert (Hc1 : conn m1 = conn m ++ [SetAddElements set [{| Key := ipv4 |}]; Flush]).
  { simpl. by rewrite <- app_assoc. }
  exists m1, m2. split; [|split; [|split; [|done]]].
  - unfold Add. rewrite Hl. simpl. unfold addToSets. simpl. rewrite Hk.
    rewrite (addIPs_one_new K host set set ip ipv4) by done.
    by rewrite Ht.
  - unfold Add, lookupHost in *. simpl. rewrite Hl. simpl.
    unfold addToSets. simpl. rewrite Hk.
    rewrite (addIPs_one_new K host set set ip ipv4); try done.
    + by rewrite Ht.
    + by rewrite Hc1.
  - simpl. rewrite <- !app_assoc. done.
Qed.

Lemma flat_map_elem {A B} (f : A -> list B) (x : A) (l : list A) :
  x ∈ l -> exists before after, flat_map f l = before ++ f x ++ after.
Proof.
  intros Hx. apply list_elem_of_split in Hx as (l1 & l2 & ->).
  exists (flat_map f l1), (flat_map f l2). by rewrite flat_map_app.
Qed.

Lemma blank_trims_to_empty h : blank h = true -> ToLower (TrimSpace h) = "".
Proof.
  unfold blank. intros H. apply Nat.eqb_eq in H.
  by destruct (TrimSpace h).
Qed.

(** C10. A line is accepted whatever its hosts are: with one ['/'] and no
    identifier that trims to nothing, [parseIpsetConfigLine] gives the hosts
    trimmed and in lower case, an empty or blank host as the empty string
    (so for [",example.com/4#inet#t#s"]). Trimming and lower case are those
    of [strings.TrimSpace] and [strings.ToLower], on runes: a host that is
    the white space U+00A0 becomes the empty string, the letter U+00C9
    becomes U+00E9, and an identifier that is the white space U+00A0 is an
    empty set name. After [newManager], the sets of a line that has the
    empty host are part of the entry of the key [""], which is what
    [lookupHost] returns for every host that has no registered key among
    its candidates. *)
Theorem empty_host_is_catch_all :
  parseIpsetConfigLine ",example.com/4#inet#t#s"
  = ([""; "example.com"], ["4#inet#t#s"], None)
  /\ parseIpsetConfigLine
       ("Example.COM," +:+ nbsp +:+ "," +:+ E_acute +:+ ".example/"
        +:+ nbsp +:+ "4#inet#t#s")
     = (["example.com"; ""; e_acute +:+ ".example"], ["4#inet#t#s"], None)
  /\ parseIpsetConfigLine ("a/4#inet#t#s," +:+ nbsp +:+ ",4#inet#t#u")
     = ([], [],
        Some (ErrEmptyIpsetName ("a/4#inet#t#s," +:+ nbsp +:+ ",4#inet#t#u")))
  /\ parseIpsetConfigLine ("a/" +:+ nbsp)
     = ([], [], Some (ErrEmptyIpsetName "a/"))
  /\ (forall line,
        Count line "/" = 1%nat ->
        existsb blank (Split (rightSide line) ",") = false ->
        parseIpsetConfigLine line =
        (map (fun h => ToLower (TrimSpace h)) (Split (leftSide line) ","),
         map TrimSpace (Split (rightSide line) ","), None))
  /\ (forall h, blank h = true -> ToLower (TrimSpace h) = "")
  /\ (forall K lines m calls line,
        newManager K lines = (Some m, None, calls) ->
        line ∈ lines ->
        "" ∈ line_hosts line ->
        line_sets m line <> []
        /\ (exists before after,
              index_slices (domainToIpsets m) ""
              = before ++ line_sets m line ++ after)
        /\ (forall host,
              first_registered (domainToIpsets m) (candidates host) = None ->
              lookupHost m host = index_slices (domainToIpsets m) "")).
Proof.
  split; [reflexivity|]. split; [vm_compute; reflexivity|].
  split; [vm_compute; reflexivity|]. split; [vm_compute; reflexivity|].
  split; [|split; [exact blank_trims_to_empty|]].
  { intros line Hc Hb. rewrite parseIpsetConfigLine_spec, Hc, Hb. done. }
  intros K lines m calls line Hnew Hline Hhost.
  assert (Hrun : running K m) by (by eapply running_new).
  apply newManager_ok in Hnew as (_ & Hparse & _).
  apply parseIpsetConfig_from_ok in Hparse as (Hall & Htable).
  rewrite Forall_forall in Hall. destruct (Hall _ Hline) as (Hp & _ & Hreg).
  split; [|split].
  - destruct (line_names_not_nil line Hp) as [Hne _]. unfold line_sets.
    destruct Hreg as [|n names [set Hn] _]; [done|].
    csimpl. by rewrite Hn.
  - rewrite Htable. simpl.
    destruct (flat_map_elem (contribution m "") _ _ Hline) as (b1 & a1 & ->).
    unfold contribution.
    destruct (flat_map_elem
                (fun h => if decide (h = "") then line_sets m line else [])
                _ _ Hhost) as (b2 & a2 & ->).
    rewrite decide_True by done.
    exists (b1 ++ b2), (a2 ++ a1). by rewrite <- !app_assoc.
  - intros host Hnone. unfold lookupHost.
    rewrite lookupHost_loop_spec by (by eapply running_nonempty).
    unfold lookup_spec. change (slice_from 0 host) with host.
    by rewrite Hnone.
Qed.

(** ** The queries of the initialisation *)

Section Queries.

Variable K : Kernel.

Lemma well_formed_inv n :
  well_formed n = true ->
  exists t name, Split n "#" = ["4"; "inet"; t; name].
Proof.
  unfold well_formed. intros H.
  apply andb_prop in H as [H H1]. apply andb_prop in H as [Hl H0].
  apply Nat.eqb_eq in Hl. apply String.eqb_eq in H0, H1.
  destruct (Split n "#") as [|a [|b [|t [|name [|? ?]]]]]; try done.
  simpl in *. subst. eauto.
Qed.

Lemma queryOf_inj n n' :
  well_formed n = true -> well_formed n' = true ->
  queryOf n = queryOf n' -> n = n'.
Proof.
  intros (t & name & E)%well_formed_inv (t' & name' & E')%well_formed_inv.
  unfold queryOf. rewrite E, E'. simpl. intros [= -> ->].
  apply (Split_inj _ _ "#"). congruence.
Qed.

Lemma snoc_split {A} (l pre post : list A) (x c : A) :
  l ++ [x] = pre ++ c :: post ->
  (post = [] /\ pre = l /\ c = x)
  \/ (exists post', post = post' ++ [x] /\ l = pre ++ c :: post').
Proof.
  destruct post as [|y post _] using rev_ind.
  - intros H. apply app_inj_tail in H as [-> ->]. by left.
  - intros H. right. exists post.
    rewrite app_comm_cons, app_assoc in H.
    apply app_inj_tail in H as [-> ->]. done.
Qed.

Lemma well_answered_nil : well_answered K [].
Proof. intros pre c post H. by destruct pre. Qed.

Lemma well_answered_snoc calls c :
  well_answered K calls -> answered_well K calls c = true ->
  well_answered K (calls ++ [c]).
Proof.
  intros Hw Hc pre c' post H.
  apply snoc_split in H as [(_ & -> & ->)|(post' & _ & ->)]; [done|].
  by eapply Hw.
Qed.

Lemma queries_registered_fresh : queries_registered K fresh.
Proof.
  split; [constructor|]. split; [|apply well_answered_nil].
  intros c Hc. simpl in Hc. set_solver.
Qed.

Lemma queries_registered_new m n :
  queries_registered K m -> well_formed n = true ->
  nameToIpset m !! n = None -> queryOf n ∉ conn m.
Proof.
  intros (_ & Hq & _) Hwf Hnone Hin.
  destruct (Hq _ Hin) as (n' & Heq & Hwf' & [set Hset]).
  apply queryOf_inj in Heq; [|done..]. congruence.
Qed.

Lemma parseIpsetConfig_name_parsed i l n ipsets m :
  queries_registered K m ->
  parsed K (parseIpsetConfig_name K i l n ipsets m).1.1
           (parseIpsetConfig_name K i l n ipsets m).2.
Proof.
  intros Hm. pose proof (queries_registered_new m n Hm) as Hnew.
  unfold parseIpsetConfig_name, queryOf in *.
  destruct (well_formed n) eqn:Hwf; unfold well_formed in Hwf.
  2:{ repeat (match goal with |- context [if negb ?b then _ else _] =>
                                destruct b; cbn [negb] end; try done). }
  apply andb_prop in Hwf as [Hwf H1]. apply andb_prop in Hwf as [Hl H0].
  rewrite Hl, H0, H1. cbn [negb].
  destruct (nameToIpset m !! n) as [set|] eqn:E; [done|].
  specialize (Hnew eq_refl eq_refl).
  set (t := {| TableName := nth 2 (Split n "#") "";
               Family := TableFamilyINet |}) in *.
  set (name := nth 3 (Split n "#") "") in *.
  destruct (k_GetSetByName K (conn m) t name) as [err|set] eqn:Ek.
  { unfold parsed. simpl. exists m, (GetSetByName t name).
    split; [done|]. split; [done|]. split; [done|]. split; [by exists n|].
    simpl. by rewrite Ek. }
  destruct (bool_decide (KeyType set = TypeIPAddr)) eqn:Et; cbn [negb].
  2:{ unfold parsed. simpl. exists m, (GetSetByName t name).
      split; [done|]. split; [done|]. split; [done|]. split; [by exists n|].
      simpl. by rewrite Ek, Et. }
  unfold parsed. simpl.
  destruct Hm as (Hnd & Hq & Hw). split; [|split]; simpl.
  - apply NoDup_app. split; [done|]. split; [|apply NoDup_singleton].
    intros c Hc ->%list_elem_of_singleton. done.
  - intros c [Hc| ->%list_elem_of_singleton]%elem_of_app.
    + destruct (Hq c Hc) as (n' & -> & Hwf & [set' Hs]).
      exists n'. repeat split; [done|].
      destruct (decide (n = n')) as [->|Hne]; [congruence|].
      rewrite lookup_insert_ne by done. eauto.
    + exists n. unfold queryOf, well_formed.
      rewrite Hl, H0, H1, lookup_insert_eq. eauto.
  - apply well_answered_snoc; [done|]. simpl. by rewrite Ek.
Qed.

Lemma parseIpsetConfig_names_parsed i l names ipsets m :
  queries_registered K m ->
  parsed K (parseIpsetConfig_names K i l names ipsets m).1.1
           (parseIpsetConfig_names K i l names ipsets m).2.
Proof.
  revert ipsets m. induction names as [|n names IH]; intros ipsets m Hm; simpl;
    [done|].
  pose proof (parseIpsetConfig_name_parsed i l n ipsets m Hm) as H.
  destruct (parseIpsetConfig_name K i l n ipsets m) as [[[e|] ipsets1] m1];
    [done|].
  by apply IH.
Qed.

Lemma parseIpsetConfig_line_parsed i line m :
  queries_registered K m ->
  parsed K (parseIpsetConfig_line K i line m).1
           (parseIpsetConfig_line K i line m).2.
Proof.
  intros Hm. unfold parseIpsetConfig_line.
  destruct (parseIpsetConfigLine line) as [[hosts names] [e|]]; [done|].
  pose proof (parseIpsetConfig_names_parsed i line names [] m Hm) as H.
  destruct (parseIpsetConfig_names K i line names [] m) as [[[e|] ipsets] m1];
    [done|].
  simpl in *. unfold queries_registered.
  by destruct (parseIpsetConfig_hosts_registry hosts ipsets m1) as (-> & -> & _).
Qed.

Lemma parseIpsetConfig_from_parsed i lines m :
  queries_registered K m ->
  parsed K (parseIpsetConfig_from K i lines m).1
           (parseIpsetConfig_from K i lines m).2.
Proof.
  revert i m. induction lines as [|line lines IH]; intros i m Hm; simpl;
    [done|].
  pose proof (parseIpsetConfig_line_parsed i line m Hm) as H.
  destruct (parseIpsetConfig_line K i line m) as [[e|] m1]; [done|].
  by apply IH.
Qed.

(** The calls that parsing issues are the queries of its identifiers. *)
Lemma parseIpsetConfig_name_calls i l n ipsets m :
  conn (parseIpsetConfig_name K i l n ipsets m).2 = conn m
  \/ conn (parseIpsetConfig_name K i l n ipsets m).2 = conn m ++ [queryOf n].
Proof.
  unfold parseIpsetConfig_name, queryOf.
  repeat (match goal with |- context [if negb ?b then _ else _] =>
                            destruct b; cbn [negb] end; try by left).
  destruct (nameToIpset m !! n); [by left|].
  destruct (k_GetSetByName K _ _ _) as [err|set]; [by right|].
  destruct (bool_decide (KeyType set = TypeIPAddr)); by right.
Qed.

Lemma parseIpsetConfig_names_calls i l names ipsets m c :
  c ∈ conn (parseIpsetConfig_names K i l names ipsets m).2 ->
  c ∈ conn m \/ exists n, n ∈ names /\ c = queryOf n.
Proof.
  revert ipsets m. induction names as [|n names IH]; intros ipsets m; simpl;
    [by left|].
  pose proof (parseIpsetConfig_name_calls i l n ipsets m) as H.
  assert (H1 : forall c, c ∈ conn (parseIpsetConfig_name K i l n ipsets m).2 ->
                         c ∈ conn m \/ exists n', n' ∈ n :: names
                                                  /\ c = queryOf n').
  { intros c'. destruct H as [-> | ->]; [by left|].
    intros [Hc| ->%list_elem_of_singleton]%elem_of_app; [by left|].
    right. exists n. split; [apply list_elem_of_here|done]. }
  destruct (parseIpsetConfig_name K i l n ipsets m) as [[[e|] ipsets1] m1];
    simpl in *; [apply H1|].
  intros [Hc|(n' & Hn' & ->)]%IH; [by apply H1|].
  right. exists n'. split; [by apply list_elem_of_further|done].
Qed.

Lemma parseIpsetConfig_line_calls i line m c :
  c ∈ conn (parseIpsetConfig_line K i line m).2 ->
  c ∈ conn m \/ exists n, n ∈ line_names line /\ c = queryOf n.
Proof.
  unfold parseIpsetConfig_line, line_names.
  destruct (parseIpsetConfigLine line) as [[hosts names] [e|]]; [by left|].
  pose proof (parseIpsetConfig_names_calls i line names [] m c) as H.
  destruct (parseIpsetConfig_names K i line names [] m) as [[[e|] ipsets] m1];
    simpl in *; [done|].
  by destruct (parseIpsetConfig_hosts_registry hosts ipsets m1) as (_ & -> & _).
Qed.

Lemma parseIpsetConfig_from_calls i lines m c :
  c ∈ conn (parseIpsetConfig_from K i lines m).2 ->
  c ∈ conn m
  \/ exists line n, line ∈ lines /\ n ∈ line_names line /\ c = queryOf n.
Proof.
  revert i m. induction lines as [|line lines IH]; intros i m; simpl;
    [by left|].
  pose proof (parseIpsetConfig_line_calls i line m) as H.
  assert (H1 : forall c, c ∈ conn (parseIpsetConfig_line K i line m).2 ->
                         c ∈ conn m
                         \/ exists l n, l ∈ line :: lines
                                        /\ n ∈ line_names l /\ c = queryOf n).
  { intros c' [Hc|(n & Hn & ->)]%H; [by left|].
    right. exists line, n. split; [apply list_elem_of_here|done]. }
  destruct (parseIpsetConfig_line K i line m) as [[e|] m1]; simpl in *;
    [apply H1|].
  intros [Hc|(l & n & Hl & Hn & ->)]%IH; [by apply H1|].
  right. exists l, n. split; [by apply list_elem_of_further|done].
Qed.

Lemma parsed_calls err m :
  parsed K err m ->
  NoDup (conn m)
  /\ (forall c, c ∈ conn m -> exists n, c = queryOf n)
  /\ (forall pre c post, conn m = pre ++ c :: post -> post <> [] ->
        answered_well K pre c = true)
  /\ ((exists e, err = Some e /\ resolution_error e = true) <->
      exists pre c, conn m = pre ++ [c] /\ answered_well K pre c = false).
Proof.
  assert (Hreg : forall m, queries_registered K m ->
            NoDup (conn m)
            /\ (forall c, c ∈ conn m -> exists n, c = queryOf n)
            /\ (forall pre c post, conn m = pre ++ c :: post -> post <> [] ->
                  answered_well K pre c = true)
            /\ ~ exists pre c, conn m = pre ++ [c]
                               /\ answered_well K pre c = false).
  { clear. intros m (Hnd & Hq & Hw). repeat split; [done|..].
    - intros c Hc. destruct (Hq c Hc) as (n & -> & _). eauto.
    - intros pre c post H _. by eapply Hw.
    - intros (pre & c & H & Hf). rewrite (Hw _ _ _ H) in Hf. done. }
  destruct err as [e|]; simpl.
  2:{ intros (H1 & H2 & H3 & H4)%Hreg. repeat split; try done.
      by intros (e & ? & _). }
  destruct (resolution_error e) eqn:Er.
  2:{ intros (H1 & H2 & H3 & H4)%Hreg. repeat split; try done.
      intros (e' & [= <-] & ?). congruence. }
  intros (m0 & c & (Hnd & Hq & Hw) & Hc & Hnew & Hquery & Hbad).
  rewrite Hc. repeat split.
  - apply NoDup_app. split; [done|]. split; [|apply NoDup_singleton].
    intros c' Hc' ->%list_elem_of_singleton. done.
  - intros c' [Hc'| ->%list_elem_of_singleton]%elem_of_app; [|done].
    destruct (Hq c' Hc') as (n & -> & _). eauto.
  - intros pre c' post H Hpost.
    apply snoc_split in H as [(-> & _)|(post' & _ & H)]; [done|].
    by eapply Hw.
  - intros _. eauto.
  - intros _. eauto.
Qed.

End Queries.

(** ** Which queries the initialisation issues *)

Section Resolution.

Variable K : Kernel.

Lemma parseIpsetConfig_name_hit i l n ipsets m set :
  well_formed n = true -> nameToIpset m !! n = Some set ->
  parseIpsetConfig_name K i l n ipsets m = (None, ipsets ++ [set], m).
Proof.
  intros (t & name & E)%well_formed_inv Hset.
  unfold parseIpsetConfig_name. rewrite E. simpl. by rewrite Hset.
Qed.

Lemma parseIpsetConfig_name_miss i l n ipsets m :
  well_formed n = true -> nameToIpset m !! n = None ->
  parseIpsetConfig_name K i l n ipsets m =
  match answer K (conn m) n with
  | inl err =>
      (Some (ErrGettingIpset i l n (ErrConn err)), ipsets,
       issue (queryOf n) m)
  | inr set =>
      if bool_decide (KeyType set = TypeIPAddr)
      then (None, ipsets ++ [set],
            set_nameToIpset (<[n := set]> (nameToIpset m))
              (issue (queryOf n) m))
      else (Some (ErrWrongType i l n), ipsets, issue (queryOf n) m)
  end.
Proof.
  intros (t & name & E)%well_formed_inv Hnone.
  unfold parseIpsetConfig_name, answer, queryOf. rewrite E. simpl.
  rewrite Hnone. destruct (k_GetSetByName K (conn m) _ _) as [err|set]; [done|].
  by destruct (bool_decide (KeyType set = TypeIPAddr)).
Qed.

Lemma parseIpsetConfig_name_ill_formed i l n ipsets m :
  well_formed n = false ->
  exists e, parseIpsetConfig_name K i l n ipsets m = (Some e, ipsets, m)
            /\ resolution_error e = false.
Proof.
  unfold parseIpsetConfig_name, well_formed.
  repeat (match goal with |- context [if negb ?b then _ else _] =>
                            destruct b; cbn [negb] end;
          try (intros _; eexists; split; reflexivity)).
  done.
Qed.

(** What holds before the parsing and is kept by the parsing of one
    identifier and by the loop over the hosts holds after the parsing. *)
Lemma parseIpsetConfig_from_preserves (P : manager -> Prop) :
  (forall i l n ipsets m, P m -> P (parseIpsetConfig_name K i l n ipsets m).2) ->
  (forall t m, P m -> P (set_domainToIpsets t m)) ->
  forall i lines m, P m -> P (parseIpsetConfig_from K i lines m).2.
Proof.
  intros Hname Hhost.
  assert (Hnames : forall i l names ipsets m,
             P m -> P (parseIpsetConfig_names K i l names ipsets m).2).
  { intros i l names. induction names as [|n names IH]; intros ipsets m Hm;
      simpl; [done|].
    specialize (Hname i l n ipsets m Hm).
    destruct (parseIpsetConfig_name K i l n ipsets m) as [[[e|] ipsets1] m1];
      [done|]. by apply IH. }
  assert (Hhosts : forall hosts ipsets m,
             P m -> P (parseIpsetConfig_hosts hosts ipsets m)).
  { intros hosts ipsets. induction hosts as [|h hosts IH]; intros m Hm; simpl;
      [done|]. by apply IH, Hhost. }
  intros i lines. revert i. induction lines as [|line lines IH]; intros i m Hm;
    simpl; [done|].
  assert (H1 : P (parseIpsetConfig_line K i line m).2).
  { unfold parseIpsetConfig_line.
    destruct (parseIpsetConfigLine line) as [[hosts names] [e|]]; [done|].
    specialize (Hnames i line names [] m Hm).
    destruct (parseIpsetConfig_names K i line names [] m)
      as [[[e|] ipsets] m1]; [done|]. by apply Hhosts. }
  destruct (parseIpsetConfig_line K i line m) as [[e|] m1]; [done|].
  by apply IH.
Qed.

(** The sets of the registry are the answers of the kernel. *)
Lemma from_kernel_later m m' extra :
  nameToIpset m' = nameToIpset m -> conn m' = conn m ++ extra ->
  from_kernel K m -> from_kernel K m'.
Proof.
  intros Hn Hc Hm n set Hset. rewrite Hn in Hset.
  destruct (Hm n set Hset) as (pre & post & Hconn & Ha).
  exists pre, (post ++ extra). rewrite Hc, Hconn, <- app_assoc. done.
Qed.

Lemma parseIpsetConfig_name_from_kernel i l n ipsets m :
  from_kernel K m -> from_kernel K (parseIpsetConfig_name K i l n ipsets m).2.
Proof.
  intros Hm. destruct (well_formed n) eqn:Hwf.
  2:{ by destruct (parseIpsetConfig_name_ill_formed i l n ipsets m Hwf)
        as (e & -> & _). }
  destruct (nameToIpset m !! n) as [set|] eqn:E.
  { by rewrite (parseIpsetConfig_name_hit i l n ipsets m set). }
  rewrite parseIpsetConfig_name_miss by done.
  destruct (answer K (conn m) n) as [err|set] eqn:Ea.
  { by apply (from_kernel_later m _ [queryOf n]). }
  destruct (bool_decide (KeyType set = TypeIPAddr));
    [|by apply (from_kernel_later m _ [queryOf n])].
  intros n' set'. simpl. destruct (decide (n = n')) as [<-|Hne].
  - rewrite lookup_insert_eq. intros [= <-]. by exists (conn m), [].
  - rewrite lookup_insert_ne by done. intros Hset.
    destruct (Hm n' set' Hset) as (pre & post & Hconn & Ha).
    exists pre, (post ++ [queryOf n]). rewrite Hconn, <- app_assoc. done.
Qed.

Lemma parseIpsetConfig_from_kernel i lines m :
  from_kernel K m -> from_kernel K (parseIpsetConfig_from K i lines m).2.
Proof.
  apply (parseIpsetConfig_from_preserves (from_kernel K)).
  - apply parseIpsetConfig_name_from_kernel.
  - intros t m0 Hm. by apply (from_kernel_later m0 _ []); [| rewrite app_nil_r|].
Qed.

(** The queries are those of the identifiers, each once, in the order in
    which the configuration names them first. *)
Lemma distinct_from_cons seen n rest :
  distinct_from seen (n :: rest)
  = distinct_from seen [n] ++ distinct_from ({[n]} ∪ seen) rest.
Proof.
  simpl. case_bool_decide as Hn; [|done].
  simpl. by replace ({[n]} ∪ seen) with seen by set_solver.
Qed.

Lemma distinct_from_app seen l1 l2 :
  distinct_from seen (l1 ++ l2)
  = distinct_from seen l1 ++ distinct_from (list_to_set l1 ∪ seen) l2.
Proof.
  revert seen. induction l1 as [|n l1 IH]; intros seen.
  - simpl. by replace (∅ ∪ seen) with seen by set_solver.
  - rewrite <- app_comm_cons, distinct_from_cons, IH.
    rewrite (distinct_from_cons seen n l1), <- app_assoc.
    do 3 f_equal. set_solver.
Qed.

Lemma elem_of_distinct_from seen names n :
  n ∈ distinct_from seen names <-> n ∈ names /\ n ∉ seen.
Proof.
  revert seen. induction names as [|x names IH]; intros seen; simpl.
  - set_solver.
  - case_bool_decide as Hx.
    + rewrite IH, elem_of_cons. split; [by intros [? ?]; split; [right|]|].
      intros [[->|?] ?]; done.
    + rewrite !elem_of_cons, IH, not_elem_of_union, not_elem_of_singleton.
      split.
      * intros [->|(? & ? & ?)]; split; auto.
      * intros [[->|?] ?]; [by left|].
        destruct (decide (n = x)) as [->|?]; [by left|by right].
Qed.

Lemma parseIpsetConfig_name_conn i l n ipsets m :
  ((parseIpsetConfig_name K i l n ipsets m).1.1 = None ->
   conn (parseIpsetConfig_name K i l n ipsets m).2
   = conn m ++ map queryOf (distinct_from (dom (nameToIpset m)) [n])
   /\ dom (nameToIpset (parseIpsetConfig_name K i l n ipsets m).2)
      = {[n]} ∪ dom (nameToIpset m))
  /\ conn (parseIpsetConfig_name K i l n ipsets m).2
     `prefix_of`
     conn m ++ map queryOf (distinct_from (dom (nameToIpset m)) [n]).
Proof.
  destruct (well_formed n) eqn:Hwf.
  2:{ destruct (parseIpsetConfig_name_ill_formed i l n ipsets m Hwf)
        as (e & -> & _). split; [done|]. by apply prefix_app_r. }
  destruct (nameToIpset m !! n) as [set|] eqn:E.
  { rewrite (parseIpsetConfig_name_hit i l n ipsets m set) by done.
    assert (Hin : n ∈ dom (nameToIpset m)) by (apply elem_of_dom; eauto).
    simpl. rewrite bool_decide_eq_true_2 by done. simpl. rewrite app_nil_r.
    split; [|done]. intros _. split; [done|]. set_solver. }
  assert (Hnot : n ∉ dom (nameToIpset m)) by (by apply not_elem_of_dom).
  rewrite parseIpsetConfig_name_miss by done.
  simpl. rewrite bool_decide_eq_false_2 by done. simpl.
  destruct (answer K (conn m) n) as [err|set]; [done|].
  destruct (bool_decide (KeyType set = TypeIPAddr)); [|done].
  simpl. split; [|done]. intros _. split; [done|]. by rewrite dom_insert_L.
Qed.

Lemma parseIpsetConfig_names_conn i l names ipsets m :
  ((parseIpsetConfig_names K i l names ipsets m).1.1 = None ->
   conn (parseIpsetConfig_names K i l names ipsets m).2
   = conn m ++ map queryOf (distinct_from (dom (nameToIpset m)) names)
   /\ dom (nameToIpset (parseIpsetConfig_names K i l names ipsets m).2)
      = list_to_set names ∪ dom (nameToIpset m))
  /\ conn (parseIpsetConfig_names K i l names ipsets m).2
     `prefix_of`
     conn m ++ map queryOf (distinct_from (dom (nameToIpset m)) names).
Proof.
  revert ipsets m. induction names as [|n names IH]; intros ipsets m.
  { simpl. rewrite app_nil_r. split; [|done]. intros _. split; [done|].
    set_solver. }
  rewrite distinct_from_cons, map_app, app_assoc. cbn [parseIpsetConfig_names].
  destruct (parseIpsetConfig_name_conn i l n ipsets m) as [H1 H2].
  destruct (parseIpsetConfig_name K i l n ipsets m) as [[[e|] ipsets1] m1];
    simpl in *.
  { split; [done|]. by apply prefix_app_r. }
  destruct (H1 eq_refl) as [Hc Hd]. rewrite <- Hc, <- Hd.
  destruct (IH ipsets1 m1) as [H3 H4]. split; [|done].
  intros Hnone. destruct (H3 Hnone) as [-> ->]. split; [done|]. set_solver.
Qed.

Lemma parseIpsetConfig_line_conn i line m :
  ((parseIpsetConfig_line K i line m).1 = None ->
   conn (parseIpsetConfig_line K i line m).2
   = conn m ++ map queryOf (distinct_from (dom (nameToIpset m))
                              (line_names line))
   /\ dom (nameToIpset (parseIpsetConfig_line K i line m).2)
      = list_to_set (line_names line) ∪ dom (nameToIpset m))
  /\ conn (parseIpsetConfig_line K i line m).2
     `prefix_of`
     conn m ++ map queryOf (distinct_from (dom (nameToIpset m))
                              (line_names line)).
Proof.
  unfold parseIpsetConfig_line, line_names.
  destruct (parseIpsetConfigLine line) as [[hosts names] [e|]]; simpl.
  { split; [done|]. by apply prefix_app_r. }
  destruct (parseIpsetConfig_names_conn i line names [] m) as [H1 H2].
  destruct (parseIpsetConfig_names K i line names [] m)
    as [[[e|] ipsets] m1]; simpl in *; [done|].
  destruct (parseIpsetConfig_hosts_registry hosts ipsets m1) as (-> & -> & _).
  done.
Qed.

Lemma parseIpsetConfig_from_conn i lines m :
  ((parseIpsetConfig_from K i lines m).1 = None ->
   conn (parseIpsetConfig_from K i lines m).2
   = conn m ++ map queryOf (distinct_from (dom (nameToIpset m))
                              (identifiers lines))
   /\ dom (nameToIpset (parseIpsetConfig_from K i lines m).2)
      = list_to_set (identifiers lines) ∪ dom (nameToIpset m))
  /\ conn (parseIpsetConfig_from K i lines m).2
     `prefix_of`
     conn m ++ map queryOf (distinct_from (dom (nameToIpset m))
                              (identifiers lines)).
Proof.
  revert i m. induction lines as [|line lines IH]; intros i m.
  { simpl. rewrite app_nil_r. split; [|done]. intros _. split; [done|].
    set_solver. }
  unfold identifiers. cbn [flat_map parseIpsetConfig_from].
  fold (identifiers lines).
  rewrite distinct_from_app, map_app, app_assoc.
  destruct (parseIpsetConfig_line_conn i line m) as [H1 H2].
  destruct (parseIpsetConfig_line K i line m) as [[e|] m1]; simpl in *.
  { split; [done|]. by apply prefix_app_r. }
  destruct (H1 eq_refl) as [Hc Hd]. rewrite <- Hc, <- Hd.
  destruct (IH (S i) m1) as [H3 H4]. split; [|done].
  intros Hnone. destruct (H3 Hnone) as [-> ->]. split; [done|].
  rewrite list_to_set_app_L. set_solver.
Qed.

End Resolution.

(** ** Malformed lines *)

Section Malformed.

Variable K : Kernel.

Lemma identifier_malformed_alt id :
  identifier_malformed id = blank id || negb (well_formed (TrimSpace id)).
Proof.
  unfold identifier_malformed, blank, well_formed.
  destruct (String.length (TrimSpace id) =? 0)%nat; [done|].
  destruct (length (Split (TrimSpace id) "#") =? 4)%nat; [|done].
  destruct (String.eqb (nth 0 (Split (TrimSpace id) "#") "") "4"); [|done].
  by destruct (String.eqb (nth 1 (Split (TrimSpace id) "#") "") "inet").
Qed.

Lemma parseIpsetConfig_name_resolves i l n ipsets m :
  (well_formed n = true -> answered_well K (conn m) (queryOf n) = true) ->
  (parseIpsetConfig_name K i l n ipsets m).1.1 = None <-> well_formed n = true.
Proof.
  unfold parseIpsetConfig_name, well_formed, answered_well, queryOf.
  repeat (match goal with |- context [if negb ?b then _ else _] =>
                            destruct b; cbn [negb] end; try done).
  intros Hq. specialize (Hq eq_refl).
  destruct (nameToIpset m !! n) as [set|]; [done|].
  destruct (k_GetSetByName K _ _ _) as [err|set]; [done|].
  by rewrite Hq.
Qed.

Lemma parseIpsetConfig_names_resolves i l names ipsets m :
  (forall n calls, n ∈ names -> well_formed n = true ->
                   answered_well K calls (queryOf n) = true) ->
  (parseIpsetConfig_names K i l names ipsets m).1.1 = None
  <-> forallb well_formed names = true.
Proof.
  revert ipsets m. induction names as [|n names IH]; intros ipsets m Hq; simpl;
    [done|].
  pose proof (parseIpsetConfig_name_resolves i l n ipsets m
                (Hq n (conn m) (list_elem_of_here _ _))) as H.
  destruct (parseIpsetConfig_name K i l n ipsets m) as [[[e|] ipsets1] m1];
    simpl in *.
  - destruct (well_formed n); [|done].
    destruct H as [_ H]. by specialize (H eq_refl).
  - destruct (well_formed n); [|by destruct H as [H _]; specialize (H eq_refl)].
    apply IH. intros n' calls Hn'. apply Hq. by apply list_elem_of_further.
Qed.

Lemma existsb_malformed ids :
  existsb blank ids = false ->
  existsb identifier_malformed ids
  = negb (forallb well_formed (map TrimSpace ids)).
Proof.
  induction ids as [|id ids IH]; [done|]. simpl.
  intros [Hb Hbs]%orb_false_elim. rewrite identifier_malformed_alt, Hb, IH by done.
  simpl. by destruct (well_formed (TrimSpace id)).
Qed.

Lemma parseIpsetConfig_line_resolves i line m :
  (forall n calls, n ∈ line_names line -> well_formed n = true ->
                   answered_well K calls (queryOf n) = true) ->
  (parseIpsetConfig_line K i line m).1 = None <-> line_malformed line = false.
Proof.
  unfold parseIpsetConfig_line, line_malformed, line_names.
  rewrite parseIpsetConfigLine_spec. intros Hq.
  destruct (negb (Count line "/" =? 1)%nat); [done|].
  destruct (existsb blank (Split (rightSide line) ",")) eqn:Eb.
  { simpl. split; [done|]. intros H. exfalso.
    apply existsb_exists in Eb as (id & Hin & Hb).
    assert (existsb identifier_malformed (Split (rightSide line) ",") = true);
      [|congruence].
    apply existsb_exists. exists id. split; [done|].
    by rewrite identifier_malformed_alt, Hb. }
  rewrite existsb_malformed by done. simpl in *.
  pose proof (parseIpsetConfig_names_resolves i line
                (map TrimSpace (Split (rightSide line) ",")) [] m Hq) as H.
  destruct (parseIpsetConfig_names K i line _ [] m) as [[[e|] ipsets] m1];
    simpl in *.
  - destruct (forallb well_formed _); [|done].
    destruct H as [_ H]. by specialize (H eq_refl).
  - destruct (forallb well_formed _); [done|].
    by destruct H as [H _]; specialize (H eq_refl).
Qed.

Lemma parseIpsetConfig_from_resolves i lines m :
  (forall line n calls, line ∈ lines -> n ∈ line_names line ->
                        well_formed n = true ->
                        answered_well K calls (queryOf n) = true) ->
  match (parseIpsetConfig_from K i lines m).1 with
  | None => Forall (fun l => line_malformed l = false) lines
  | Some e =>
      exists j line,
        named e = Some (i + j, line)
        /\ lines !! j = Some line
        /\ line_malformed line = true
        /\ Forall (fun l => line_malformed l = false) (take j lines)
  end.
Proof.
  revert i m. induction lines as [|line lines IH]; intros i m Hq; simpl;
    [done|].
  pose proof (parseIpsetConfig_line_resolves i line m
                (fun n calls => Hq line n calls (list_elem_of_here _ _))) as H.
  assert (Hq' : forall line n calls, line ∈ lines -> n ∈ line_names line ->
                  well_formed n = true ->
                  answered_well K calls (queryOf n) = true).
  { intros l n calls Hl. apply Hq. by apply list_elem_of_further. }
  destruct (parseIpsetConfig_line K i line m) as [[e|] m1] eqn:E; simpl in *.
  - exists 0, line. rewrite Nat.add_0_r.
    split; [by eapply parseIpsetConfig_line_named|]. split; [done|].
    split; [|done]. destruct (line_malformed line); [done|].
    by destruct H as [_ H]; specialize (H eq_refl).
  - destruct H as [H _]. specialize (H eq_refl). specialize (IH (S i) m1 Hq').
    destruct (parseIpsetConfig_from K (S i) lines m1) as [[e|] m2]; simpl in *.
    + destruct IH as (j & l & Hn & Hl & Hm & Hall).
      exists (S j), l. rewrite Nat.add_succ_r. simpl. repeat split; try done.
      by constructor.
    + by constructor.
Qed.

End Malformed.

(** Whatever the kernel does, an error of [parseIpsetConfig] names a line
    of the configuration by its index and its text. *)
Lemma parseIpsetConfig_error_named (K : Kernel) (lines : list string)
  (m m' : manager) (e : error) :
  parseIpsetConfig K lines m = (Some e, m') ->
  exists i line, named e = Some (i, line) /\ lines !! i = Some line.
Proof.
  intros H. apply parseIpsetConfig_from_named in H as (j & line & Hn & Hl).
  eauto.
Qed.

(** C4, for a kernel that resolves. With a kernel that gives a connection
    and in which every set that the configuration refers to resolves to a
    set of IPv4 addresses, [newManager] fails
    with an error that names a line by its index and its text exactly when
    a line of the configuration is malformed: it does not have exactly one
    ['/'], or an identifier of its right side trims to nothing, does not
    have four fields between ['#'], or has a first field other than ["4"]
    or a second other than ["inet"]. The line named is then the first
    malformed one.
    The hosts of a line that is not malformed are the pieces of its left
    side between commas, trimmed and in lower case, and its identifiers the
    pieces of its right side, trimmed. *)
Theorem config_errors_name_the_line (K : Kernel) (lines : list string) :
  resolves K lines ->
  (fails_naming_line K lines <->
   Exists (fun l => line_malformed l = true) lines)
  /\ (forall e,
        (newManager K lines).1.2 = Some e ->
        exists i line e',
          e = ErrIpset (ErrParsingConfig e')
          /\ named e' = Some (i, line)
          /\ lines !! i = Some line
          /\ line_malformed line = true
          /\ Forall (fun l => line_malformed l = false) (take i lines))
  /\ (forall line,
        line_malformed line = false ->
        parseIpsetConfigLine line =
        (map (fun h => ToLower (TrimSpace h)) (Split (leftSide line) ","),
         map TrimSpace (Split (rightSide line) ","), None)).
Proof.
  intros HK.
  pose proof (parseIpsetConfig_from_resolves K 0 lines fresh (proj2 HK)) as H.
  assert (Hnew : (newManager K lines).1.2 =
                 match (parseIpsetConfig_from K 0 lines fresh).1 with
                 | Some e => Some (ErrIpset (ErrParsingConfig e))
                 | None => None
                 end).
  { unfold newManager, parseIpsetConfig. destruct HK as [-> _].
    by destruct (parseIpsetConfig_from K 0 lines fresh) as [[e|] m]. }
  split; [|split].
  - unfold fails_naming_line. rewrite Hnew.
    destruct (parseIpsetConfig_from K 0 lines fresh).1 as [e|]; split.
    + intros _. destruct H as (j & line & _ & Hl & Hm & _).
      apply Exists_exists. exists line. split; [|done].
      by eapply list_elem_of_lookup_2.
    + intros _. destruct H as (j & line & Hn & Hl & _). eauto 10.
    + by intros (i & line & e & ? & _).
    + intros Hex. apply Exists_exists in Hex as (line & Hin & Hm).
      rewrite Forall_forall in H. rewrite (H _ Hin) in Hm. done.
  - intros e. rewrite Hnew.
    destruct (parseIpsetConfig_from K 0 lines fresh).1 as [e'|]; [|done].
    intros [= <-]. destruct H as (j & line & Hn & Hl & Hm & Hall). eauto 10.
  - intros line Hm. unfold line_malformed in Hm.
    apply orb_false_elim in Hm as [Hc Hids].
    rewrite parseIpsetConfigLine_spec, Hc.
    destruct (existsb blank (Split (rightSide line) ",")) eqn:Eb; [|done].
    exfalso. apply existsb_exists in Eb as (id & Hin & Hb).
    assert (existsb identifier_malformed (Split (rightSide line) ",") = true);
      [|congruence].
    apply existsb_exists. exists id. split; [done|].
    by rewrite identifier_malformed_alt, Hb.
Qed.

(** C4 without that proviso does not hold: with a kernel that has no set,
    the one line ["example.com/4#inet#t#s"], which is not malformed, makes
    [newManager] fail with an error that names index 0 and the line. *)
Lemma config_error_without_malformed_line :
  ~ (forall K lines,
       fails_naming_line K lines <->
       Exists (fun l => line_malformed l = true) lines).
Proof.
  intros H.
  destruct (H kernel_without_sets ["example.com/4#inet#t#s"]) as [H1 _].
  assert (Hf : fails_naming_line kernel_without_sets ["example.com/4#inet#t#s"]).
  { exists 0, "example.com/4#inet#t#s",
      (ErrGettingIpset 0 "example.com/4#inet#t#s" "4#inet#t#s"
         (ErrConn "no such set")).
    repeat split. }
  apply H1, Exists_exists in Hf as (line & Hin & Hm).
  apply list_elem_of_singleton in Hin as ->. vm_compute in Hm. discriminate.
Qed.

(** ** When the initialisation fails on a resolution *)

Section Failure.

Variable K : Kernel.

(** In a line that is not malformed, only a resolution fails. *)
Lemma parseIpsetConfig_names_error_kind i l names ipsets m e :
  forallb well_formed names = true ->
  (parseIpsetConfig_names K i l names ipsets m).1.1 = Some e ->
  resolution_error e = true.
Proof.
  revert ipsets m. induction names as [|n names IH]; intros ipsets m; simpl;
    [done|].
  intros [Hwf Hall]%andb_prop.
  destruct (nameToIpset m !! n) as [set|] eqn:E.
  { rewrite (parseIpsetConfig_name_hit K i l n ipsets m set) by done.
    by apply IH. }
  rewrite parseIpsetConfig_name_miss by done.
  destruct (answer K (conn m) n) as [err|set]; [by intros [= <-]|].
  destruct (bool_decide (KeyType set = TypeIPAddr)); [|by intros [= <-]].
  by apply IH.
Qed.

Lemma parseIpsetConfig_line_error_kind i line m e :
  line_malformed line = false ->
  (parseIpsetConfig_line K i line m).1 = Some e ->
  resolution_error e = true.
Proof.
  unfold parseIpsetConfig_line, line_malformed.
  rewrite parseIpsetConfigLine_spec.
  intros [Hc Hids]%orb_false_elim. rewrite Hc.
  destruct (existsb blank (Split (rightSide line) ",")) eqn:Eb.
  { exfalso. apply existsb_exists in Eb as (id & Hin & Hb).
    assert (existsb identifier_malformed (Split (rightSide line) ",") = true);
      [|congruence].
    apply existsb_exists. exists id. split; [done|].
    by rewrite identifier_malformed_alt, Hb. }
  rewrite existsb_malformed in Hids by done.
  apply negb_false_iff in Hids.
  pose proof (parseIpsetConfig_names_error_kind i line
                (map TrimSpace (Split (rightSide line) ",")) [] m) as H.
  destruct (parseIpsetConfig_names K i line _ [] m) as [[[e'|] ipsets] m1];
    simpl in *; [|done].
  intros [= <-]. by apply H.
Qed.

Lemma parseIpsetConfig_from_error_kind i lines m e :
  Forall (fun l => line_malformed l = false) lines ->
  (parseIpsetConfig_from K i lines m).1 = Some e ->
  resolution_error e = true.
Proof.
  intros Hall. revert i m. induction Hall as [|line lines Hl _ IH];
    intros i m; simpl; [done|].
  pose proof (parseIpsetConfig_line_error_kind i line m) as H.
  destruct (parseIpsetConfig_line K i line m) as [[e'|] m1]; simpl in *.
  - intros [= <-]. by apply H.
  - apply IH.
Qed.

(** With answers that do not depend on the calls made before, the queries
    of a list are answered well when each of them is. *)
Lemma well_answered_alone calls :
  (forall calls1 calls2 t name,
      k_GetSetByName K calls1 t name = k_GetSetByName K calls2 t name) ->
  well_answered K calls <->
  forall c, c ∈ calls -> answered_well K [] c = true.
Proof.
  intros Hind.
  assert (H : forall pre c, answered_well K pre c = answered_well K [] c).
  { intros pre [t name| |]; simpl; [|done..]. by rewrite (Hind pre []). }
  split.
  - intros Hw c (pre & post & ->)%list_elem_of_split.
    rewrite <- (H pre). by eapply Hw.
  - intros Hall pre c post ->. rewrite H. apply Hall.
    apply elem_of_app. right. apply list_elem_of_here.
Qed.

End Failure.

(** C5. [newManager] issues one query for every identifier of the
    configuration, in the order in which the configuration names them
    first, until one of them fails: an identifier that is in the registry is
    taken from it without a call, and one that is not is asked of the
    kernel, registered if the answer is a set of IPv4 addresses, and the
    resolution fails if the kernel reports an error or the set has another
    key type. When [newManager] gives a manager, the calls are these queries
    and every set of the registry is the answer of the kernel to the query
    of its identifier. In a configuration without a malformed line,
    [newManager] gives a manager exactly when all these queries are
    answered with sets of IPv4 addresses, and fails on a resolution if not;
    with a kernel whose answers do not depend on the calls made before:
    exactly when every set that the configuration names exists and holds
    IPv4 addresses. *)
Theorem queries_once (K : Kernel) (lines : list string) (r : option manager)
  (err : option error) (calls : list call) :
  newManager K lines = (r, err, calls) ->
  NoDup calls
  /\ (forall c, c ∈ calls ->
        exists line n, line ∈ lines /\ n ∈ line_names line /\ c = queryOf n)
  /\ (forall i l n ipsets m set,
        well_formed n = true -> nameToIpset m !! n = Some set ->
        parseIpsetConfig_name K i l n ipsets m = (None, ipsets ++ [set], m))
  /\ (forall i l n ipsets m,
        well_formed n = true -> nameToIpset m !! n = None ->
        parseIpsetConfig_name K i l n ipsets m =
        match answer K (conn m) n with
        | inl e =>
            (Some (ErrGettingIpset i l n (ErrConn e)), ipsets,
             issue (queryOf n) m)
        | inr set =>
            if bool_decide (KeyType set = TypeIPAddr)
            then (None, ipsets ++ [set],
                  set_nameToIpset (<[n := set]> (nameToIpset m))
                    (issue (queryOf n) m))
            else (Some (ErrWrongType i l n), ipsets, issue (queryOf n) m)
        end)
  /\ calls `prefix_of` map queryOf (distinct (identifiers lines))
  /\ (forall m, r = Some m ->
        calls = map queryOf (distinct (identifiers lines))
        /\ dom (nameToIpset m) = list_to_set (identifiers lines)
        /\ forall n set, nameToIpset m !! n = Some set ->
             KeyType set = TypeIPAddr
             /\ exists pre post, calls = pre ++ queryOf n :: post
                                 /\ answer K pre n = inr set)
  /\ (forall pre c post, calls = pre ++ c :: post -> post <> [] ->
        answered_well K pre c = true)
  /\ ((exists e, err = Some (ErrIpset (ErrParsingConfig e))
                 /\ resolution_error e = true) <->
      exists pre c, calls = pre ++ [c] /\ answered_well K pre c = false)
  /\ (k_New K = None ->
      Forall (fun l => line_malformed l = false) lines ->
      (is_Some r <->
       well_answered K (map queryOf (distinct (identifiers lines))))
      /\ ((forall calls1 calls2 t name,
              k_GetSetByName K calls1 t name = k_GetSetByName K calls2 t name) ->
          (is_Some r <->
           forall n, n ∈ identifiers lines ->
                     answered_well K [] (queryOf n) = true))
      /\ (r = None ->
          exists e, err = Some (ErrIpset (ErrParsingConfig e))
                    /\ resolution_error e = true)).
Proof.
  intros Hnew.
  split; [|split; [|split; [apply parseIpsetConfig_name_hit|
                            split; [apply parseIpsetConfig_name_miss|]]]].
  (* the two statements on the calls that the claim had at first *)
  1,2: unfold newManager in Hnew; destruct (k_New K) as [e0|];
    [injection Hnew as <- <- <-|].
  - constructor.
  - pose proof (parseIpsetConfig_from_parsed K 0 lines fresh
                  (queries_registered_fresh K)) as Hp.
    unfold parseIpsetConfig in Hnew.
    destruct (parseIpsetConfig_from K 0 lines fresh) as [[e|] m'];
      injection Hnew as <- <- <-; by apply parsed_calls in Hp as (H1 & _).
  - intros c Hc. set_solver.
  - intros c Hc. unfold parseIpsetConfig in Hnew.
    assert (Hin : c ∈ conn (parseIpsetConfig_from K 0 lines fresh).2).
    { by destruct (parseIpsetConfig_from K 0 lines fresh) as [[e|] m'];
        injection Hnew as <- <- <-. }
    apply parseIpsetConfig_from_calls in Hin as [Hin|Hin]; [|done].
    simpl in Hin. set_solver.
  - (* the queries, the registry and the failures *)
    pose proof (parseIpsetConfig_from_conn K 0 lines fresh) as [Hok Hpre].
    pose proof (parseIpsetConfig_from_parsed K 0 lines fresh
                  (queries_registered_fresh K)) as Hp.
    pose proof (parsed_calls K _ _ Hp) as (_ & _ & H3 & H4).
    pose proof (parseIpsetConfig_from_kernel K 0 lines fresh) as Hfk.
    pose proof (parseIpsetConfig_from_error_kind K 0 lines fresh) as Hkind.
    simpl in Hok, Hpre. rewrite dom_empty_L in Hok, Hpre.
    fold (distinct (identifiers lines)) in Hok, Hpre.
    unfold newManager, parseIpsetConfig in Hnew.
    destruct (k_New K) as [e0|] eqn:Enew.
    { injection Hnew as <- <- <-.
      split; [apply prefix_nil|]. split; [done|].
      split; [intros pre c post H; by destruct pre|].
      split; [split; [by intros (e & [= ] & _)|
                      intros (pre & c & H & _); by destruct pre]|].
      done. }
    destruct (parseIpsetConfig_from K 0 lines fresh) as [[e|] m'] eqn:Ep;
      injection Hnew as <- <- <-; simpl in *.
    + (* the parsing failed *)
      clear Hp.
      split; [done|]. split; [done|]. split; [done|]. split.
      { split.
        - intros (e' & [= <-] & He). apply H4. eauto.
        - intros H. apply H4 in H as (e' & [= <-] & He). eauto. }
      intros _ Hall. specialize (Hkind e Hall eq_refl).
      assert (Hbad : ~ well_answered K
                        (map queryOf (distinct (identifiers lines)))).
      { intros Hw. destruct H4 as [H4 _].
        destruct H4 as (pre & c & Hc & Hf); [eauto|].
        destruct Hpre as [post Hpost]. rewrite Hc, <- app_assoc in Hpost.
        rewrite (Hw _ _ _ Hpost) in Hf. done. }
      split; [|split].
      * split; [by intros [? ?]|done].
      * intros Hind. split; [by intros [? ?]|]. intros Hall'. destruct Hbad.
        apply well_answered_alone; [done|].
        intros c (n & -> & Hn)%list_elem_of_fmap_1.
        apply Hall'. unfold distinct in Hn.
        by apply elem_of_distinct_from in Hn as [Hn _].
      * intros _. eauto.
    + (* the parsing went through *)
      destruct (Hok eq_refl) as [Hc Hd].
      rewrite union_empty_r_L in Hd.
      destruct Hp as (Hnd & Hq & Hw).
      split; [by rewrite Hc|]. split.
      { intros m [= <-]. split; [done|]. split; [done|].
        intros n set Hset.
        assert (Hfresh : from_kernel K fresh).
        { intros n0 set0 H0. simpl in H0. by rewrite lookup_empty in H0. }
        destruct (Hfk Hfresh n set Hset) as (pre & post & Hconn & Ha).
        split; [|eauto].
        pose proof (Hw _ _ _ Hconn) as Hwell.
        unfold answered_well, queryOf in Hwell. unfold answer in Ha.
        rewrite Ha in Hwell. by apply bool_decide_eq_true_1 in Hwell. }
      split; [intros pre c post H _; by eapply Hw|].
      split.
      { split; [by intros (e' & ? & _)|].
        intros (pre & c & H & Hf). rewrite (Hw _ _ _ H) in Hf. done. }
      intros _ Hall. rewrite <- Hc. split; [|split].
      * split; [done|by eexists].
      * intros Hind. split; [|by eexists]. intros _ n Hn.
        change (answered_well K [] (queryOf n) = true).
        apply (proj1 (well_answered_alone K (conn m') Hind) Hw).
        rewrite Hc. apply list_elem_of_fmap_2. unfold distinct.
        apply elem_of_distinct_from. split; [done|set_solver].
      * done.
Qed.

(** ** What the table holds after the initialisation *)

Lemma Forall2_omap_registered (r : gmap string Set_) names :
  Forall (fun n => is_Some (r !! n)) names ->
  Forall2 (fun n set => r !! n = Some set) names
          (omap (fun n => r !! n) names).
Proof.
  induction 1 as [|n names [set Hn] _ IH]; csimpl; [constructor|].
  rewrite Hn. simpl. by constructor.
Qed.

(** Every set of the registry of [newManager] is the answer of the kernel
    to the query of its identifier, and holds IPv4 addresses. *)
Lemma newManager_registry K lines m calls :
  newManager K lines = (Some m, None, calls) ->
  forall n set, nameToIpset m !! n = Some set ->
    KeyType set = TypeIPAddr
    /\ exists pre post, calls = pre ++ queryOf n :: post
                        /\ answer K pre n = inr set.
Proof.
  intros H n set Hset. apply newManager_ok in H as (_ & H & ->).
  unfold parseIpsetConfig in H.
  pose proof (parseIpsetConfig_from_parsed K 0 lines fresh
                (queries_registered_fresh K)) as Hp.
  pose proof (parseIpsetConfig_from_kernel K 0 lines fresh) as Hfk.
  rewrite H in Hp, Hfk. destruct Hp as (_ & _ & Hw).
  assert (Hfresh : from_kernel K fresh).
  { intros n0 set0 H0. simpl in H0. by rewrite lookup_empty in H0. }
  destruct (Hfk Hfresh n set Hset) as (pre & post & Hconn & Ha).
  split; [|eauto].
  pose proof (Hw _ _ _ Hconn) as Hwell.
  unfold answered_well, queryOf in Hwell. unfold answer in Ha.
  rewrite Ha in Hwell. by apply bool_decide_eq_true_1 in Hwell.
Qed.

(** The table has an entry for the hosts of the lines, and for them only. *)
Lemma parseIpsetConfig_from_hosts K lines m :
  parseIpsetConfig_from K 0 lines fresh = (None, m) ->
  forall d, is_Some (domainToIpsets m !! d) <->
            exists line, line ∈ lines /\ d ∈ line_hosts line.
Proof.
  intros H d.
  pose proof (parseIpsetConfig_from_nonempty K 0 lines fresh) as Hne.
  rewrite H in Hne. specialize (Hne (map_Forall_empty _)). simpl in Hne.
  apply parseIpsetConfig_from_ok in H as (Hall & Heq). specialize (Heq d).
  unfold index_slices in Heq. simpl in Heq. rewrite lookup_empty in Heq.
  simpl in Heq. split.
  - intros [sets Hs]. rewrite Hs in Heq. simpl in Heq.
    specialize (Hne _ _ Hs). simpl in Hne.
    destruct sets as [|x sets]; [done|].
    assert (Hx : In x (flat_map (contribution m d) lines)).
    { rewrite <- Heq. by left. }
    apply in_flat_map in Hx as (line & Hl & Hx).
    unfold contribution in Hx.
    apply in_flat_map in Hx as (h & Hh & Hx).
    destruct (decide (h = d)) as [->|]; [|done].
    exists line. split; by apply list_elem_of_In.
  - intros (line & Hl & Hd).
    pose proof (proj1 (Forall_forall _ _) Hall line Hl) as (Hp & _ & Hreg).
    destruct (line_names_not_nil line Hp) as [Hnames _].
    assert (Hx : exists x, In x (line_sets m line)).
    { unfold line_sets. destruct Hreg as [|n names [set Hn] _]; [done|].
      exists set. csimpl. rewrite Hn. by left. }
    destruct Hx as [x Hx].
    assert (Hin : In x (flat_map (contribution m d) lines)).
    { apply in_flat_map. exists line. split; [by apply list_elem_of_In|].
      unfold contribution. apply in_flat_map. exists d.
      split; [by apply list_elem_of_In|]. by rewrite decide_True. }
    rewrite <- Heq in Hin.
    destruct (domainToIpsets m !! d) as [sets|]; [by eexists|done].
Qed.

(** C9. When [newManager] gives a manager, every line of the configuration
    has parsed, and each of its identifiers is registered with the set that
    the kernel answered to its query, a set of IPv4 addresses: these are the
    sets of the line. The entry of a domain is the concatenation, in the
    order of the lines, of the sets of every line that has the domain among
    its hosts (once for each time the line lists it): the sets of a line
    are appended to what earlier lines registered and never replace it. The
    table has an entry for the hosts of the lines and for nothing else.
    [Add] never changes the table, whatever the manager. *)
Theorem table_is_additive (K : Kernel) (lines : list string) (m : manager)
  (calls : list call) :
  newManager K lines = (Some m, None, calls) ->
  Forall (fun line =>
            (parseIpsetConfigLine line).2 = None
            /\ Forall2 (fun n set =>
                          nameToIpset m !! n = Some set
                          /\ KeyType set = TypeIPAddr
                          /\ exists pre post,
                               calls = pre ++ queryOf n :: post
                               /\ answer K pre n = inr set)
                       (line_names line) (line_sets m line)) lines
  /\ (forall d, index_slices (domainToIpsets m) d
                = flat_map (contribution m d) lines)
  /\ (forall d, is_Some (domainToIpsets m !! d) <->
                exists line, line ∈ lines /\ d ∈ line_hosts line)
  /\ (forall host ip4s ip6s m0,
        domainToIpsets (Add K host ip4s ip6s m0).2 = domainToIpsets m0).
Proof.
  intros Hnew. pose proof (newManager_registry K lines m calls Hnew) as Hreg.
  apply newManager_ok in Hnew as (_ & H & _). unfold parseIpsetConfig in H.
  split; [|split; [|split]].
  - apply parseIpsetConfig_from_ok in H as (Hall & _).
    eapply Forall_impl; [exact Hall|]. intros line (Hp & _ & Hnames).
    split; [done|]. unfold line_sets.
    eapply Forall2_impl; [by apply Forall2_omap_registered|].
    intros n set Hn. split; [done|]. by apply Hreg.
  - intros d. apply parseIpsetConfig_from_ok in H as (_ & H). by rewrite H.
  - by apply (parseIpsetConfig_from_hosts K).
  - intros host ip4s ip6s m0.
    by destruct (Add_evolves K host ip4s ip6s m0) as (_ & -> & _).
Qed.

(** ** Sets are registered under their own name *)

Section Registered.

Variable K : Kernel.
Hypothesis HK : faithful K.

Lemma well_formed_ipsetNameOf n set :
  well_formed n = true ->
  SetTable set = {| TableName := nth 2 (Split n "#") "";
                    Family := TableFamilyINet |} ->
  Name set = nth 3 (Split n "#") "" ->
  ipsetNameOf set = n.
Proof.
  intros (t & name & E)%well_formed_inv Ht Hn. unfold ipsetNameOf.
  rewrite Ht, Hn. transitivity (Join (Split n "#") "#"); [|apply Join_Split].
  by rewrite E.
Qed.

Lemma parseIpsetConfig_name_registered i l n ipsets m :
  (forall n set, nameToIpset m !! n = Some set ->
                 ipsetNameOf set = n /\ KeyType set = TypeIPAddr) ->
  Forall (fun s => nameToIpset m !! ipsetNameOf s = Some s) ipsets ->
  let r := parseIpsetConfig_name K i l n ipsets m in
  (forall n set, nameToIpset r.2 !! n = Some set ->
                 ipsetNameOf set = n /\ KeyType set = TypeIPAddr)
  /\ (r.1.1 = None ->
      Forall (fun s => nameToIpset r.2 !! ipsetNameOf s = Some s) r.1.2).
Proof.
  intros Hreg Hall. unfold parseIpsetConfig_name.
  destruct (well_formed n) eqn:Hwf.
  2:{ unfold well_formed in Hwf.
      repeat (match goal with |- context [if negb ?b then _ else _] =>
                                destruct b; cbn [negb] end; try done). }
  pose proof Hwf as Hwf'. unfold well_formed in Hwf'.
  apply andb_prop in Hwf' as [Hwf' H1]. apply andb_prop in Hwf' as [Hl H0].
  rewrite Hl, H0, H1. cbn [negb].
  destruct (nameToIpset m !! n) as [set|] eqn:E.
  { simpl. split; [done|]. intros _. apply Forall_app. split; [done|].
    constructor; [|done]. destruct (Hreg _ _ E) as [-> _]. done. }
  destruct (k_GetSetByName K _ _ _) as [err|set] eqn:Ek; [done|].
  case_bool_decide as Ht; cbn [negb]; [|done].
  destruct (HK _ _ _ _ Ek) as [Hst Hsn].
  pose proof (well_formed_ipsetNameOf n set Hwf Hst Hsn) as Hname.
  simpl. split.
  - intros n' set'. destruct (decide (n = n')) as [<-|Hne].
    + rewrite lookup_insert_eq. by intros [= <-].
    + rewrite lookup_insert_ne by done. apply Hreg.
  - intros _. apply Forall_app. split.
    + eapply Forall_impl; [exact Hall|]. intros s Hs. simpl in *.
      destruct (decide (n = ipsetNameOf s)) as [Heq|Hne]; [congruence|].
      by rewrite lookup_insert_ne.
    + constructor; [|done]. by rewrite Hname, lookup_insert_eq.
Qed.

Lemma parseIpsetConfig_names_registered i l names ipsets m :
  (forall n set, nameToIpset m !! n = Some set ->
                 ipsetNameOf set = n /\ KeyType set = TypeIPAddr) ->
  Forall (fun s => nameToIpset m !! ipsetNameOf s = Some s) ipsets ->
  let r := parseIpsetConfig_names K i l names ipsets m in
  (forall n set, nameToIpset r.2 !! n = Some set ->
                 ipsetNameOf set = n /\ KeyType set = TypeIPAddr)
  /\ (r.1.1 = None ->
      Forall (fun s => nameToIpset r.2 !! ipsetNameOf s = Some s) r.1.2).
Proof.
  revert ipsets m. induction names as [|n names IH]; intros ipsets m Hreg Hall;
    simpl; [done|].
  pose proof (parseIpsetConfig_name_registered i l n ipsets m Hreg Hall) as H.
  destruct (parseIpsetConfig_name K i l n ipsets m) as [[[e|] ipsets1] m1];
    simpl in *; [by destruct H|].
  destruct H as [H1 H2]. apply IH; auto.
Qed.

Lemma parseIpsetConfig_hosts_registered hosts ipsets m :
  Forall (fun s => nameToIpset m !! ipsetNameOf s = Some s) ipsets ->
  registered_by_name m ->
  registered_by_name (parseIpsetConfig_hosts hosts ipsets m).
Proof.
  intros Hall. revert m Hall. induction hosts as [|h hosts IH];
    intros m Hall Hm; simpl; [done|].
  apply IH; [done|]. destruct Hm as [H1 H2]. split; [done|]. simpl.
  intros d sets set. destruct (decide (h = d)) as [->|Hne].
  - rewrite lookup_insert_eq. intros [= <-].
    intros [Hin|Hin]%elem_of_app.
    + unfold index_slices in Hin.
      destruct (domainToIpsets m !! d) as [old|] eqn:E; [|set_solver].
      by eapply H2.
    + rewrite Forall_forall in Hall. by apply Hall.
  - rewrite lookup_insert_ne by done. apply H2.
Qed.

Lemma parseIpsetConfig_line_registered i line m :
  registered_by_name m ->
  registered_by_name (parseIpsetConfig_line K i line m).2.
Proof.
  intros [H1 H2]. unfold parseIpsetConfig_line.
  destruct (parseIpsetConfigLine line) as [[hosts names] [e|]]; [done|].
  pose proof (parseIpsetConfig_names_registered i line names [] m H1
                (Forall_nil_2 _)) as [H3 H4].
  pose proof (parseIpsetConfig_names_registers K i line names [] m)
    as [(Hsub & _) Hd].
  destruct (parseIpsetConfig_names K i line names [] m) as [[[e|] ipsets] m1];
    simpl in *.
  - split; [done|]. rewrite Hd. intros d sets set Hs Hin.
    eapply lookup_weaken; [by eapply H2|done].
  - apply parseIpsetConfig_hosts_registered; [by apply H4|].
    split; [done|]. rewrite Hd. intros d sets set Hs Hin.
    eapply lookup_weaken; [by eapply H2|done].
Qed.

Lemma parseIpsetConfig_from_registered i lines m :
  registered_by_name m ->
  registered_by_name (parseIpsetConfig_from K i lines m).2.
Proof.
  revert i m. induction lines as [|line lines IH]; intros i m Hm; simpl;
    [done|].
  pose proof (parseIpsetConfig_line_registered i line m Hm) as H.
  destruct (parseIpsetConfig_line K i line m) as [[e|] m1]; [done|].
  by apply IH.
Qed.

(** With a faithful kernel, every state of a running manager has its sets
    registered by name; in particular they all hold IPv4 addresses. *)
Lemma running_registered m : running K m -> registered_by_name m.
Proof.
  induction 1 as [lines m calls H|m host ip4s ip6s _ IH].
  - apply newManager_ok in H as (_ & H & _).
    pose proof (parseIpsetConfig_from_registered 0 lines fresh) as Hr.
    unfold parseIpsetConfig in H. rewrite H in Hr. apply Hr.
    split; simpl; intros *; by rewrite lookup_empty.
  - destruct (Add_evolves K host ip4s ip6s m) as (Hn & Hd & _).
    unfold registered_by_name. by rewrite Hn, Hd.
Qed.

(** With its set registered, [addIPs] returns. *)
Lemma addIPs_returns host set set' ips m :
  nameToIpset m !! ipsetNameOf set = Some set' ->
  exists r, (addIPs K host set ips m).1 = Returns r.
Proof.
  intros Hreg. unfold addIPs. destruct (length ips =? 0)%nat; [by eexists|].
  pose proof (addIPs_collect_name set ips m) as Hname.
  destruct (addIPs_collect set ips m) as [elements entries]. simpl in Hname.
  destruct (length elements =? 0)%nat; [by eexists|].
  destruct (k_SetAddElements K _ _ _); [by eexists|].
  destruct (k_Flush K _); [by eexists|].
  rewrite (addIPs_record_registered entries _ (ipsetNameOf set) set');
    [by eexists|done..].
Qed.

Lemma addToSets_loop_returns host ip4s ip6s sets n m :
  Forall (fun s => is_Some (nameToIpset m !! ipsetNameOf s)) sets ->
  exists r, (addToSets_loop K host ip4s ip6s sets n m).1 = Returns r.
Proof.
  intros Hall. revert n m Hall.
  induction sets as [|set sets IH]; intros n m Hall; simpl; [by eexists|].
  apply Forall_cons in Hall as [[set' Hset] Hall].
  destruct (KeyType set); [|by apply IH|by eexists].
  destruct (addIPs_returns host set set' ip4s m Hset) as [[nn err] Hr].
  destruct (addIPs_evolves K host set ip4s m) as (Hn & _).
  destruct (addIPs K host set ip4s m) as [[[nn' [err'|]]|] m1]; simpl in *;
    [by eexists| |done].
  apply IH. by rewrite Hn.
Qed.

(** With a faithful kernel, [Add] on a running manager returns: the [nil]
    pointer of [addIPs] is never met. *)
Lemma running_Add_returns m host ip4s ip6s :
  running K m -> exists r, (Add K host ip4s ip6s m).1 = Returns r.
Proof.
  intros [_ Htable]%running_registered. unfold Add, lookupHost.
  destruct (lookupHost_loop_entry (domainToIpsets m) 0 host) as [->|[k Hk]];
    [by eexists|].
  destruct (length _ =? 0)%nat; [by eexists|].
  apply addToSets_loop_returns, Forall_forall. intros set Hin.
  rewrite (Htable _ _ _ Hk Hin). eauto.
Qed.

End Registered.

(** ** The properties on the example configuration *)

Lemma example_manager_running : running example_kernel example_manager.
Proof.
  apply (running_new _ example_lines _ (conn example_manager)).
  vm_compute. reflexivity.
Defined.

Lemma kernel_with_one_set_resolves :
  resolves kernel_with_one_set
    ["example.com/4#inet#t#s"; "example.net/6#inet#t#s"].
Proof.
  split; [reflexivity|]. intros line n calls Hl Hn Hwf.
  apply list_elem_of_In in Hl. apply list_elem_of_In in Hn.
  destruct Hl as [<-|[<-|[]]]; vm_compute in Hn;
    destruct Hn as [<-|[]]; [reflexivity|].
  vm_compute in Hwf. discriminate.
Defined.

Example lookupHost_benchmark_long :
  lookupHost benchmark_manager
    "a.very.long.domain.name.inside.the.domain.example.com" = [mySet].
Proof. vm_compute. reflexivity. Qed.

Example lookupHost_benchmark_short :
  lookupHost benchmark_manager "example.net" = [otherSet].
Proof. vm_compute. reflexivity. Qed.

Example newManager_example_calls :
  (newManager example_kernel example_lines).2
  = [GetSetByName myTable "mySet"; GetSetByName myTable "tmpSet";
     GetSetByName myTable "otherSet"].
Proof. vm_compute. reflexivity. Qed.

Example newManager_IPv6_identifier :
  (newManager example_kernel ["example.com/6#inet#t#s"]).1
  = (None,
     Some (ErrIpset (ErrParsingConfig
             (ErrOnlyIPv4 0 "example.com/6#inet#t#s" "6#inet#t#s")))).
Proof. vm_compute. reflexivity. Qed.

Example To4_of_mapped_address :
  To4 (v4InV6Prefix ++ ip_1_2_3_4) = Some ip_1_2_3_4
  /\ To16 ip_1_2_3_4 = Some (v4InV6Prefix ++ ip_1_2_3_4)
  /\ To4 ip_v6 = None.
Proof. repeat split. Qed.


Lemma lookupHost_first_match_witness :
  lookupHost example_manager "x.a.example.com" = [tmpSet]
  /\ lookupHost example_manager "x.a.example.com" <> [mySet].
Proof.
  apply (lookupHost_first_match example_manager).
  - compute_done.
  - vm_compute. reflexivity.
  - vm_compute. reflexivity.
  - vm_compute. reflexivity.
  - discriminate.
Defined.

Lemma Add_unregistered_witness :
  Add example_kernel "unknown-domain" [ip_1_2_3_4] [ip_v6] example_manager
  = (Returns (0%nat, None), example_manager).
Proof.
  apply (Add_unregistered example_kernel example_manager "unknown-domain").
  vm_compute. reflexivity.
Defined.

Lemma Add_skips_IPv6_sets_witness :
  Add example_kernel "example.org" [ip_1_2_3_4] [ip_v6] v6_manager
  = (Returns (0%nat, None), v6_manager).
Proof.
  apply (proj1 (proj2 (Add_skips_IPv6_sets example_kernel v6_manager
                         "example.org" [ip_1_2_3_4] [ip_v6]))).
  vm_compute. repeat constructor.
Defined.

Lemma timeout_sets_are_not_cached_witness :
  exists m1 m2,
    Add example_kernel "a.example.com" [ip_1_2_3_4] [] example_manager
    = (Returns (1%nat, None), m1)
    /\ Add example_kernel "a.example.com" [ip_1_2_3_4] [] m1
       = (Returns (1%nat, None), m2)
    /\ conn m2 = conn example_manager
                 ++ [SetAddElements tmpSet [{| Key := ip_1_2_3_4 |}]; Flush;
                     SetAddElements tmpSet [{| Key := ip_1_2_3_4 |}]; Flush]
    /\ addedIPs m1 = addedIPs example_manager
    /\ addedIPs m2 = addedIPs example_manager.
Proof.
  apply (proj2 (timeout_sets_are_not_cached example_kernel example_manager
                  example_manager_running)
           "a.example.com" tmpSet ip_1_2_3_4 ip_1_2_3_4 [] []).
  - vm_compute. reflexivity.
  - reflexivity.
  - vm_compute. reflexivity.
  - reflexivity.
  - reflexivity.
  - split; reflexivity.
  - split; reflexivity.
Defined.

Lemma table_is_additive_witness :
  index_slices (domainToIpsets (managerOf example_kernel additive_lines))
    "example.com" = [mySet; otherSet]
  /\ index_slices (domainToIpsets (managerOf example_kernel additive_lines))
       "example.org" = [tmpSet; otherSet]
  /\ Forall2 (fun n set =>
                nameToIpset (managerOf example_kernel additive_lines) !! n
                = Some set
                /\ KeyType set = TypeIPAddr
                /\ exists pre post,
                     conn (managerOf example_kernel additive_lines)
                     = pre ++ queryOf n :: post
                     /\ answer example_kernel pre n = inr set)
             ["4#inet#myTable#otherSet"] [otherSet]
  /\ (is_Some (domainToIpsets (managerOf example_kernel additive_lines)
                 !! "example.net") <->
      exists line, line ∈ additive_lines /\ "example.net" ∈ line_hosts line).
Proof.
  destruct (table_is_additive example_kernel additive_lines
              (managerOf example_kernel additive_lines)
              (conn (managerOf example_kernel additive_lines)))
    as (H1 & H2 & H3 & _).
  { vm_compute. reflexivity. }
  split; [rewrite H2; vm_compute; reflexivity|].
  split; [rewrite H2; vm_compute; reflexivity|].
  split; [|apply H3].
  apply Forall_cons in H1 as [_ H1]. apply Forall_cons in H1 as [_ H1].
  apply Forall_cons in H1 as [[_ H1] _]. exact H1.
Defined.

Lemma empty_host_is_catch_all_witness :
  lookupHost (managerOf example_kernel catch_all_lines) "unknown-domain"
  = index_slices
      (domainToIpsets (managerOf example_kernel catch_all_lines)) "".
Proof.
  destruct empty_host_is_catch_all as (_ & _ & _ & _ & _ & _ & H).
  apply (H example_kernel catch_all_lines
           (managerOf example_kernel catch_all_lines)
           (conn (managerOf example_kernel catch_all_lines))
           ",example.com/4#inet#t#s").
  - vm_compute. reflexivity.
  - apply list_elem_of_here.
  - vm_compute. apply list_elem_of_here.
  - vm_compute. reflexivity.
Defined.

Lemma queries_once_witness :
  newManager kernel_with_one_set failing_lines
  = (None,
     Some (ErrIpset (ErrParsingConfig
             (ErrGettingIpset 1 "b.example/4#inet#t#s,4#inet#t#u"
                "4#inet#t#u" (ErrConn "no such set")))),
     failing_calls)
  /\ NoDup failing_calls
  /\ failing_calls `prefix_of` map queryOf (distinct (identifiers failing_lines))
  /\ (exists pre c, failing_calls = pre ++ [c]
                    /\ answered_well kernel_with_one_set pre c = false)
  /\ ~ (forall n, n ∈ identifiers failing_lines ->
                  answered_well kernel_with_one_set [] (queryOf n) = true).
Proof.
  assert (Hrun : newManager kernel_with_one_set failing_lines
                 = (None,
                    Some (ErrIpset (ErrParsingConfig
                            (ErrGettingIpset 1 "b.example/4#inet#t#s,4#inet#t#u"
                               "4#inet#t#u" (ErrConn "no such set")))),
                    failing_calls)).
  { vm_compute. reflexivity. }
  destruct (queries_once kernel_with_one_set failing_lines _ _ _ Hrun)
    as (H1 & _ & _ & _ & H5 & _ & _ & H8 & H9).
  destruct H9 as (_ & H10 & H11).
  { reflexivity. }
  { repeat constructor. }
  split; [exact Hrun|]. split; [exact H1|]. split; [exact H5|]. split.
  - apply H8. apply H11. reflexivity.
  - intros Hall. destruct H10 as [_ H10]; [reflexivity|].
    destruct (H10 Hall) as [m Hm]. discriminate Hm.
Defined.

Lemma config_errors_name_the_line_witness :
  fails_naming_line kernel_with_one_set
    ["example.com/4#inet#t#s"; "example.net/6#inet#t#s"]
  <-> Exists (fun l => line_malformed l = true)
        ["example.com/4#inet#t#s"; "example.net/6#inet#t#s"].
Proof.
  apply (config_errors_name_the_line kernel_with_one_set
           ["example.com/4#inet#t#s"; "example.net/6#inet#t#s"]
           kernel_with_one_set_resolves).
Defined.

Lemma Add_first_error_witness :
  let m1 := (addToSets flaky_kernel "example.biz" [ip_1_2_3_4] [] [mySet]
               flaky_manager).2 in
  Add flaky_kernel "example.biz" [ip_1_2_3_4] [] flaky_manager
  = (Returns (1%nat,
              Some (ErrFlushing "example.biz" [ip_1_2_3_4] "otherSet"
                      (ErrConn "flush refused"))),
     issue Flush
       (issue (SetAddElements otherSet [{| Key := ip_1_2_3_4 |}]) m1)).
Proof.
  intros m1.
  destruct (Add_first_error flaky_kernel flaky_manager m1 "example.biz"
              [ip_1_2_3_4] [] [mySet] [] otherSet 1
              [{| Key := ip_1_2_3_4 |}] [entryOf otherSet ip_1_2_3_4])
    as (_ & _ & _ & H).
  - vm_compute. reflexivity.
  - vm_compute. reflexivity.
  - reflexivity.
  - vm_compute. reflexivity.
  - discriminate.
  - apply H; vm_compute; reflexivity.
Defined.

(** * Further properties of the manager *)

(** ** Addresses and cache entries *)

Lemma copy_into_zeroes (l : list byte) :
  length l = IPv6len -> copy (replicate IPv6len x00) l = l.
Proof.
  intros Hl. unfold copy. rewrite length_replicate, Hl.
  rewrite take_ge by lia. rewrite drop_ge by (rewrite length_replicate; lia).
  apply app_nil_r.
Qed.

(** [To4] and [To16] agree: an address that [To4] accepts has, by [To16],
    the 16 bytes of the prefix followed by its 4 bytes. *)
Lemma To4_To16 (ip v : IP) :
  To4 ip = Some v ->
  length v = 4 /\ To16 ip = Some (v4InV6Prefix ++ v).
Proof.
  unfold To4, To16, IPv4len, IPv6len.
  destruct (length ip =? 4)%nat eqn:E4.
  { intros [= <-]. by apply Nat.eqb_eq in E4. }
  destruct (length ip =? 16)%nat eqn:E16; [|done]. apply Nat.eqb_eq in E16.
  do 17 (destruct ip as [|? ip]; try done). clear E4 E16. cbn.
  repeat match goal with
         | |- context [Byte.eqb ?b ?c] =>
             destruct (Byte.eqb b c) eqn:?; cbn; [|done]
         end.
  repeat match goal with
         | H : Byte.eqb _ _ = true |- _ => apply Byte.byte_dec_bl in H; subst
         end.
  intros [= <-]. done.
Qed.

Lemma entryOf_To4 (set : Set_) (ip v : IP) :
  To4 ip = Some v ->
  entryOf set ip
  = {| ipsetName := ipsetNameOf set; ipArr := v4InV6Prefix ++ v |}.
Proof.
  intros [Hl H16]%To4_To16. unfold entryOf. rewrite H16.
  change (default [] (Some (v4InV6Prefix ++ v))) with (v4InV6Prefix ++ v).
  rewrite copy_into_zeroes; [done|]. rewrite length_app, Hl. done.
Qed.

(** X1. The cache entry of an address depends on the IPv4 address only,
    not on the form in which it comes: two addresses that [To4] accepts
    have the same entry for a set exactly when their 4 bytes are the same.
    So an address of 16 bytes in the IPv4-mapped form is passed over by
    [addIPs] once its form of 4 bytes is in the cache, and conversely. *)
Theorem entryOf_same_address (K : Kernel) (set : Set_) (ip ip' v v' : IP) :
  To4 ip = Some v ->
  To4 ip' = Some v' ->
  (entryOf set ip = entryOf set ip' <-> v = v')
  /\ (forall host m,
        v = v' -> entryOf set ip ∈ addedIPs m ->
        addIPs K host set [ip'] m = (Returns (0%nat, None), m)).
Proof.
  intros H4 H4'. rewrite (entryOf_To4 set ip v H4), (entryOf_To4 set ip' v' H4').
  split.
  - split; [|by intros ->]. by intros [= ->].
  - intros host m -> Hin. apply addIPs_one_cached.
    by rewrite (entryOf_To4 set ip' v' H4').
Qed.

Lemma entryOf_same_address_witness :
  addIPs example_kernel "example.net" mySet [v4InV6Prefix ++ ip_1_2_3_4]
    (set_addedIPs {[entryOf mySet ip_1_2_3_4]} example_manager)
  = (Returns (0%nat, None),
     set_addedIPs {[entryOf mySet ip_1_2_3_4]} example_manager).
Proof.
  apply (proj2 (entryOf_same_address example_kernel mySet ip_1_2_3_4
                  (v4InV6Prefix ++ ip_1_2_3_4) ip_1_2_3_4 ip_1_2_3_4
                  eq_refl eq_refl)).
  - reflexivity.
  - simpl. set_solver.
Defined.

(** ** Calls of [Add] that have nothing to add, and calls repeated *)

Lemma addIPs_collect_nil_iff (set : Set_) (ips : list IP) (m : manager) :
  addIPs_collect set ips m = ([], [])
  <-> Forall (fun ip => entryOf set ip ∈ addedIPs m \/ To4 ip = None) ips.
Proof.
  induction ips as [|ip ips IH]; simpl; [done|].
  destruct (addIPs_collect set ips m) as [elements entries].
  rewrite Forall_cons. case_bool_decide as Hin.
  - rewrite IH. naive_solver.
  - destruct (To4 ip) as [v|] eqn:E4.
    + split; [done|]. intros [[?|?] _]; done.
    + rewrite IH. naive_solver.
Qed.

Lemma addIPs_nothing_new (K : Kernel) host set ips m :
  Forall (fun ip => entryOf set ip ∈ addedIPs m \/ To4 ip = None) ips ->
  addIPs K host set ips m = (Returns (0%nat, None), m).
Proof.
  intros H%addIPs_collect_nil_iff. unfold addIPs. rewrite H. simpl.
  by destruct (length ips =? 0)%nat.
Qed.

(** X2. When every address of [ip4s] is, for each set of the host, in the
    cache already or not an IPv4 address (so when [ip4s] is empty, or holds
    IPv6 addresses only), [Add] issues no call and leaves the manager as it
    is, and the count is 0. *)
Theorem Add_nothing_new (K : Kernel) (m : manager) (host : string)
  (ip4s ip6s : list IP) :
  Forall (fun set =>
            Forall (fun ip => entryOf set ip ∈ addedIPs m \/ To4 ip = None)
                   ip4s) (lookupHost m host) ->
  (Add K host ip4s ip6s m).2 = m
  /\ exists err, (Add K host ip4s ip6s m).1 = Returns (0%nat, err).
Proof.
  unfold Add, addToSets. destruct (length (lookupHost m host) =? 0)%nat;
    [by eauto|].
  generalize (lookupHost m host) as sets.
  induction sets as [|set sets IH]; intros Hall; simpl; [by eauto|].
  apply Forall_cons in Hall as [Hset Hall].
  destruct (KeyType set); [|by apply IH|by eauto].
  rewrite addIPs_nothing_new by done. by apply IH.
Qed.

Lemma Add_nothing_new_witness :
  (Add example_kernel "example.net" [ip_v6] [ip_v6] example_manager).2
  = example_manager
  /\ exists err,
      (Add example_kernel "example.net" [ip_v6] [ip_v6] example_manager).1
      = Returns (0%nat, err).
Proof.
  apply (Add_nothing_new example_kernel example_manager "example.net").
  replace (lookupHost example_manager "example.net") with [mySet]
    by (vm_compute; reflexivity).
  constructor; [|constructor].
  constructor; [|constructor]. right. reflexivity.
Defined.

Lemma addIPs_collect_replicate (set : Set_) (ip v : IP) (m : manager) k :
  To4 ip = Some v ->
  entryOf set ip ∉ addedIPs m ->
  addIPs_collect set (replicate k ip) m
  = (replicate k {| Key := v |}, replicate k (entryOf set ip)).
Proof.
  intros H4 Hnew. induction k as [|k IH]; simpl; [done|].
  rewrite IH, bool_decide_eq_false_2, H4 by done. done.
Qed.

(** X3. Within one call nothing is deduplicated: an IPv4 address that is
    new to a registered set and comes [k + 1] times in the list is sent
    [k + 1] times, in one batch, and counted [k + 1] times; the cache of a
    set without timeout gets its one entry. *)
Theorem addIPs_repeated_address (K : Kernel) (host : string) (set set' : Set_)
  (ip v : IP) (m : manager) (k : nat) :
  nameToIpset m !! ipsetNameOf set = Some set' ->
  To4 ip = Some v ->
  entryOf set ip ∉ addedIPs m ->
  accepts K (conn m) set (replicate (S k) {| Key := v |}) ->
  exists m',
    addIPs K host set (replicate (S k) ip) m = (Returns (S k, None), m')
    /\ conn m' = conn m ++ [SetAddElements set (replicate (S k) {| Key := v |});
                            Flush]
    /\ addedIPs m' = if HasTimeout set' then addedIPs m
                     else {[entryOf set ip]} ∪ addedIPs m.
Proof.
  intros Hreg H4 Hnew [Hadd Hflush]. unfold addIPs.
  rewrite (addIPs_collect_replicate set ip v m (S k) H4 Hnew).
  rewrite !length_replicate. cbn [Nat.eqb].
  rewrite Hadd. cbn [issue conn]. rewrite Hflush.
  rewrite (addIPs_record_registered _ _ (ipsetNameOf set) set');
    [|by apply Forall_replicate|done].
  eexists. split; [reflexivity|]. split.
  - destruct (HasTimeout set'); simpl; by rewrite <- app_assoc.
  - destruct (HasTimeout set'); [done|].
    assert (Hrep : list_to_set (C := gset ipInIpsetEntry)
                     (replicate (S k) (entryOf set ip))
                   = {[entryOf set ip]}).
    { clear. induction k as [|k IH]; [set_solver|].
      change (replicate (S (S k)) (entryOf set ip))
        with (entryOf set ip :: replicate (S k) (entryOf set ip)).
      rewrite list_to_set_cons, IH. set_solver. }
    cbn [addedIPs set_addedIPs issue]. rewrite Hrep. done.
Qed.

Lemma addIPs_repeated_address_witness :
  exists m',
    addIPs example_kernel "example.net" mySet [ip_1_2_3_4; ip_1_2_3_4]
      example_manager = (Returns (2%nat, None), m')
    /\ conn m' = conn example_manager
                 ++ [SetAddElements mySet [{| Key := ip_1_2_3_4 |};
                                           {| Key := ip_1_2_3_4 |}]; Flush]
    /\ addedIPs m' = {[entryOf mySet ip_1_2_3_4]} ∪ addedIPs example_manager.
Proof.
  apply (addIPs_repeated_address example_kernel "example.net" mySet mySet
           ip_1_2_3_4 ip_1_2_3_4 example_manager 1).
  - vm_compute. reflexivity.
  - reflexivity.
  - compute_done.
  - split; reflexivity.
Defined.

Lemma addIPs_collect_entries (set : Set_) (ips : list IP) (m : manager) :
  Forall (fun ip => entryOf set ip ∈ addedIPs m \/ To4 ip = None
                    \/ entryOf set ip ∈ (addIPs_collect set ips m).2) ips.
Proof.
  induction ips as [|ip ips IH]; simpl; [done|].
  destruct (addIPs_collect set ips m) as [elements entries]. simpl in *.
  case_bool_decide as Hin.
  - constructor; [by left|done].
  - destruct (To4 ip) as [v|] eqn:E4; simpl.
    + constructor; [right; right; set_solver|].
      eapply Forall_impl; [exact IH|]. set_solver.
    + constructor; [by right; left|done].
Qed.

Lemma addIPs_success_covers (K : Kernel) host set set' ips m n m' :
  nameToIpset m !! ipsetNameOf set = Some set' ->
  HasTimeout set' = false ->
  addIPs K host set ips m = (Returns (n, None), m') ->
  Forall (fun ip => entryOf set ip ∈ addedIPs m' \/ To4 ip = None) ips.
Proof.
  intros Hreg Ht. unfold addIPs.
  destruct (length ips =? 0)%nat eqn:El.
  { apply Nat.eqb_eq in El. by destruct ips. }
  pose proof (addIPs_collect_entries set ips m) as Hent.
  pose proof (addIPs_collect_name set ips m) as Hname.
  pose proof (addIPs_collect_length set ips m) as Hlen.
  destruct (addIPs_collect set ips m) as [elements entries] eqn:Ec.
  simpl in *. destruct (length elements =? 0)%nat eqn:Ee.
  { intros [= <- <-]. apply addIPs_collect_nil_iff. rewrite Ec.
    apply Nat.eqb_eq in Ee. rewrite Ee in Hlen.
    destruct elements; [|done]. by destruct entries. }
  destruct (k_SetAddElements K _ _ _); [done|].
  destruct (k_Flush K _); [done|].
  rewrite (addIPs_record_registered entries _ (ipsetNameOf set) set'), Ht
    by done.
  intros [= _ <-]. simpl. eapply Forall_impl; [exact Hent|].
  intros ip [?|[?|?]]; [left|by right|left]; set_solver.
Qed.

Lemma addToSets_loop_success_covers (K : Kernel) host ip4s ip6s sets n0 m
  n m1 :
  Forall (fun s => exists s', nameToIpset m !! ipsetNameOf s = Some s'
                              /\ HasTimeout s' = false) sets ->
  addToSets_loop K host ip4s ip6s sets n0 m = (Returns (n, None), m1) ->
  Forall (fun s =>
            KeyType s = TypeIP6Addr
            \/ KeyType s = TypeIPAddr
               /\ Forall (fun ip => entryOf s ip ∈ addedIPs m1
                                    \/ To4 ip = None) ip4s) sets.
Proof.
  revert n0 m. induction sets as [|set sets IH]; intros n0 m Hall; simpl;
    [done|].
  apply Forall_cons in Hall as [(set' & Hreg & Ht) Hall].
  destruct (KeyType set) eqn:Ek; [| |done].
  - destruct (addIPs K host set ip4s m) as [[[nn [err|]]|] m'] eqn:Ea;
      [done| |done].
    intros Hrest.
    pose proof (addIPs_success_covers K host set set' ip4s m nn m' Hreg Ht Ea)
      as Hcov.
    pose proof (addIPs_evolves K host set ip4s m) as Hev.
    rewrite Ea in Hev. simpl in Hev. destruct Hev as (Hn & _).
    pose proof (addToSets_loop_evolves K host ip4s ip6s sets (n0 + nn) m')
      as Hev'.
    rewrite Hrest in Hev'. simpl in Hev'.
    destruct Hev' as (_ & _ & _ & Hsub & _).
    constructor.
    + right. split; [done|]. eapply Forall_impl; [exact Hcov|].
      intros ip [?|?]; [left; by apply Hsub|by right].
    + eapply IH; [|exact Hrest]. by rewrite Hn.
  - intros Hrest. constructor; [by left|]. by eapply IH.
Qed.

Lemma addToSets_loop_all_covered (K : Kernel) host ip4s ip6s sets n0 m :
  Forall (fun s =>
            KeyType s = TypeIP6Addr
            \/ KeyType s = TypeIPAddr
               /\ Forall (fun ip => entryOf s ip ∈ addedIPs m
                                    \/ To4 ip = None) ip4s) sets ->
  addToSets_loop K host ip4s ip6s sets n0 m = (Returns (n0, None), m).
Proof.
  intros Hall. revert n0.
  induction Hall as [|set sets [Hk|[Hk Hcov]] _ IH]; intros n0; simpl;
    [done|..]; rewrite Hk; [done|].
  rewrite addIPs_nothing_new by done. by rewrite Nat.add_0_r.
Qed.

(** X4. A call of [Add] that succeeded is not worth repeating: when the
    sets of the host are registered and have no timeout, and [Add] returned
    without an error, the same call in the state it left returns
    [(0, nil)], issues no call and changes nothing, whatever the number of
    sets and of addresses. *)
Theorem Add_idempotent (K : Kernel) (m m1 : manager) (host : string)
  (ip4s ip6s ip6s' : list IP) (n : nat) :
  Forall (fun s => exists s', nameToIpset m !! ipsetNameOf s = Some s'
                              /\ HasTimeout s' = false) (lookupHost m host) ->
  Add K host ip4s ip6s m = (Returns (n, None), m1) ->
  Add K host ip4s ip6s' m1 = (Returns (0%nat, None), m1).
Proof.
  intros Hall Hadd.
  pose proof (Add_evolves K host ip4s ip6s m) as Hev. rewrite Hadd in Hev.
  simpl in Hev. unfold Add in *. rewrite (lookupHost_evolves m m1 host Hev).
  destruct (length (lookupHost m host) =? 0)%nat; [done|].
  unfold addToSets in *. apply addToSets_loop_all_covered.
  by eapply addToSets_loop_success_covers.
Qed.

Lemma Add_idempotent_witness :
  Add example_kernel "example.biz" [ip_1_2_3_4; ip_v6] []
    (Add example_kernel "example.biz" [ip_1_2_3_4; ip_v6] []
       example_manager).2
  = (Returns (0%nat, None),
     (Add example_kernel "example.biz" [ip_1_2_3_4; ip_v6] []
        example_manager).2).
Proof.
  apply (Add_idempotent example_kernel example_manager _ "example.biz"
           [ip_1_2_3_4; ip_v6] [] [] 2).
  - replace (lookupHost example_manager "example.biz")
      with [mySet; otherSet] by (vm_compute; reflexivity).
    constructor; [|constructor; [|constructor]].
    + exists mySet. split; [vm_compute|]; reflexivity.
    + exists otherSet. split; [vm_compute|]; reflexivity.
  - vm_compute. reflexivity.
Defined.

(** X5. [Add] never touches the registry or the table, never takes a call
    back from the connection and never removes an entry from the cache; an
    entry that it adds is under the name of a registered set that has no
    timeout. *)
Theorem Add_keeps (K : Kernel) (m : manager) (host : string)
  (ip4s ip6s : list IP) :
  let m' := (Add K host ip4s ip6s m).2 in
  nameToIpset m' = nameToIpset m
  /\ domainToIpsets m' = domainToIpsets m
  /\ conn m `prefix_of` conn m'
  /\ addedIPs m ⊆ addedIPs m'
  /\ (forall e, e ∈ addedIPs m' -> e ∉ addedIPs m ->
        exists set, nameToIpset m !! ipsetName e = Some set
                    /\ HasTimeout set = false).
Proof.
  destruct (Add_evolves K host ip4s ip6s m) as (Hn & Hd & Hc & Ha & Hnew).
  repeat split; try done.
  intros e He Hne. by destruct (Hnew e He).
Qed.

(** ** What [Add] sends to the kernel *)

Lemma addIPs_record_conn entries m :
  conn (addIPs_record entries m).2 = conn m.
Proof.
  revert m. induction entries as [|e entries IH]; intros m; simpl; [done|].
  destruct (nameToIpset m !! ipsetName e) as [set|]; [|done].
  destruct (HasTimeout set); simpl; by rewrite IH.
Qed.

Lemma addIPs_record_cache entries m :
  addedIPs (addIPs_record entries m).2 ⊆ list_to_set entries ∪ addedIPs m.
Proof.
  revert m. induction entries as [|e entries IH]; intros m; simpl;
    [set_solver|].
  destruct (nameToIpset m !! ipsetName e) as [set|]; [|set_solver].
  destruct (HasTimeout set); simpl.
  - specialize (IH m). set_solver.
  - specialize (IH (set_addedIPs ({[e]} ∪ addedIPs m) m)). simpl in IH.
    set_solver.
Qed.

Lemma addIPs_collect_keys (set : Set_) (ips : list IP) (m : manager) :
  Forall (fun el => length (Key el) = 4) (addIPs_collect set ips m).1
  /\ Forall (fun e => exists key,
                {| Key := key |} ∈ (addIPs_collect set ips m).1
                /\ ipArr e = v4InV6Prefix ++ key)
            (addIPs_collect set ips m).2.
Proof.
  induction ips as [|ip ips [IH1 IH2]]; simpl; [done|].
  destruct (addIPs_collect set ips m) as [elements entries]. simpl in *.
  case_bool_decide as Hin; [done|].
  destruct (To4 ip) as [v|] eqn:E4; [|done]. simpl. split.
  - constructor; [|done]. by apply To4_To16 in E4 as [? _].
  - constructor.
    + exists v. split; [set_solver|]. by rewrite (entryOf_To4 set ip v E4).
    + eapply Forall_impl; [exact IH2|]. intros e (key & ? & ?).
      exists key. split; [set_solver|done].
Qed.

(** What a call of [addIPs] that returns has put on the connection. *)
Lemma addIPs_calls (K : Kernel) host set ips m nn err m' :
  addIPs K host set ips m = (Returns (nn, err), m') ->
  (err = None /\ nn = 0%nat /\ m' = m)
  \/ exists elements,
       elements <> []
       /\ Forall (fun el => length (Key el) = 4) elements
       /\ ((err = None /\ nn = length elements
            /\ conn m' = conn m ++ [SetAddElements set elements; Flush])
           \/ (err <> None
               /\ (conn m' = conn m ++ [SetAddElements set elements]
                   \/ conn m' = conn m ++ [SetAddElements set elements;
                                            Flush]))).
Proof.
  unfold addIPs. destruct (length ips =? 0)%nat; [intros [= <- <- <-]; by left|].
  pose proof (addIPs_collect_keys set ips m) as [Hkeys _].
  destruct (addIPs_collect set ips m) as [elements entries]. simpl in Hkeys.
  destruct (length elements =? 0)%nat eqn:El; [intros [= <- <- <-]; by left|].
  assert (elements <> []) by (by destruct elements).
  destruct (k_SetAddElements K _ _ _).
  { intros [= <- <- <-]. right. exists elements. repeat split; try done.
    right. split; [done|]. by left. }
  destruct (k_Flush K _).
  { intros [= <- <- <-]. right. exists elements. repeat split; try done.
    right. split; [done|]. right. simpl. by rewrite <- app_assoc. }
  pose proof (addIPs_record_conn entries
                (issue Flush (issue (SetAddElements set elements) m))) as Hc.
  destruct (addIPs_record entries _) as [[|] m3]; [|done].
  intros [= <- <- <-]. right. exists elements. repeat split; try done.
  left. repeat split. simpl in Hc. by rewrite Hc, <- app_assoc.
Qed.

Ltac split_calls :=
  split_and!;
  try first [done | lia | apply sublist_nil_l | by left
            | by apply sublist_cons | by apply sublist_skip
            | by constructor ].

Lemma addToSets_loop_calls (K : Kernel) host ip4s ip6s sets n0 m n err m' :
  addToSets_loop K host ip4s ip6s sets n0 m = (Returns (n, err), m') ->
  exists batches tail,
    conn m' = conn m ++ flat_map batch_calls batches ++ tail
    /\ n = (n0 + sum_list (map (fun b => length b.2) batches))%nat
    /\ sublist (map fst batches) sets
    /\ Forall (fun b => b.2 <> []
                        /\ Forall (fun el => length (Key el) = 4) b.2) batches
    /\ (err = None -> tail = [])
    /\ (tail = []
        \/ exists s elements,
             s ∈ sets /\ elements <> []
             /\ (tail = [SetAddElements s elements]
                 \/ tail = [SetAddElements s elements; Flush])).
Proof.
  revert n0 m. induction sets as [|set sets IH]; intros n0 m; simpl.
  - intros [= <- <- <-]. exists [], []. simpl. rewrite app_nil_r.
    split_calls.
  - assert (Hfurther : forall tail,
              (tail = []
               \/ exists s elements,
                    s ∈ sets /\ elements <> []
                    /\ (tail = [SetAddElements s elements]
                        \/ tail = [SetAddElements s elements; Flush])) ->
              tail = []
              \/ exists s elements,
                   s ∈ set :: sets /\ elements <> []
                   /\ (tail = [SetAddElements s elements]
                       \/ tail = [SetAddElements s elements; Flush])).
    { intros tail [?|(s & els & ? & ?)]; [by left|].
      right. exists s, els. split; [by apply list_elem_of_further|done]. }
    destruct (KeyType set).
    + destruct (addIPs K host set ip4s m) as [[[nn [e|]]|] m1] eqn:Ea;
        [| |done].
      * intros [= <- <- <-].
        apply addIPs_calls in Ea
          as [(? & _)|(els & Hne & Hk & [(? & _)|(_ & [Hc|Hc])])]; try done.
        -- exists [], [SetAddElements set els]. simpl. split_calls.
           right. exists set, els. split; [apply list_elem_of_here|].
           split; [done|by left].
        -- exists [], [SetAddElements set els; Flush]. simpl. split_calls.
           right. exists set, els. split; [apply list_elem_of_here|].
           split; [done|by right].
      * intros Hrest. apply IH in Hrest
          as (batches & tail & Hc & Hn & Hsub & Hall & Hnone & Htail).
        apply Hfurther in Htail.
        apply addIPs_calls in Ea
          as [(_ & -> & ->)|(els & Hne & Hk & [(_ & -> & Hc1)|(? & _)])];
          [| |done].
        -- exists batches, tail. split_calls.
        -- exists ((set, els) :: batches), tail. simpl. split_calls.
           rewrite Hc, Hc1, <- !app_assoc. done.
    + intros Hrest. apply IH in Hrest
        as (batches & tail & Hc & Hn & Hsub & Hall & Hnone & Htail).
      apply Hfurther in Htail. exists batches, tail. split_calls.
    + intros [= <- <- <-]. exists [], []. simpl. rewrite app_nil_r.
      split_calls.
Qed.

(** X6. The calls of one [Add] and its count: the connection gets, for
    sets of the host taken in their order, a batch of elements followed by
    a flush, and the count is the number of elements of these batches. No
    batch is empty and every key has 4 bytes. When [Add] returns an error,
    what may follow the batches is the batch that the kernel refused, with
    its flush if it was the flush that failed; its elements are not
    counted. *)
Theorem Add_calls (K : Kernel) (m m' : manager) (host : string)
  (ip4s ip6s : list IP) (n : nat) (err : option error) :
  Add K host ip4s ip6s m = (Returns (n, err), m') ->
  exists batches tail,
    conn m' = conn m ++ flat_map batch_calls batches ++ tail
    /\ n = sum_list (map (fun b => length b.2) batches)
    /\ sublist (map fst batches) (lookupHost m host)
    /\ Forall (fun b => b.2 <> []
                        /\ Forall (fun el => length (Key el) = 4) b.2) batches
    /\ (err = None -> tail = [])
    /\ (tail = []
        \/ exists s elements,
             s ∈ lookupHost m host /\ elements <> []
             /\ (tail = [SetAddElements s elements]
                 \/ tail = [SetAddElements s elements; Flush])).
Proof.
  unfold Add, addToSets. destruct (length (lookupHost m host) =? 0)%nat.
  - intros [= <- <- <-]. exists [], []. simpl. rewrite app_nil_r.
    split_calls.
  - intros H. by apply addToSets_loop_calls in H.
Qed.

Lemma Add_calls_witness :
  exists batches tail,
    conn (Add example_kernel "example.biz" [ip_1_2_3_4] [] example_manager).2
    = conn example_manager ++ flat_map batch_calls batches ++ tail
    /\ 2%nat = sum_list (map (fun b => length b.2) batches)
    /\ sublist (map fst batches) (lookupHost example_manager "example.biz")
    /\ Forall (fun b => b.2 <> []
                        /\ Forall (fun el => length (Key el) = 4) b.2) batches
    /\ (@None error = None -> tail = [])
    /\ (tail = []
        \/ exists s elements,
             s ∈ lookupHost example_manager "example.biz" /\ elements <> []
             /\ (tail = [SetAddElements s elements]
                 \/ tail = [SetAddElements s elements; Flush])).
Proof.
  apply (Add_calls example_kernel example_manager _ "example.biz"
           [ip_1_2_3_4] [] 2 None).
  vm_compute. reflexivity.
Defined.

(** ** Every entry of the cache was sent *)

Lemma sent_later (K : Kernel) (m m' : manager) (e : ipInIpsetEntry) more :
  conn m' = conn m ++ more -> sent K m e -> sent K m' e.
Proof.
  intros Hc (pre & set & els & post & key & Hconn & Hrest).
  exists pre, set, els, (post ++ more), key. split; [|done].
  rewrite Hc, Hconn, <- app_assoc. done.
Qed.

Lemma addIPs_sent (K : Kernel) host set ips m :
  (forall e, e ∈ addedIPs m -> sent K m e) ->
  forall e, e ∈ addedIPs (addIPs K host set ips m).2 ->
            sent K (addIPs K host set ips m).2 e.
Proof.
  intros Hm. unfold addIPs. destruct (length ips =? 0)%nat; [done|].
  pose proof (addIPs_collect_keys set ips m) as [_ Hkeys].
  pose proof (addIPs_collect_name set ips m) as Hname.
  destruct (addIPs_collect set ips m) as [elements entries]. simpl in *.
  destruct (length elements =? 0)%nat; [done|].
  destruct (k_SetAddElements K (conn m) set elements) eqn:Eadd.
  { simpl. intros e He. eapply sent_later; [|by apply Hm]. done. }
  destruct (k_Flush K _) eqn:Eflush.
  { simpl. intros e He. eapply sent_later; [|by apply Hm].
    simpl. by rewrite <- app_assoc. }
  set (m2 := issue Flush (issue (SetAddElements set elements) m)).
  pose proof (addIPs_record_conn entries m2) as Hc.
  pose proof (addIPs_record_cache entries m2) as Ha.
  assert (Hsent : forall e, e ∈ addedIPs (addIPs_record entries m2).2 ->
                            sent K (addIPs_record entries m2).2 e).
  { intros e [He|He]%Ha%elem_of_union.
    - apply elem_of_list_to_set in He.
      rewrite Forall_forall in Hkeys, Hname.
      destruct (Hkeys e He) as (key & Hkey & Harr).
      exists (conn m), set, elements, [], key. rewrite Hc. simpl.
      rewrite <- app_assoc. split; [done|]. split; [done|].
      split; [by rewrite Hname|done].
    - eapply sent_later; [|by apply Hm]. rewrite Hc. simpl.
      by rewrite <- app_assoc. }
  by destruct (addIPs_record entries m2) as [[|] m3].
Qed.

Lemma addToSets_loop_sent (K : Kernel) host ip4s ip6s sets n m :
  (forall e, e ∈ addedIPs m -> sent K m e) ->
  forall e, e ∈ addedIPs (addToSets_loop K host ip4s ip6s sets n m).2 ->
            sent K (addToSets_loop K host ip4s ip6s sets n m).2 e.
Proof.
  revert n m. induction sets as [|set sets IH]; intros n m Hm; simpl; [done|].
  destruct (KeyType set); [|by apply IH|done].
  pose proof (addIPs_sent K host set ip4s m Hm) as H.
  destruct (addIPs K host set ip4s m) as [[[nn [err|]]|] m1]; [done| |done].
  by apply IH.
Qed.

Lemma Add_sent (K : Kernel) host ip4s ip6s m :
  (forall e, e ∈ addedIPs m -> sent K m e) ->
  forall e, e ∈ addedIPs (Add K host ip4s ip6s m).2 ->
            sent K (Add K host ip4s ip6s m).2 e.
Proof.
  intros Hm. unfold Add. destruct (length (lookupHost m host) =? 0)%nat;
    [done|]. by apply addToSets_loop_sent.
Qed.

(** X7. The cache only holds what went to the kernel: for every entry of
    the cache of a running manager, the connection has seen a batch for a
    set of that name with the 4 bytes of that address among its keys,
    followed by a flush, and the kernel accepted the batch and the flush. *)
Theorem cache_entries_were_sent (K : Kernel) (m : manager) :
  running K m -> forall e, e ∈ addedIPs m -> sent K m e.
Proof.
  induction 1 as [lines m calls H|m host ip4s ip6s _ IH].
  - apply newManager_ok in H as (_ & H & _).
    pose proof (parseIpsetConfig_from_registers K 0 lines fresh) as (_ & _ & Ha).
    unfold parseIpsetConfig in H. rewrite H in Ha. simpl in Ha.
    intros e He. rewrite Ha in He. set_solver.
  - by apply Add_sent.
Qed.

Lemma cache_entries_were_sent_witness :
  sent example_kernel
    (Add example_kernel "example.net" [ip_1_2_3_4] [] example_manager).2
    (entryOf mySet ip_1_2_3_4).
Proof.
  apply (cache_entries_were_sent example_kernel
           (Add example_kernel "example.net" [ip_1_2_3_4] [] example_manager).2).
  - apply running_Add. exact example_manager_running.
  - compute_done.
Defined.

(** ** The sets of a running manager *)

Section Registry.

Variable K : Kernel.

Lemma parseIpsetConfig_name_dom i l n ipsets m ipsets' m' :
  parseIpsetConfig_name K i l n ipsets m = (None, ipsets', m') ->
  length (conn m) = size (dom (nameToIpset m)) ->
  (forall n set, nameToIpset m !! n = Some set -> KeyType set = TypeIPAddr) ->
  dom (nameToIpset m') = {[n]} ∪ dom (nameToIpset m)
  /\ length (conn m') = size (dom (nameToIpset m'))
  /\ (forall n set, nameToIpset m' !! n = Some set ->
                    KeyType set = TypeIPAddr).
Proof.
  unfold parseIpsetConfig_name.
  repeat (match goal with |- context [if negb ?b then _ else _] =>
                            destruct b; cbn [negb] end; try done).
  destruct (nameToIpset m !! n) as [set|] eqn:E.
  { intros [= _ <-] Hlen Hk. split; [|done].
    assert (n ∈ dom (nameToIpset m)) by (apply elem_of_dom; eauto).
    set_solver. }
  destruct (k_GetSetByName K _ _ _) as [err|set]; [done|].
  case_bool_decide as Ht; cbn [negb]; [|done].
  intros [= _ <-] Hlen Hk. simpl. rewrite dom_insert_L. split; [done|]. split.
  - rewrite length_app, size_union, size_singleton; [simpl; lia|].
    apply not_elem_of_dom in E. set_solver.
  - intros n' set'. destruct (decide (n = n')) as [<-|Hne].
    + rewrite lookup_insert_eq. by intros [= <-].
    + rewrite lookup_insert_ne by done. apply Hk.
Qed.

Lemma parseIpsetConfig_names_dom i l names ipsets m ipsets' m' :
  parseIpsetConfig_names K i l names ipsets m = (None, ipsets', m') ->
  length (conn m) = size (dom (nameToIpset m)) ->
  (forall n set, nameToIpset m !! n = Some set -> KeyType set = TypeIPAddr) ->
  dom (nameToIpset m') = list_to_set names ∪ dom (nameToIpset m)
  /\ length (conn m') = size (dom (nameToIpset m'))
  /\ (forall n set, nameToIpset m' !! n = Some set ->
                    KeyType set = TypeIPAddr).
Proof.
  revert ipsets m. induction names as [|n names IH]; intros ipsets m; simpl.
  - intros [= _ <-] Hlen Hk. split; [set_solver|done].
  - destruct (parseIpsetConfig_name K i l n ipsets m) as [[[e|] ipsets1] m1]
      eqn:E1; [done|].
    intros E2 Hlen Hk.
    destruct (parseIpsetConfig_name_dom _ _ _ _ _ _ _ E1 Hlen Hk)
      as (Hd1 & Hl1 & Hk1).
    destruct (IH _ _ E2 Hl1 Hk1) as (Hd2 & Hl2 & Hk2).
    split; [|done]. rewrite Hd2, Hd1. set_solver.
Qed.

Lemma parseIpsetConfig_from_dom i lines m m' :
  parseIpsetConfig_from K i lines m = (None, m') ->
  length (conn m) = size (dom (nameToIpset m)) ->
  (forall n set, nameToIpset m !! n = Some set -> KeyType set = TypeIPAddr) ->
  dom (nameToIpset m')
  = list_to_set (flat_map line_names lines) ∪ dom (nameToIpset m)
  /\ length (conn m') = size (dom (nameToIpset m'))
  /\ (forall n set, nameToIpset m' !! n = Some set ->
                    KeyType set = TypeIPAddr).
Proof.
  revert i m. induction lines as [|line lines IH]; intros i m; simpl.
  - intros [= <-] Hlen Hk. split; [set_solver|done].
  - unfold parseIpsetConfig_line at 1, line_names at 1.
    destruct (parseIpsetConfigLine line) as [[hosts names] [e|]]; [done|].
    destruct (parseIpsetConfig_names K i line names [] m)
      as [[[e|] ipsets] m1] eqn:E1; [done|].
    intros E2 Hlen Hk.
    destruct (parseIpsetConfig_names_dom _ _ _ _ _ _ _ E1 Hlen Hk)
      as (Hd1 & Hl1 & Hk1).
    destruct (parseIpsetConfig_hosts_registry hosts ipsets m1)
      as (Hn & Hc & _).
    apply IH in E2 as (Hd2 & Hl2 & Hk2); rewrite ?Hn, ?Hc; [|done..].
    split; [|done]. rewrite Hd2, Hn, Hd1. simpl.
    rewrite list_to_set_app_L. set_solver.
Qed.

Lemma running_table_IPv4 m d sets set :
  running K m -> domainToIpsets m !! d = Some sets -> set ∈ sets ->
  KeyType set = TypeIPAddr.
Proof.
  intros Hrun. revert d sets set.
  induction Hrun as [lines m calls H|m host ip4s ip6s _ IH].
  - apply newManager_ok in H as (_ & H & _). unfold parseIpsetConfig in H.
    pose proof (parseIpsetConfig_from_dom 0 lines fresh m H) as (_ & _ & Hk).
    { done. } { intros n set. simpl. by rewrite lookup_empty. }
    apply parseIpsetConfig_from_ok in H as (_ & Ht).
    intros d sets set Hd Hin. specialize (Ht d). unfold index_slices in Ht.
    rewrite Hd in Ht. simpl in Ht. rewrite Ht in Hin.
    apply list_elem_of_In, in_flat_map in Hin as (line & _ & Hin).
    unfold contribution in Hin. apply in_flat_map in Hin as (h & _ & Hin).
    destruct (decide (h = d)); [|done].
    unfold line_sets in Hin. apply list_elem_of_In, list_elem_of_omap in Hin
      as (n & _ & Hn). by eapply Hk.
  - destruct (Add_evolves K host ip4s ip6s m) as (_ & -> & _). apply IH.
Qed.

End Registry.

(** X8. When [newManager] gives a manager, its registry has exactly the
    identifiers of the configuration, and the connection has seen as many
    calls as the registry has identifiers: one query for each identifier,
    however often the configuration names it. *)
Theorem one_query_for_each_identifier (K : Kernel) (lines : list string)
  (m : manager) (calls : list call) :
  newManager K lines = (Some m, None, calls) ->
  dom (nameToIpset m) = list_to_set (flat_map line_names lines)
  /\ length calls = size (dom (nameToIpset m)).
Proof.
  intros H. apply newManager_ok in H as (_ & H & ->).
  unfold parseIpsetConfig in H.
  apply parseIpsetConfig_from_dom in H as (Hd & Hl & _); [|done|].
  - split; [|done]. rewrite Hd. simpl. set_solver.
  - intros n set. simpl. by rewrite lookup_empty.
Qed.

Lemma one_query_for_each_identifier_witness :
  dom (nameToIpset example_manager)
  = list_to_set (flat_map line_names example_lines)
  /\ length (conn example_manager) = size (dom (nameToIpset example_manager)).
Proof.
  apply (one_query_for_each_identifier example_kernel example_lines
           example_manager (conn example_manager)).
  vm_compute. reflexivity.
Defined.

Lemma addIPs_error (K : Kernel) host set ips m nn err m' :
  addIPs K host set ips m = (Returns (nn, Some err), m') ->
  exists e, err = ErrAdding host ips (Name set) (ErrConn e)
            \/ err = ErrFlushing host ips (Name set) (ErrConn e).
Proof.
  unfold addIPs. destruct (length ips =? 0)%nat; [done|].
  destruct (addIPs_collect set ips m) as [elements entries].
  destruct (length elements =? 0)%nat; [done|].
  destruct (k_SetAddElements K _ _ _) as [e|]; [intros [= _ <- _]; eauto|].
  destruct (k_Flush K _) as [e|]; [intros [= _ <- _]; eauto|].
  by destruct (addIPs_record _ _) as [[|] m3].
Qed.

Lemma addToSets_loop_error (K : Kernel) host ip4s ip6s sets n0 m n err m' :
  Forall (fun s => KeyType s = TypeIPAddr) sets ->
  addToSets_loop K host ip4s ip6s sets n0 m = (Returns (n, Some err), m') ->
  exists set e,
    set ∈ sets
    /\ (err = ErrAdding host ip4s (Name set) (ErrConn e)
        \/ err = ErrFlushing host ip4s (Name set) (ErrConn e)).
Proof.
  intros Hall. revert n0 m.
  induction Hall as [|set sets Hk _ IH]; intros n0 m; simpl; [done|].
  rewrite Hk.
  destruct (addIPs K host set ip4s m) as [[[nn [e|]]|] m1] eqn:Ea; [| |done].
  - intros [= <- <- <-]. apply addIPs_error in Ea as [e' He].
    exists set, e'. split; [apply list_elem_of_here|done].
  - intros (s & e' & Hs & He)%IH. exists s, e'.
    split; [by apply list_elem_of_further|done].
Qed.

(** X9. Every set that the lookup of a running manager gives holds IPv4
    addresses, whatever the kernel answered: [newManager] refuses the
    others. So [Add] on a running manager passes over no set and never
    fails on the type of a set: the only errors that it returns are those
    of the kernel, for the elements or for the flush of a set of the
    host. *)
Theorem running_sets_hold_IPv4 (K : Kernel) (m : manager) (host : string) :
  running K m ->
  Forall (fun s => KeyType s = TypeIPAddr) (lookupHost m host)
  /\ (forall ip4s ip6s n err m',
        Add K host ip4s ip6s m = (Returns (n, Some err), m') ->
        exists set e,
          set ∈ lookupHost m host
          /\ (err = ErrAdding host ip4s (Name set) (ErrConn e)
              \/ err = ErrFlushing host ip4s (Name set) (ErrConn e))).
Proof.
  intros Hrun.
  assert (Hall : Forall (fun s => KeyType s = TypeIPAddr) (lookupHost m host)).
  { unfold lookupHost.
    destruct (lookupHost_loop_entry (domainToIpsets m) 0 host) as [->|[k Hk]];
      [done|].
    apply Forall_forall. intros set Hin.
    by eapply (running_table_IPv4 K m k). }
  split; [done|]. intros ip4s ip6s n err m'. unfold Add, addToSets.
  destruct (length (lookupHost m host) =? 0)%nat; [done|].
  by apply addToSets_loop_error.
Qed.

Lemma running_sets_hold_IPv4_witness :
  Forall (fun s => KeyType s = TypeIPAddr)
    (lookupHost flaky_manager "example.biz")
  /\ (forall ip4s ip6s n err m',
        Add flaky_kernel "example.biz" ip4s ip6s flaky_manager
        = (Returns (n, Some err), m') ->
        exists set e,
          set ∈ lookupHost flaky_manager "example.biz"
          /\ (err = ErrAdding "example.biz" ip4s (Name set) (ErrConn e)
              \/ err = ErrFlushing "example.biz" ip4s (Name set) (ErrConn e))).
Proof.
  apply (running_sets_hold_IPv4 flaky_kernel flaky_manager "example.biz").
  apply (running_new _ example_lines _ (conn flaky_manager)).
  vm_compute. reflexivity.
Defined.

(** X10. With a kernel that answers a query with the set that was asked
    for, [Add] on a running manager returns: the sets of its table are in
    the registry under the name that [addIPs] computes, so that the [nil]
    pointer of its last loop is never met. Two sets of the table with the
    same name in the cache are the same set. *)
Theorem Add_returns_on_running (K : Kernel) (m : manager) :
  faithful K ->
  running K m ->
  (forall host ip4s ip6s, exists r, (Add K host ip4s ip6s m).1 = Returns r)
  /\ (forall d1 d2 sets1 sets2 s1 s2,
        domainToIpsets m !! d1 = Some sets1 -> s1 ∈ sets1 ->
        domainToIpsets m !! d2 = Some sets2 -> s2 ∈ sets2 ->
        ipsetNameOf s1 = ipsetNameOf s2 -> s1 = s2).
Proof.
  intros HK Hrun. split.
  - intros host ip4s ip6s. by apply running_Add_returns.
  - intros d1 d2 sets1 sets2 s1 s2 Hd1 Hs1 Hd2 Hs2 Heq.
    destruct (running_registered K HK m Hrun) as [_ Ht].
    pose proof (Ht _ _ _ Hd1 Hs1) as H1. pose proof (Ht _ _ _ Hd2 Hs2) as H2.
    rewrite Heq in H1. congruence.
Qed.

Lemma example_kernel_faithful : faithful example_kernel.
Proof. intros calls t name set [= <-]. done. Defined.

Lemma Add_returns_on_running_witness :
  exists r,
    (Add example_kernel "example.biz" [ip_1_2_3_4] [ip_v6] example_manager).1
    = Returns r.
Proof.
  apply (proj1 (Add_returns_on_running example_kernel example_manager
                  example_kernel_faithful example_manager_running)).
Defined.

(** ** The names of the table and the names looked up *)

Section Names.

Implicit Types (s h : string) (c : ascii) (p : list ascii).














End Names.



(** ** Which names a host is looked up under *)

Section Suffixes.

Implicit Types (t : gmap string (list Set_)) (host label k : string).

Lemma slice_from_0 host : slice_from 0 host = host.
Proof. reflexivity. Qed.

(** The loop of [lookupHost] goes on from [host[i:]] as from a host of its
    own. *)
Lemma lookupHost_loop_slice t i host :
  lookupHost_loop t i host = lookupHost_loop t 0 (slice_from i host).
Proof.
  rewrite (lookupHost_loop_body t i host), (lookupHost_loop_body t 0).
  by rewrite slice_from_0.
Qed.

Lemma Index_label label host c :
  Index label c = (-1)%Z ->
  Index (label +:+ String c host) c = Z.of_nat (String.length label).
Proof.
  induction label as [|x label IH]; simpl.
  - by rewrite Ascii.eqb_refl.
  - destruct (Ascii.eqb x c); [discriminate|].
    destruct (Index label c =? -1)%Z eqn:E;
      [|pose proof (Index_nonneg _ _ E); intros; lia].
    intros _. apply Z.eqb_eq in E. rewrite (IH E).
    destruct (Z.of_nat (String.length label) =? -1)%Z eqn:E';
      [apply Z.eqb_eq in E'|]; lia.
Qed.

Lemma drop_bytes_label label host c :
  drop_bytes (S (String.length label)) (label +:+ String c host) = host.
Proof. induction label as [|x label IH]; simpl; [done|]. exact IH. Qed.

Lemma lastByte_dot host : lastByte (host +:+ ".") = Some "."%char.
Proof.
  induction host as [|c host IH]; [done|].
  change (String c host +:+ ".") with (String c (host +:+ ".")).
  cbn [lastByte]. destruct (host +:+ ".") eqn:E; [by destruct host|done].
Qed.

Lemma labelSuffixes_dot_end host :
  Forall (fun k => k = "" \/ lastByte k = Some "."%char)
         (candidates (host +:+ ".")).
Proof.
  unfold candidates. constructor; [right; apply lastByte_dot|].
  induction host as [|c host IH]; simpl.
  - repeat constructor.
  - destruct (Ascii.eqb c "."); [|done].
    constructor; [right; apply lastByte_dot|done].
Qed.

Lemma first_registered_catch_all t keys :
  Forall (fun k => k = "" \/ t !! k = None) keys ->
  default (index_slices t "") (first_registered t keys) = index_slices t "".
Proof.
  induction 1 as [|k keys [->|Hk] _ IH]; simpl; [done| |by rewrite Hk].
  unfold index_slices in *. by destruct (t !! "").
Qed.

End Suffixes.

(** X12. A name that is not in the table itself inherits from the name
    without its leftmost label: for a label without ['.'], the sets of
    [label.host] are those of [host]. *)
Theorem lookupHost_inherits (m : manager) (label host : string) :
  Index label "." = (-1)%Z ->
  domainToIpsets m !! (label +:+ "." +:+ host) = None ->
  lookupHost m (label +:+ "." +:+ host) = lookupHost m host.
Proof.
  intros Hl Hnone. unfold lookupHost.
  rewrite lookupHost_loop_body. cbn zeta. rewrite slice_from_0.
  unfold index_slices at 1. rewrite Hnone. simpl default. cbv iota.
  change (label +:+ "." +:+ host) with (label +:+ String "." host).
  rewrite (Index_label label host "." Hl).
  destruct (Z.of_nat (String.length label) =? -1)%Z eqn:E;
    [apply Z.eqb_eq in E; lia|].
  rewrite lookupHost_loop_slice. f_equal. unfold slice_from.
  replace (Z.to_nat (Z.of_nat (String.length label) + 1))
    with (S (String.length label)) by lia.
  apply drop_bytes_label.
Qed.

Lemma lookupHost_inherits_witness :
  lookupHost example_manager ("www" +:+ "." +:+ "example.com")
  = lookupHost example_manager "example.com".
Proof.
  apply (lookupHost_inherits example_manager "www" "example.com");
    reflexivity.
Defined.

(** X13. The names of the table are compared with the host byte for byte:
    when no name of the table ends with ['.'], a host written with its final
    ['.'] matches none of them, whatever its labels are, and gets the sets
    of the catch-all name only. *)
Theorem lookupHost_final_dot (K : Kernel) (m : manager) (host : string) :
  running K m ->
  map_Forall (fun k _ => lastByte k <> Some "."%char) (domainToIpsets m) ->
  lookupHost m (host +:+ ".") = index_slices (domainToIpsets m) "".
Proof.
  intros Hrun Hdot. unfold lookupHost.
  rewrite lookupHost_loop_spec by (by eapply running_nonempty).
  rewrite slice_from_0. unfold lookup_spec.
  apply first_registered_catch_all.
  eapply Forall_impl; [apply labelSuffixes_dot_end|].
  intros k [->|Hk]; [by left|right].
  destruct (domainToIpsets m !! k) as [sets|] eqn:E; [|done].
  by destruct (Hdot _ _ E).
Qed.

Lemma lookupHost_final_dot_witness :
  lookupHost example_manager ("example.com" +:+ ".")
  = index_slices (domainToIpsets example_manager) "".
Proof.
  apply (lookupHost_final_dot example_kernel example_manager "example.com");
    [apply example_manager_running|].
  apply (bool_decide_unpack _). vm_compute. reflexivity.
Defined.

(** ** Writing a line of the configuration *)

Section Writing.

Implicit Types (a b s : string) (c d : ascii) (l : list string).

Lemma Split_app_sep a b c :
  Count a c = 0%nat -> Split (a +:+ String c b) c = a :: Split b c.
Proof.
  induction a as [|x a IH]; simpl.
  - by rewrite Ascii.eqb_refl.
  - destruct (Ascii.eqb x c); [done|]. simpl. intros H. by rewrite (IH H).
Qed.

Lemma Split_Join l c :
  l <> [] -> Forall (fun x => Count x c = 0%nat) l ->
  Split (Join l (String c "")) c = l.
Proof.
  intros Hne Hall. induction Hall as [|x l Hx Hall IH]; [done|].
  destruct l as [|y l].
  - by apply Split_no_sep.
  - change (Join (x :: y :: l) (String c ""))
      with (x +:+ String c (Join (y :: l) (String c ""))).
    rewrite (Split_app_sep _ _ _ Hx). f_equal. by apply IH.
Qed.

Lemma Count_Join l c d :
  Ascii.eqb d c = false -> Forall (fun x => Count x c = 0%nat) l ->
  Count (Join l (String d "")) c = 0%nat.
Proof.
  intros Hd Hall. induction Hall as [|x l Hx Hall IH]; [done|].
  destruct l as [|y l]; [done|].
  change (Join (x :: y :: l) (String d ""))
    with (x +:+ String d (Join (y :: l) (String d ""))).
  rewrite Count_app, Hx. cbn [Count]. by rewrite Hd, IH.
Qed.

End Writing.

(** X14. A line written from its hosts and its identifiers, the hosts
    joined by commas, a ['/'], the identifiers joined by commas, is read
    back by [parseIpsetConfigLine] as these hosts and these identifiers,
    provided that there is at least one of each, that none of them has a
    [','] or a ['/'], that the hosts are trimmed and in lower case, and that
    the identifiers are trimmed and not empty. *)
Theorem parseIpsetConfigLine_Join (hosts names : list string) :
  hosts <> [] ->
  names <> [] ->
  Forall (fun h => Count h "," = 0%nat /\ Count h "/" = 0%nat
                   /\ ToLower (TrimSpace h) = h) hosts ->
  Forall (fun n => Count n "," = 0%nat /\ Count n "/" = 0%nat
                   /\ TrimSpace n = n /\ n <> "") names ->
  parseIpsetConfigLine (Join hosts "," +:+ "/" +:+ Join names ",")
  = (hosts, names, None).
Proof.
  intros Hh Hn Hhosts Hnames.
  assert (HL : Count (Join hosts ",") "/" = 0%nat).
  { apply Count_Join; [done|]. eapply Forall_impl; [exact Hhosts|].
    by intros h (_ & ? & _). }
  assert (HR : Count (Join names ",") "/" = 0%nat).
  { apply Count_Join; [done|]. eapply Forall_impl; [exact Hnames|].
    by intros h (_ & ? & _). }
  assert (Hsh : Split (Join hosts ",") "," = hosts).
  { apply Split_Join; [done|]. eapply Forall_impl; [exact Hhosts|].
    by intros h (? & _). }
  assert (Hsn : Split (Join names ",") "," = names).
  { apply Split_Join; [done|]. eapply Forall_impl; [exact Hnames|].
    by intros h (? & _). }
  rewrite parseIpsetConfigLine_spec. unfold leftSide, rightSide.
  change (Join hosts "," +:+ "/" +:+ Join names ",")
    with (Join hosts "," +:+ String "/" (Join names ",")).
  rewrite Count_app, HL. cbn [Count Ascii.eqb Bool.eqb]. rewrite HR.
  rewrite (Split_app_sep _ _ _ HL), (Split_no_sep _ _ HR).
  cbn [nth Nat.add Nat.eqb negb]. rewrite Hsh, Hsn.
  assert (Hb : existsb blank names = false).
  { clear -Hnames. induction Hnames as [|n names (_ & _ & Ht & Hne) _ IH];
      [done|].
    simpl. rewrite IH. unfold blank. rewrite Ht. by destruct n. }
  rewrite Hb. f_equal. f_equal.
  - clear -Hhosts. induction Hhosts as [|h hosts (_ & _ & Ht) _ IH]; [done|].
    simpl. by rewrite Ht, IH.
  - clear -Hnames. induction Hnames as [|n names (_ & _ & Ht & _) _ IH];
      [done|].
    simpl. by rewrite Ht, IH.
Qed.

Lemma parseIpsetConfigLine_Join_witness :
  parseIpsetConfigLine
    (Join ["example.com"; ""; "example.org"] ","
     +:+ "/" +:+ Join ["4#inet#t#s"; "4#inet#t#u"] ",")
  = (["example.com"; ""; "example.org"], ["4#inet#t#s"; "4#inet#t#u"], None).
Proof.
  apply (parseIpsetConfigLine_Join ["example.com"; ""; "example.org"]
           ["4#inet#t#s"; "4#inet#t#u"]); [done|done| |].
  - repeat constructor; vm_compute; discriminate.
  - repeat constructor; vm_compute; discriminate.
Defined.

(** ** The token file *)

Section Token.

Open Scope Z_scope.

Lemma byteVal_range b : 0 <= byteVal b < 2 ^ 8.
Proof.
  unfold byteVal. pose proof (Byte.to_N_bounded b) as H.
  change (2 ^ 8) with 256. lia.
Qed.

Lemma byteVal_byteOf v : byteVal (byteOf v) = Z.land v 255.
Proof.
  assert (Hr : 0 <= Z.land v 255 < 256).
  { change 255 with (Z.ones 8). rewrite Z.land_ones by lia.
    change (2 ^ 8) with 256. apply Z.mod_pos_bound. lia. }
  unfold byteVal, byteOf.
  destruct (Byte.of_N (Z.to_N (Z.land v 255))) as [b|] eqn:E; simpl.
  - apply Byte.to_of_N in E. rewrite E. lia.
  - apply Byte.of_N_None_iff in E. lia.
Qed.

Lemma testbit_high a n k :
  0 <= a < 2 ^ n -> 0 <= n <= k -> Z.testbit a k = false.
Proof.
  intros Ha Hk. apply Z.testbit_false; [lia|].
  rewrite Z.div_small; [done|].
  assert (2 ^ n <= 2 ^ k) by (apply Z.pow_le_mono_r; lia). lia.
Qed.

Lemma bounded_by_bits x n :
  0 <= n -> (forall k, n <= k -> Z.testbit x k = false) -> 0 <= x < 2 ^ n.
Proof.
  intros Hn Hbits.
  assert (H : x = x mod 2 ^ n).
  { apply Z.bits_inj'. intros k Hk. destruct (Z.lt_ge_cases k n).
    - by rewrite Z.mod_pow2_bits_low.
    - rewrite Z.mod_pow2_bits_high by lia. by apply Hbits. }
  rewrite H. apply Z.mod_pos_bound. lia.
Qed.

Lemma testbit_low_byte v k :
  0 <= k -> Z.testbit (Z.land v 255) k = Z.testbit v k && (k <? 8).
Proof.
  intros Hk. rewrite Z.land_spec. change 255 with (Z.ones 8).
  by rewrite Z.testbit_ones_nonneg by lia.
Qed.

Lemma testbit_byte_at v s k :
  0 <= s -> 0 <= k ->
  Z.testbit (Z.shiftl (Z.land (Z.shiftr v s) 255) s) k
  = Z.testbit v k && (s <=? k) && (k <? s + 8).
Proof.
  intros Hs Hk. rewrite Z.shiftl_spec by lia.
  destruct (Z.leb_spec s k) as [Hle|Hlt].
  - rewrite testbit_low_byte, Z.shiftr_spec by lia.
    replace (k - s + s) with k by lia.
    rewrite andb_true_r. f_equal.
    destruct (Z.ltb_spec (k - s) 8), (Z.ltb_spec k (s + 8)); lia.
  - rewrite Z.testbit_neg_r by lia. by rewrite andb_false_r.
Qed.

Lemma Uint32_PutUint32 v :
  0 <= v < 2 ^ 32 ->
  Z.lor (Z.lor (Z.lor (Z.land v 255)
                      (Z.shiftl (Z.land (Z.shiftr v 8) 255) 8))
               (Z.shiftl (Z.land (Z.shiftr v 16) 255) 16))
        (Z.shiftl (Z.land (Z.shiftr v 24) 255) 24) = v.
Proof.
  intros Hv. apply Z.bits_inj'. intros k Hk.
  rewrite !Z.lor_spec, testbit_low_byte, !testbit_byte_at by lia.
  destruct (Z.lt_ge_cases k 32) as [Hlt|Hge].
  - destruct (Z.testbit v k); [|done]. simpl.
    destruct (Z.ltb_spec k 8), (Z.leb_spec 8 k), (Z.ltb_spec k (8 + 8)),
      (Z.leb_spec 16 k), (Z.ltb_spec k (16 + 8)), (Z.leb_spec 24 k),
      (Z.ltb_spec k (24 + 8)); simpl; lia.
  - by rewrite (testbit_high v 32 k) by lia.
Qed.

Lemma Uint32_range order b0 b1 b2 b3 :
  0 <= Uint32 order b0 b1 b2 b3 < 2 ^ 32.
Proof.
  pose proof (byteVal_range b0). pose proof (byteVal_range b1).
  pose proof (byteVal_range b2). pose proof (byteVal_range b3).
  apply bounded_by_bits; [lia|]. intros k Hk.
  destruct order; unfold Uint32;
    rewrite !Z.lor_spec, !Z.shiftl_spec by lia;
    rewrite (testbit_high (byteVal b0) 8), (testbit_high (byteVal b1) 8),
      (testbit_high (byteVal b2) 8), (testbit_high (byteVal b3) 8) by lia;
    done.
Qed.

End Token.

(** X15. The token date is read back as it was written: from a file
    shorter than [MaxFileSize] that begins with the 4 bytes of a 32-bit
    value in the byte order of the machine, [glGetTokenDate] returns this
    value, whatever follows the 4 bytes. *)
Theorem glGetTokenDate_PutUint32 (order : ByteOrder) (fs : string -> file)
  (path : string) (v : Z) (rest : list byte) :
  (0 <= v < 2 ^ 32)%Z ->
  (Z.of_nat (length rest) + 4 < MaxFileSize)%Z ->
  fs path = Holds (PutUint32 order v ++ rest) ->
  glGetTokenDate order fs path = v.
Proof.
  intros Hv Hlen Hfs. unfold glGetTokenDate. rewrite Hfs.
  assert (Hl : length (PutUint32 order v ++ rest) = (4 + length rest)%nat)
    by (rewrite length_app; by destruct order).
  rewrite Hl.
  destruct (Z.leb_spec MaxFileSize (Z.of_nat (4 + length rest))); [lia|].
  destruct order; cbn [PutUint32 app]; unfold Uint32;
    rewrite !byteVal_byteOf; by apply Uint32_PutUint32.
Qed.

Lemma glGetTokenDate_PutUint32_witness :
  glGetTokenDate BigEndian
    (fun _ => Holds (PutUint32 BigEndian 1700000000 ++ [Byte.x0a])) "/tmp/gl_token_x"
  = 1700000000%Z.
Proof.
  apply (glGetTokenDate_PutUint32 BigEndian _ "/tmp/gl_token_x" 1700000000
           [Byte.x0a]); [lia|vm_compute; reflexivity|reflexivity].
Defined.

(** X16. [glGetTokenDate] returns a value of 32 bits, and 0 is all it
    returns unless the file could be opened and read, is shorter than
    [MaxFileSize] and has 4 bytes at least: a date other than 0 is made of
    the first 4 bytes of such a file. *)
Theorem glGetTokenDate_nonzero (order : ByteOrder) (fs : string -> file)
  (path : string) :
  (0 <= glGetTokenDate order fs path < 2 ^ 32)%Z
  /\ (glGetTokenDate order fs path <> 0%Z ->
      exists b0 b1 b2 b3 rest,
        fs path = Holds (b0 :: b1 :: b2 :: b3 :: rest)
        /\ (Z.of_nat (length rest) + 4 < MaxFileSize)%Z
        /\ glGetTokenDate order fs path = Uint32 order b0 b1 b2 b3).
Proof.
  unfold glGetTokenDate.
  destruct (fs path) as [| |bs]; [by split; [lia|] ..|].
  destruct (Z.leb_spec MaxFileSize (Z.of_nat (length bs))) as [|Hlt];
    [by split; [lia|]|].
  destruct bs as [|b0 [|b1 [|b2 [|b3 rest]]]]; [by split; [lia|] ..|].
  split; [apply Uint32_range|]. intros _.
  exists b0, b1, b2, b3, rest. simpl in Hlt. split; [done|]. split; [lia|done].
Qed.

Lemma glGetTokenDate_nonzero_witness :
  exists b0 b1 b2 b3 rest,
    Holds [Byte.x00; Byte.x00; Byte.x01; Byte.x2c; Byte.x0a]
    = Holds (b0 :: b1 :: b2 :: b3 :: rest)
    /\ (Z.of_nat (length rest) + 4 < MaxFileSize)%Z
    /\ glGetTokenDate BigEndian
         (fun _ => Holds [Byte.x00; Byte.x00; Byte.x01; Byte.x2c; Byte.x0a])
         "/tmp/gl_token_x"
       = Uint32 BigEndian b0 b1 b2 b3.
Proof.
  apply (proj2 (glGetTokenDate_nonzero BigEndian
                  (fun _ => Holds [Byte.x00; Byte.x00; Byte.x01; Byte.x2c;
                                   Byte.x0a])
                  "/tmp/gl_token_x")).
  vm_compute. discriminate.
Defined.
